(** * Scattered Photos: animation planner, frame interpolator and export pipeline

    A shallow embedding of [utils/animationEffects.ts], of the MP4 encoder of
    [utils/videoExport.ts] and of the export handler of the animation dialog,
    together with the properties of the specification that concern them; and
    of the code around them: the layer handlers of [App.tsx], the playback of
    the animation dialog, [utils/storage.ts] and the rotation handle of the
    photo card, with the properties that the code itself shows.

    Numbers.  A TypeScript [number] is modelled as an exact rational [Q]:
    every finite double is a rational, arithmetic is carried out without
    rounding, and the decimal literals of the source ([0.35], [1.70158], ...)
    denote their decimal value.  [NaN] and the infinities are outside the
    model, so a division is only meaningful for a non-zero divisor (the
    planner only produces positive durations, and the frame rate is 15, 24
    or 30).  Equality of numbers is [Qeq] (written [==]).

    Effects.  The planner and the interpolator are pure.  The array that the
    planner sorts lives in a store, so that sorting in place can be told
    from sorting a copy.  The encoder task is a state-passing computation
    with exceptions over the encoder's queue, the [encodeError] variable
    and a log of the calls it makes; the browser is a parameter, and the
    encoder only makes progress while the task is suspended at an [await],
    as the event loop has it. *)

From Stdlib Require Import QArith Qround Qpower ZArith List String Lia Lqa.
From Stdlib Require Import Sorting.Sorted Sorting.Permutation.
From stdpp Require Import base option list sorting gmap strings.
Import ListNotations.
Open Scope Q_scope.

(** ** Data model ([types.ts]) *)

Inductive AnimationEffect : Set :=
| sequential
| shuffle
| flip
| fade.

(** [interface Photo] *)
Module Photo.
Record t : Set := mk {
  id : string;
  url : string;
  x : Q;
  y : Q;
  rotation : Q;
  zIndex : Q;
  scale : Q;
  width : option Q;
  height : option Q;
  timestamp : Q
}.
End Photo.

(** [Omit<PhotoAnimState, "id">] *)
Module Visual.
Record t : Set := mk {
  x : Q;
  y : Q;
  rotation : Q;
  opacity : Q;
  scale : Q;
  rotateY : Q
}.
End Visual.

(** [interface PhotoAnimState] *)
Module PhotoAnimState.
Record t : Set := mk {
  id : string;
  x : Q;
  y : Q;
  rotation : Q;
  opacity : Q;
  scale : Q;
  rotateY : Q
}.
End PhotoAnimState.

(** The object literal [{ id: i, ...s }]. *)
Definition withId (i : string) (s : Visual.t) : PhotoAnimState.t :=
  {| PhotoAnimState.id := i;
     PhotoAnimState.x := Visual.x s;
     PhotoAnimState.y := Visual.y s;
     PhotoAnimState.rotation := Visual.rotation s;
     PhotoAnimState.opacity := Visual.opacity s;
     PhotoAnimState.scale := Visual.scale s;
     PhotoAnimState.rotateY := Visual.rotateY s |}.

(** [interface PhotoEnterSpec]; [from] and [to] are spelt [from_] and [to_]. *)
Record PhotoEnterSpec : Set := mkSpec {
  photoId : string;
  from_ : Visual.t;
  to_ : Visual.t;
  delay : Q;
  duration : Q
}.

(** [interface EffectPlan] *)
Record EffectPlan : Set := mkPlan {
  specs : list PhotoEnterSpec;
  totalDuration : Q
}.

(** ** JavaScript primitives used by the planner *)

Definition Math_max (a b : Q) : Q := if Qle_bool a b then b else a.
Definition Math_min (a b : Q) : Q := if Qle_bool a b then a else b.

(** The index of [forEach] and [sorted.length], as numbers. *)
Definition num (n : nat) : Q := inject_Z (Z.of_nat n).

(** [Array.prototype.sort] with a comparator, as the stable sort that
    ECMAScript 2019 prescribes: [x] is placed before the first element that
    does not compare strictly below it. *)
Section ArraySort.
Context {A : Type} (cmp : A -> A -> Q).

Fixpoint sort_insert (x : A) (l : list A) : list A :=
  match l with
  | [] => [x]
  | y :: l' => if Qle_bool (cmp x y) 0 then x :: y :: l'
               else y :: sort_insert x l'
  end.

Fixpoint array_sort (l : list A) : list A :=
  match l with
  | [] => []
  | x :: l' => sort_insert x (array_sort l')
  end.
End ArraySort.

(** ** The effect planner ([utils/animationEffects.ts]) *)

Definition defaultFrom : Visual.t :=
  {| Visual.x := 0; Visual.y := 0; Visual.rotation := 0;
     Visual.opacity := 1; Visual.scale := 1; Visual.rotateY := 0 |}.

Definition toState (photo : Photo.t) : Visual.t :=
  {| Visual.x := Photo.x photo;
     Visual.y := Photo.y photo;
     Visual.rotation := Photo.rotation photo;
     Visual.opacity := 1;
     Visual.scale := Photo.scale photo;
     Visual.rotateY := 0 |}.

(** The comparator [(a, b) => a.zIndex - b.zIndex]. *)
Definition byZIndex (a b : Photo.t) : Q := Photo.zIndex a - Photo.zIndex b.

(** The specs pushed by the four branches.  A spread [...s] followed by
    fields is the record of those fields, completed from [s]; in the
    sequential branch every field of [defaultFrom()] is overridden. *)
Definition sequentialSpec (i : nat) (photo : Photo.t) : PhotoEnterSpec :=
  let stagger := 0.35 in
  let enterDur := 0.8 in
  {| photoId := Photo.id photo;
     from_ := {| Visual.x := Photo.x photo;
                 Visual.y := -350;
                 Visual.rotation := Photo.rotation photo * 0.5;
                 Visual.opacity := 0;
                 Visual.scale := Photo.scale photo * 0.8;
                 Visual.rotateY := 0 |};
     to_ := toState photo;
     delay := num i * stagger;
     duration := enterDur |}.

Definition shuffleSpec (containerWidth containerHeight : Q)
    (i : nat) (photo : Photo.t) : PhotoEnterSpec :=
  let cx := containerWidth / 2 - 110 in
  let cy := containerHeight / 2 - 140 in
  let gatherDur := 0.5 in
  let scatterStagger := 0.12 in
  let scatterDur := 0.7 in
  {| photoId := Photo.id photo;
     from_ := {| Visual.x := cx;
                 Visual.y := cy;
                 Visual.rotation :=
                   (if Nat.even i then 1 else -1) * (num i * 3);
                 Visual.opacity := 0;
                 Visual.scale := Photo.scale photo * 0.9;
                 Visual.rotateY := 0 |};
     to_ := toState photo;
     delay := gatherDur + num i * scatterStagger;
     duration := scatterDur |}.

Definition flipSpec (i : nat) (photo : Photo.t) : PhotoEnterSpec :=
  let stagger := 0.3 in
  let enterDur := 0.6 in
  {| photoId := Photo.id photo;
     from_ := {| Visual.x := Visual.x (toState photo);
                 Visual.y := Visual.y (toState photo);
                 Visual.rotation := Visual.rotation (toState photo);
                 Visual.opacity := 0;
                 Visual.scale := Photo.scale photo * 0.9;
                 Visual.rotateY := 90 |};
     to_ := toState photo;
     delay := num i * stagger;
     duration := enterDur |}.

Definition fadeSpec (i : nat) (photo : Photo.t) : PhotoEnterSpec :=
  let stagger := 0.28 in
  let enterDur := 0.7 in
  {| photoId := Photo.id photo;
     from_ := {| Visual.x := Visual.x (toState photo);
                 Visual.y := Visual.y (toState photo);
                 Visual.rotation := Visual.rotation (toState photo);
                 Visual.opacity := 0;
                 Visual.scale := Photo.scale photo * 0.7;
                 Visual.rotateY := 0 |};
     to_ := toState photo;
     delay := num i * stagger;
     duration := enterDur |}.

(** The [switch (effect)] of [buildEffectPlan], on the sorted copy. *)
Definition planOfSorted (sorted : list Photo.t) (effect : AnimationEffect)
    (containerWidth containerHeight : Q) : EffectPlan :=
  match effect with
  | sequential =>
      let stagger := 0.35 in
      let enterDur := 0.8 in
      let last :=
        if (0 <? length sorted)%nat
        then (num (length sorted) - 1) * stagger + enterDur
        else 1 in
      {| specs := imap sequentialSpec sorted; totalDuration := last |}
  | shuffle =>
      let gatherDur := 0.5 in
      let scatterStagger := 0.12 in
      let scatterDur := 0.7 in
      let last :=
        gatherDur + (num (length sorted) - 1) * scatterStagger + scatterDur in
      {| specs := imap (shuffleSpec containerWidth containerHeight) sorted;
         totalDuration := Math_max last 1 |}
  | flip =>
      let stagger := 0.3 in
      let enterDur := 0.6 in
      let last := (num (length sorted) - 1) * stagger + enterDur in
      {| specs := imap flipSpec sorted; totalDuration := Math_max last 1 |}
  | fade =>
      let stagger := 0.28 in
      let enterDur := 0.7 in
      let last := (num (length sorted) - 1) * stagger + enterDur in
      {| specs := imap fadeSpec sorted; totalDuration := Math_max last 1 |}
  end.

(** [buildEffectPlan] over the sorting routine [engine_sort] of the host
    engine, which is applied to a fresh copy of [photos]. *)
Definition buildEffectPlanWith
    (engine_sort : (Photo.t -> Photo.t -> Q) -> list Photo.t -> list Photo.t)
    (photos : list Photo.t) (effect : AnimationEffect)
    (containerWidth containerHeight : Q) : EffectPlan :=
  let sorted := engine_sort byZIndex photos in
  planOfSorted sorted effect containerWidth containerHeight.
Definition buildEffectPlan : list Photo.t -> AnimationEffect -> Q -> Q -> EffectPlan :=
  buildEffectPlanWith (@array_sort Photo.t).

(** ** The frame interpolator *)

Definition easeOutBack (t : Q) : Q :=
  let c1 := 1.70158 in
  let c3 := c1 + 1 in
  1 + c3 * (t - 1) ^ 3 + c1 * (t - 1) ^ 2.

Definition easeOutQuart (t : Q) : Q := 1 - (1 - t) ^ 4.

Definition lerp (a b t : Q) : Q := a + (b - a) * t.

(** [const easeFn = effect === "sequential" ? easeOutBack : easeOutQuart] *)
Definition easeFn (effect : AnimationEffect) : Q -> Q :=
  match effect with
  | sequential => easeOutBack
  | _ => easeOutQuart
  end.

(** [photos.find((p) => p.id === id)] *)
Definition findPhoto (photos : list Photo.t) (i : string) : option Photo.t :=
  List.find (fun p => String.eqb (Photo.id p) i) photos.

Definition interpolateSpec (photos : list Photo.t) (t : Q)
    (effect : AnimationEffect) (spec : PhotoEnterSpec) : PhotoAnimState.t :=
  match findPhoto photos (photoId spec) with
  | None => withId (photoId spec) (to_ spec)
  | Some _ =>
      let localT := (t - delay spec) / duration spec in
      if Qle_bool localT 0 then withId (photoId spec) (from_ spec)
      else if Qle_bool 1 localT then withId (photoId spec) (to_ spec)
      else
        let eased := easeFn effect (Math_min localT 1) in
        {| PhotoAnimState.id := photoId spec;
           PhotoAnimState.x := lerp (Visual.x (from_ spec)) (Visual.x (to_ spec)) eased;
           PhotoAnimState.y := lerp (Visual.y (from_ spec)) (Visual.y (to_ spec)) eased;
           PhotoAnimState.rotation :=
             lerp (Visual.rotation (from_ spec)) (Visual.rotation (to_ spec)) eased;
           PhotoAnimState.opacity :=
             lerp (Visual.opacity (from_ spec)) (Visual.opacity (to_ spec)) eased;
           PhotoAnimState.scale :=
             lerp (Visual.scale (from_ spec)) (Visual.scale (to_ spec)) eased;
           PhotoAnimState.rotateY :=
             lerp (Visual.rotateY (from_ spec)) (Visual.rotateY (to_ spec)) eased |}
  end.

Definition interpolateFrame (plan : EffectPlan) (photos : list Photo.t) (t : Q)
    (effect : AnimationEffect) : list PhotoAnimState.t :=
  List.map (interpolateSpec photos t effect) (specs plan).


(** ** The export handler of the animation dialog ([handleExport]) *)

(** [fps: 15 | 24 | 30] *)
Inductive Fps : Set := fps15 | fps24 | fps30.

Definition fpsValue (f : Fps) : Q :=
  match f with
  | fps15 => 15
  | fps24 => 24
  | fps30 => 30
  end.

Definition Math_ceil (q : Q) : Z := Qceiling q.

Inductive ExportFormat : Set := gif | mp4.

(** The photo elements registered in [photoRefsRef]: the id of an element is
    mapped to the visual state last written into its style. *)
Abbreviation Dom := (gmap string PhotoAnimState.t).

Definition applyStateToDOM (d : Dom) (state : PhotoAnimState.t) : Dom :=
  match d !! PhotoAnimState.id state with
  | None => d
  | Some _ => <[PhotoAnimState.id state := state]> d
  end.

Definition applyStatesToDOM (states : list PhotoAnimState.t) (d : Dom) : Dom :=
  foldl applyStateToDOM d states.

(** The state of the dialog that [handleExport] reads or writes. *)
Record Dialog : Type := mkDialog {
  selectedEffect : AnimationEffect;
  speed : Q;
  fps : Fps;
  isPlaying : bool;
  isExporting : bool;
  canvasMounted : bool;
  winW : Q;
  winH : Q;
  planRef : EffectPlan;
  photosRef : list Photo.t;
  currentT : Q;
  photoRefs : Dom
}.

Definition withSpeed (s : Q) (st : Dialog) : Dialog :=
  {| selectedEffect := selectedEffect st; speed := s; fps := fps st;
     isPlaying := isPlaying st; isExporting := isExporting st;
     canvasMounted := canvasMounted st; winW := winW st; winH := winH st;
     planRef := planRef st; photosRef := photosRef st;
     currentT := currentT st; photoRefs := photoRefs st |}.

Inductive ExportOutcome (Blob : Type) : Type :=
| ExportIgnored
| ExportFailed
| ExportDownloaded (blob : Blob).
Arguments ExportIgnored {Blob}.
Arguments ExportFailed {Blob}.
Arguments ExportDownloaded {Blob} blob.

(** What one call of [handleExport] did: the frame count it computed, the
    frames it captured, how it ended, and the dialog it leaves. *)
Record ExportRun (Blob : Type) : Type := mkExportRun {
  frameCount : Z;
  frames : list string;
  outcome : ExportOutcome Blob;
  after : Dialog
}.
Arguments mkExportRun {Blob}.
Arguments frameCount {Blob}.
Arguments frames {Blob}.
Arguments outcome {Blob}.
Arguments after {Blob}.

Section ExportHandler.
(** [captureFrame(el, winW, winH)] rasterises the canvas as it stands, or
    rejects; the encoders turn the frames into a blob, or reject. *)
Variable Blob : Type.
Variable captureFrame : Dom -> Q -> Q -> option string.
Variable encode : ExportFormat -> list string -> Q -> Q -> Q -> option Blob.

(** The frame capture loop, [for (let i = 0; i < frameCount; i++)], with
    [remaining = frameCount - i].  The boolean tells whether every capture
    succeeded. *)
Fixpoint captureLoop (st : Dialog) (remaining i : nat) (d : Dom)
    (acc : list string) : Dom * list string * bool :=
  match remaining with
  | O => (d, acc, true)
  | S remaining' =>
      let t := num i / fpsValue (fps st) in
      let states := interpolateFrame (planRef st) (photosRef st) t (selectedEffect st) in
      let d' := applyStatesToDOM states d in
      match captureFrame d' (winW st) (winH st) with
      | None => (d', acc, false)
      | Some frame => captureLoop st remaining' (S i) d' (acc ++ [frame])
      end
  end.

Definition showFinalState (st : Dialog) (d : Dom) : Dom :=
  applyStatesToDOM
    (List.map (fun s => withId (photoId s) (to_ s)) (specs (planRef st))) d.

(** The dialog once [handleExport] is through: playback was stopped at the
    start, and the [finally] block clears the exporting flag and shows the
    final state.  The progress display is not modelled. *)
Definition exported (st : Dialog) (d : Dom) : Dialog :=
  {| selectedEffect := selectedEffect st; speed := speed st; fps := fps st;
     isPlaying := false; isExporting := false;
     canvasMounted := canvasMounted st; winW := winW st; winH := winH st;
     planRef := planRef st; photosRef := photosRef st;
     currentT := 0; photoRefs := showFinalState st d |}.

Definition handleExport (format : ExportFormat) (st : Dialog) : ExportRun Blob :=
  if isExporting st || negb (canvasMounted st)
  then mkExportRun 0%Z [] ExportIgnored st
  else
    let frameCount := Math_ceil (totalDuration (planRef st) * fpsValue (fps st)) in
    match captureLoop st (Z.to_nat frameCount) 0 (photoRefs st) [] with
    | (d, captured, true) =>
        let result :=
          match encode format captured (winW st) (winH st) (fpsValue (fps st)) with
          | Some blob => ExportDownloaded blob
          | None => ExportFailed
          end in
        mkExportRun frameCount captured result (exported st d)
    | (d, captured, false) =>
        mkExportRun frameCount captured ExportFailed (exported st d)
    end.
End ExportHandler.

(** ** The MP4 encoder ([avcCodecForSize], [encodeMP4]) *)

(** Bitmap dimensions are integers; [%] is the truncating remainder. *)
Definition avcCodecForSize (w h : Z) : string :=
  let area := (w * h)%Z in
  if (area <=? 921600)%Z then "avc1.42001f"
  else if (area <=? 2097152)%Z then "avc1.420029"
  else if (area <=? 9437184)%Z then "avc1.420033"
  else "avc1.420034".

Definition evenDimension (raw : Z) : Z :=
  if (Z.rem raw 2 =? 0)%Z then raw else (raw - 1)%Z.

(** [Math.round]: the nearest integer, halves towards plus infinity. *)
Definition Math_round (q : Q) : Z := Qfloor (q + (1 # 2)).

Inductive ProgressLabel : Set := PreparingEncoder | EncodingMP4 | Done.

Inductive ExportError : Set :=
| WebCodecsUnavailable
| FrameUndecodable (i : nat)
| ResolutionUnsupported (w h : Z)
| EncoderFailure (code : nat).

(** What [encodeMP4] does to its collaborators, in the order it does it. *)
Inductive EncoderEvent : Set :=
| EvProgress (p : Q) (label : ProgressLabel)
| EvIsConfigSupported (codec : string) (w h : Z) (supported : bool)
| EvConfigure (codec : string) (w h : Z) (bitrate : Z) (framerate : Q)
| EvDraw (i : nat)
| EvWait (queueSize : nat) (ms : nat)
| EvEncode (i : nat) (timestamp frameDuration : Z) (keyFrame : bool)
    (queueSize : nat)
| EvFlush
| EvClose
| EvFinalize.

(** The browser.  [encoderActivity k] is what the encoder did by the time
    the [k]-th suspension of the task resumes: how many queued frames it has
    finished, and whether its error callback has fired. *)
Record Browser : Type := mkBrowser {
  hasVideoEncoder : bool;
  bitmapSize : string -> option (Z * Z);
  isConfigSupported : string -> Z -> Z -> bool;
  encoderActivity : nat -> nat * option nat
}.

(** The mutable state of one call: the encoder's queue, the [encodeError]
    variable, the number of suspensions so far and the events so far
    (newest first). *)
Record Encoder : Type := mkEncoder {
  encodeQueueSize : nat;
  encodeError : option nat;
  suspensions : nat;
  log : list EncoderEvent
}.

Definition trace (s : Encoder) : list EncoderEvent := rev (log s).

Inductive Outcome (A : Type) : Type :=
| Returned (a : A)
| Thrown (e : ExportError)
| Waiting.
Arguments Returned {A} a.
Arguments Thrown {A} e.
Arguments Waiting {A}.

(** A computation of the encoder task: state passing with exceptions;
    [Waiting] is a back-pressure loop that has not been released yet. *)
Definition Run (A : Type) : Type := Encoder -> Outcome A * Encoder.

Definition ret {A} (a : A) : Run A := fun s => (Returned a, s).

Definition bind {A B} (m : Run A) (k : A -> Run B) : Run B :=
  fun s =>
    match m s with
    | (Returned a, s') => k a s'
    | (Thrown e, s') => (Thrown e, s')
    | (Waiting, s') => (Waiting, s')
    end.

Definition throw {A} (e : ExportError) : Run A := fun s => (Thrown e, s).

Declare Scope run_scope.
Delimit Scope run_scope with run.
Notation "x <- m ;; k" := (bind m (fun x => k))
  (at level 100, m at level 99, k at level 200, right associativity) : run_scope.
Notation "m ;; k" := (bind m (fun _ => k))
  (at level 100, k at level 200, right associativity) : run_scope.
Open Scope run_scope.

Definition emit (ev : EncoderEvent) : Run unit :=
  fun s =>
    (Returned tt,
     {| encodeQueueSize := encodeQueueSize s; encodeError := encodeError s;
        suspensions := suspensions s; log := ev :: log s |}).

(** An [await] before the encoder exists. *)
Definition suspendIdle : Run unit :=
  fun s =>
    (Returned tt,
     {| encodeQueueSize := encodeQueueSize s; encodeError := encodeError s;
        suspensions := S (suspensions s); log := log s |}).

(** An [await] while the encoder runs: the queue drains and the error
    callback may assign [encodeError]. *)
Definition suspend (b : Browser) : Run unit :=
  fun s =>
    let '(finished, failure) := encoderActivity b (suspensions s) in
    (Returned tt,
     {| encodeQueueSize := (encodeQueueSize s - finished)%nat;
        encodeError := match failure with
                       | Some e => Some e
                       | None => encodeError s
                       end;
        suspensions := S (suspensions s); log := log s |}).

(** [if (encodeError) throw encodeError] *)
Definition checkError : Run unit :=
  fun s =>
    match encodeError s with
    | Some e => (Thrown (EncoderFailure e), s)
    | None => (Returned tt, s)
    end.

(** [await createImageBitmap(dataUrlToBlob(frames[i]))] *)
Definition decodeFrame (b : Browser) (await : Run unit) (i : nat)
    (frame : option string) : Run (Z * Z) :=
  match frame with
  | None => throw (FrameUndecodable i)
  | Some url =>
      match bitmapSize b url with
      | None => await ;; throw (FrameUndecodable i)
      | Some size => await ;; ret size
      end
  end.

(** [encoder.encode(videoFrame, { keyFrame })] *)
Definition encodeFrame (i : nat) (timestamp frameDuration : Z)
    (keyFrame : bool) : Run unit :=
  fun s =>
    (Returned tt,
     {| encodeQueueSize := S (encodeQueueSize s); encodeError := encodeError s;
        suspensions := suspensions s;
        log := EvEncode i timestamp frameDuration keyFrame (encodeQueueSize s)
                 :: log s |}).

(** [while (encoder.encodeQueueSize > 3) await new Promise(r => setTimeout(r, 8))];
    [polls] bounds the number of iterations that are followed. *)
Fixpoint waitForDrain (b : Browser) (polls : nat) : Run unit :=
  fun s =>
    if (3 <? encodeQueueSize s)%nat then
      match polls with
      | O => (Waiting, s)
      | S polls' =>
          (emit (EvWait (encodeQueueSize s) 8) ;; suspend b ;;
           waitForDrain b polls') s
      end
    else (Returned tt, s).

(** One iteration of the submission loop. *)
Definition submitFrame (b : Browser) (polls : nat) (frameDuration : Q)
    (total i : nat) (url : string) : Run unit :=
  checkError ;;
  _ <- decodeFrame b (suspend b) i (Some url) ;;
  emit (EvDraw i) ;;
  waitForDrain b polls ;;
  checkError ;;
  encodeFrame i (Math_round (num i * frameDuration)) (Math_round frameDuration)
    (i mod 30 =? 0)%nat ;;
  emit (EvProgress ((num i + 1) / num total) EncodingMP4) ;;
  suspend b.

(** [for (let i = 0; i < frames.length; i++)], on the frames from [i] on. *)
Fixpoint submitFrames (b : Browser) (polls : nat) (frameDuration : Q)
    (total i : nat) (rest : list string) : Run unit :=
  match rest with
  | [] => ret tt
  | url :: rest' =>
      submitFrame b polls frameDuration total i url ;;
      submitFrames b polls frameDuration total (S i) rest'
  end.

(** [await encoder.flush()]: every queued frame is finished. *)
Definition flush (b : Browser) : Run unit :=
  emit EvFlush ;;
  fun s =>
    let '(_, failure) := encoderActivity b (suspensions s) in
    (Returned tt,
     {| encodeQueueSize := 0;
        encodeError := match failure with
                       | Some e => Some e
                       | None => encodeError s
                       end;
        suspensions := S (suspensions s); log := log s |}).

Record Mp4 : Set := mkMp4 {
  mp4Codec : string;
  mp4Width : Z;
  mp4Height : Z;
  mp4Frames : nat
}.

Definition encodeMP4 (b : Browser) (polls : nat) (frames : list string)
    (fps : Q) : Run Mp4 :=
  emit (EvProgress 0 PreparingEncoder) ;;
  if negb (hasVideoEncoder b) then throw WebCodecsUnavailable
  else
    suspendIdle ;;
    emit (EvProgress 0.01 PreparingEncoder) ;;
    size <- decodeFrame b suspendIdle 0 (frames !! 0%nat) ;;
    let rawW := fst size in
    let rawH := snd size in
    let encW := evenDimension rawW in
    let encH := evenDimension rawH in
    let codec := avcCodecForSize encW encH in
    suspendIdle ;;
    let supported := isConfigSupported b codec encW encH in
    emit (EvIsConfigSupported codec encW encH supported) ;;
    if negb supported then throw (ResolutionUnsupported encW encH)
    else
      emit (EvConfigure codec encW encH 8000000 fps) ;;
      let frameDuration := 1000000 / fps in
      submitFrames b polls frameDuration (length frames) 0 frames ;;
      flush b ;;
      checkError ;;
      emit EvClose ;;
      emit EvFinalize ;;
      emit (EvProgress 1 Done) ;;
      ret (mkMp4 codec encW encH (length frames)).

Definition freshEncoder : Encoder :=
  {| encodeQueueSize := 0; encodeError := None; suspensions := 0; log := [] |}.

(** ** Arrays as shared objects

    A JavaScript array is a reference into a store; [Array.prototype.sort]
    reorders the array it is called on and returns that same reference, and
    the spread [[...a]] allocates a new array.  [buildEffectPlan] assigns to
    no field of a photo, so an array is kept as the list of its photos. *)

Abbreviation Store := (gmap nat (list Photo.t)).

Definition spread (a : nat) (heap : Store) : option (nat * Store) :=
  l ← heap !! a;
  let a' := fresh (dom heap) in
  Some (a', <[a' := l]> heap).

Definition sortInPlace (cmp : Photo.t -> Photo.t -> Q) (a : nat) (heap : Store)
    : option (nat * Store) :=
  l ← heap !! a;
  Some (a, <[a := array_sort cmp l]> heap).

(** [buildEffectPlan] on a store: [photos] is the reference it is given. *)
Definition buildEffectPlanIn (heap : Store) (photos : nat)
    (effect : AnimationEffect) (containerWidth containerHeight : Q)
    : option (EffectPlan * Store) :=
  '(copy, heap1) ← spread photos heap;
  '(sorted, heap2) ← sortInPlace byZIndex copy heap1;
  l ← heap2 !! sorted;
  Some (planOfSorted l effect containerWidth containerHeight, heap2).

(** ** Sample data *)

Definition samplePhoto (i : string) (z : Q) : Photo.t :=
  {| Photo.id := i; Photo.url := "blob:photo"; Photo.x := 120; Photo.y := 80;
     Photo.rotation := 6; Photo.zIndex := z; Photo.scale := 1;
     Photo.width := None; Photo.height := None; Photo.timestamp := 0 |}.

Definition threePhotos : list Photo.t :=
  [samplePhoto "c" 3; samplePhoto "a" 1; samplePhoto "b" 2].

Definition sampleDialog : Dialog :=
  {| selectedEffect := sequential; speed := 2; fps := fps24;
     isPlaying := false; isExporting := false; canvasMounted := true;
     winW := 1280; winH := 720;
     planRef := buildEffectPlan threePhotos sequential 1280 720;
     photosRef := threePhotos; currentT := 0;
     photoRefs :=
       list_to_map
         (List.map (fun p => (Photo.id p, withId (Photo.id p) (toState p)))
                   threePhotos) |}.

(** A rasteriser that always succeeds and reports how many elements it drew. *)
Definition sampleCapture (d : Dom) (w h : Q) : option string :=
  Some (if (size d =? 3)%nat then "three photos" else "other")%string.

(** ** Vocabulary of the properties *)

(** The order a comparator induces: [a] may precede [b]. *)
Definition precedes {A : Type} (cmp : A -> A -> Q) (a b : A) : Prop :=
  cmp a b <= 0.

(** The spec that the branch of [effect] pushes for the photo at index [i]. *)
Definition specFor (effect : AnimationEffect) (containerWidth containerHeight : Q)
    : nat -> Photo.t -> PhotoEnterSpec :=
  match effect with
  | sequential => sequentialSpec
  | shuffle => shuffleSpec containerWidth containerHeight
  | flip => flipSpec
  | fade => fadeSpec
  end.

(** The interpolated state of [interpolateFrame] for the eased progress
    [eased]. *)
Definition blend (spec : PhotoEnterSpec) (eased : Q) : PhotoAnimState.t :=
  {| PhotoAnimState.id := photoId spec;
     PhotoAnimState.x := lerp (Visual.x (from_ spec)) (Visual.x (to_ spec)) eased;
     PhotoAnimState.y := lerp (Visual.y (from_ spec)) (Visual.y (to_ spec)) eased;
     PhotoAnimState.rotation :=
       lerp (Visual.rotation (from_ spec)) (Visual.rotation (to_ spec)) eased;
     PhotoAnimState.opacity :=
       lerp (Visual.opacity (from_ spec)) (Visual.opacity (to_ spec)) eased;
     PhotoAnimState.scale :=
       lerp (Visual.scale (from_ spec)) (Visual.scale (to_ spec)) eased;
     PhotoAnimState.rotateY :=
       lerp (Visual.rotateY (from_ spec)) (Visual.rotateY (to_ spec)) eased |}.

(** A photo with the identity [i] is in [photos]. *)
Definition present (photos : list Photo.t) (i : string) : Prop :=
  exists photo, In photo photos /\ Photo.id photo = i.

(** What ECMAScript asks of [sort] for a consistent comparator: the result
    is a rearrangement of the array that is ordered by the comparator. *)
Definition sortsBy {A : Type} (cmp : A -> A -> Q) (srt : list A -> list A) : Prop :=
  forall l, srt l ≡ₚ l /\ Sorted (precedes cmp) (srt l).

(** No two photos of the list share a stacking order. *)
Definition distinctZIndex (photos : list Photo.t) : Prop :=
  forall (i j : nat) p q,
    photos !! i = Some p -> photos !! j = Some q -> i <> j ->
    ~ Photo.zIndex p == Photo.zIndex q.

#[global] Instance precedes_dec {A : Type} (cmp : A -> A -> Q) :
  RelDecision (precedes cmp).
Proof.
  intros a b. unfold precedes.
  destruct (Qlt_le_dec 0 (cmp a b)) as [H|H]; [right|left].
  - now apply Qlt_not_le.
  - exact H.
Defined.

(** Another sorting routine that an engine may use: merge sort. *)
Definition merge_sort_by (cmp : Photo.t -> Photo.t -> Q) (l : list Photo.t)
    : list Photo.t :=
  merge_sort (precedes cmp) l.

(** The style that the element [k] ends with, from [v], once [states] have
    been written in order. *)
Definition lastWrite (k : string) (v : PhotoAnimState.t)
    (states : list PhotoAnimState.t) : PhotoAnimState.t :=
  foldl (fun acc state => if decide (PhotoAnimState.id state = k) then state else acc)
        v states.

(** The sampling instant and the interpolated states of frame [i]. *)
Definition sampleTime (st : Dialog) (i : nat) : Q := num i / fpsValue (fps st).

Definition sampleStates (st : Dialog) (i : nat) : list PhotoAnimState.t :=
  interpolateFrame (planRef st) (photosRef st) (sampleTime st i) (selectedEffect st).

(** The frame that sample [i] yields on the elements [d0]. *)
Definition shot (captureFrame : Dom -> Q -> Q -> option string) (st : Dialog)
    (d0 : Dom) (i : nat) : option string :=
  captureFrame (applyStatesToDOM (sampleStates st i) d0) (winW st) (winH st).

(** An encode event that was submitted with at most three frames pending. *)
Definition withinThreshold (ev : EncoderEvent) : Prop :=
  match ev with
  | EvEncode _ _ _ _ queueSize => (queueSize <= 3)%nat
  | _ => True
  end.

Definition isEncode (ev : EncoderEvent) : Prop :=
  match ev with
  | EvEncode _ _ _ _ _ => True
  | _ => False
  end.

(** From [s] to [s'] the log has only grown, by events that satisfy [E]. *)
Definition grows (E : EncoderEvent -> Prop) (s s' : Encoder) : Prop :=
  exists new, log s' = new ++ log s /\ Forall E new.

(** From a state that satisfies [P], the computation [m] only adds events
    that satisfy [E], however it ends, and when it returns [a] the state
    satisfies [Q a]. *)
Definition triple {A : Type} (P : Encoder -> Prop) (m : Run A)
    (Q : A -> Encoder -> Prop) (E : EncoderEvent -> Prop) : Prop :=
  forall s, P s ->
    grows E s (snd (m s))
    /\ forall a, fst (m s) = Returned a -> Q a (snd (m s)).

(** A browser whose encoder finishes one frame per suspension, and one whose
    encoder is stalled. *)
Definition steadyBrowser : Browser :=
  {| hasVideoEncoder := true;
     bitmapSize := fun _ => Some (1281, 721)%Z;
     isConfigSupported := fun _ _ _ => true;
     encoderActivity := fun _ => (1%nat, None) |}.

Definition stalledBrowser : Browser :=
  {| hasVideoEncoder := true;
     bitmapSize := fun _ => Some (1281, 721)%Z;
     isConfigSupported := fun _ _ _ => true;
     encoderActivity := fun _ => (0%nat, None) |}.

(** A browser that decodes 8K frames and whose encoder rejects them. *)
Definition hugeBrowser : Browser :=
  {| hasVideoEncoder := true;
     bitmapSize := fun _ => Some (7681, 4321)%Z;
     isConfigSupported := fun _ _ _ => false;
     encoderActivity := fun _ => (1%nat, None) |}.

Definition congested (pending : nat) : Encoder :=
  {| encodeQueueSize := pending; encodeError := None; suspensions := 0; log := [] |}.

(** ** The stacking handlers of the application ([App.tsx]) *)

(** [{ ...p, zIndex: z }] *)
Definition withZIndex (z : Q) (p : Photo.t) : Photo.t :=
  {| Photo.id := Photo.id p; Photo.url := Photo.url p;
     Photo.x := Photo.x p; Photo.y := Photo.y p;
     Photo.rotation := Photo.rotation p; Photo.zIndex := z;
     Photo.scale := Photo.scale p; Photo.width := Photo.width p;
     Photo.height := Photo.height p; Photo.timestamp := Photo.timestamp p |}.

(** [{ ...p, x, y }] *)
Definition withPosition (x y : Q) (p : Photo.t) : Photo.t :=
  {| Photo.id := Photo.id p; Photo.url := Photo.url p;
     Photo.x := x; Photo.y := y;
     Photo.rotation := Photo.rotation p; Photo.zIndex := Photo.zIndex p;
     Photo.scale := Photo.scale p; Photo.width := Photo.width p;
     Photo.height := Photo.height p; Photo.timestamp := Photo.timestamp p |}.

(** [{ ...p, scale: newScale }] *)
Definition withScale (newScale : Q) (p : Photo.t) : Photo.t :=
  {| Photo.id := Photo.id p; Photo.url := Photo.url p;
     Photo.x := Photo.x p; Photo.y := Photo.y p;
     Photo.rotation := Photo.rotation p; Photo.zIndex := Photo.zIndex p;
     Photo.scale := newScale; Photo.width := Photo.width p;
     Photo.height := Photo.height p; Photo.timestamp := Photo.timestamp p |}.

(** [sorted.map((p, i) => ({ ...p, zIndex: i + 1 }))] *)
Definition renumber (sorted : list Photo.t) : list Photo.t :=
  imap (fun i p => withZIndex (num i + 1) p) sorted.

(** [sorted.findIndex((p) => p.id === id)], with the element found; [None]
    stands for the index [-1]. *)
Definition findIndexById (id : string) (sorted : list Photo.t)
    : option (nat * Photo.t) :=
  list_find (fun p => Photo.id p = id) sorted.

Definition handleBringToFront (id : string) (prev : list Photo.t) : list Photo.t :=
  let sorted := array_sort byZIndex prev in
  match findIndexById id sorted with
  | None => prev
  | Some (index, item) => renumber (delete index sorted ++ [item])
  end.

Definition handleSendToBack (id : string) (prev : list Photo.t) : list Photo.t :=
  let sorted := array_sort byZIndex prev in
  match findIndexById id sorted with
  | None => prev
  | Some (index, item) => renumber (item :: delete index sorted)
  end.

(** [direction: "up" | "down"] *)
Inductive Direction : Set := up | down.

(** [[a[i], a[j]] = [a[j], a[i]]]; the handlers only exchange positions of
    the array. *)
Definition swapAt (i j : nat) (a : list Photo.t) : list Photo.t :=
  match a !! i, a !! j with
  | Some ai, Some aj => <[j := ai]> (<[i := aj]> a)
  | _, _ => a
  end.

Definition handleMoveLayer (id : string) (direction : Direction)
    (prev : list Photo.t) : list Photo.t :=
  let sorted := array_sort byZIndex prev in
  match findIndexById id sorted with
  | None => prev
  | Some (index, _) =>
      match direction with
      | up =>
          if (index =? length sorted - 1)%nat then prev
          else renumber (swapAt index (index + 1) sorted)
      | down =>
          if (index =? 0)%nat then prev
          else renumber (swapAt index (index - 1) sorted)
      end
  end.

Definition handleRemovePhoto (id : string) (prev : list Photo.t) : list Photo.t :=
  filter (fun p => Photo.id p <> id) prev.

Definition handleUpdatePosition (id : string) (x y : Q) (prev : list Photo.t)
    : list Photo.t :=
  List.map (fun p => if decide (Photo.id p = id) then withPosition x y p else p) prev.

Definition handleGlobalScale (newScale : Q) (prev : list Photo.t) : list Photo.t :=
  List.map (withScale newScale) prev.

Definition handleLayerReorder (reorderedPhotos : list Photo.t) : list Photo.t :=
  let maxZ := num (length reorderedPhotos) in
  imap (fun index photo => withZIndex (maxZ - num index) photo) reorderedPhotos.

(** The comparator [(a, b) => b.zIndex - a.zIndex] of the sidebar. *)
Definition byZIndexDesc (a b : Photo.t) : Q := Photo.zIndex b - Photo.zIndex a.

Definition sortedPhotos (photos : list Photo.t) : list Photo.t :=
  array_sort byZIndexDesc photos.

(** [prev.length > 0 ? Math.max(...prev.map((p) => p.zIndex)) : 0] *)
Definition currentMaxZ (prev : list Photo.t) : Q :=
  match List.map Photo.zIndex prev with
  | [] => 0
  | z :: zs => foldl Math_max z zs
  end.

(** The state update of [handleFileUpload]: the uploaded photos, whose
    [zIndex] is not set yet, are stacked above the present ones. *)
Definition addUploaded (newPhotoData : list Photo.t) (prev : list Photo.t)
    : list Photo.t :=
  prev ++ imap (fun index data => withZIndex (currentMaxZ prev + num index + 1) data)
               newPhotoData.

(** The identities of a stack, back to front. *)
Definition stackOrder (photos : list Photo.t) : list string :=
  List.map Photo.id (array_sort byZIndex photos).

(** The stack is numbered 1, 2, ... in array order. *)
Definition numbered (photos : list Photo.t) : Prop :=
  forall (i : nat) p, photos !! i = Some p -> Photo.zIndex p = num i + 1.

(** [index] is the first position of [id] in [order]. *)
Definition firstAt (order : list string) (id : string) (index : nat) : Prop :=
  order !! index = Some id /\ forall j, (j < index)%nat -> order !! j <> Some id.

(** The position that [k] is read from when positions [i] and [j] have been
    exchanged. *)
Definition exchange (i j k : nat) : nat :=
  if decide (k = i) then j else if decide (k = j) then i else k.

(** The timing constants of the four branches of [buildEffectPlan]: the
    delay of the first photo, the stagger between photos and the duration
    of one entrance. *)
Definition firstDelay (effect : AnimationEffect) : Q :=
  match effect with
  | shuffle => 0.5
  | _ => 0
  end.

Definition staggerOf (effect : AnimationEffect) : Q :=
  match effect with
  | sequential => 0.35
  | shuffle => 0.12
  | flip => 0.3
  | fade => 0.28
  end.

Definition enterDurationOf (effect : AnimationEffect) : Q :=
  match effect with
  | sequential => 0.8
  | shuffle => 0.7
  | flip => 0.6
  | fade => 0.7
  end.

(** ** Vocabulary of the encoder runs *)

(** The presentation timestamp of frame [i], in microseconds:
    [Math.round(i * frameDuration)] with [frameDuration = 1_000_000 / fps]. *)
Definition frameTimestamp (fps : Q) (i : nat) : Z :=
  Math_round (num i * (1000000 / fps)).

(** A trace without its back-pressure polls and without the queue sizes that
    the encode events record. *)
Definition plainEvent (ev : EncoderEvent) : list EncoderEvent :=
  match ev with
  | EvWait _ _ => []
  | EvEncode i timestamp frameDuration keyFrame _ =>
      [EvEncode i timestamp frameDuration keyFrame 0]
  | _ => [ev]
  end.

Definition skeleton (events : list EncoderEvent) : list EncoderEvent :=
  flat_map plainEvent events.

(** What the submission of frame [i] of [total] leaves in the skeleton. *)
Definition frameEvents (fps : Q) (total i : nat) : list EncoderEvent :=
  [EvDraw i;
   EvEncode i (frameTimestamp fps i) (Math_round (1000000 / fps))
     (i mod 30 =? 0)%nat 0;
   EvProgress ((num i + 1) / num total) EncodingMP4].

(** The progress reports of a trace, in order. *)
Definition progressReports (events : list EncoderEvent) : list Q :=
  flat_map (fun ev => match ev with EvProgress p _ => [p] | _ => [] end) events.

(** No encoder error was reported at any suspension from [from] up to
    [upto], the latter excluded. *)
Definition quiet (b : Browser) (from upto : nat) : Prop :=
  forall k, (from <= k < upto)%nat -> snd (encoderActivity b k) = None.

(** The events that only a successful call logs. *)
Definition closing (ev : EncoderEvent) : Prop :=
  ev = EvClose \/ ev = EvFinalize \/ ev = EvProgress 1 Done.

(** A browser whose encoder reports an error while the first frame is in
    flight. *)
Definition faultyBrowser : Browser :=
  {| hasVideoEncoder := true;
     bitmapSize := fun _ => Some (1281, 721)%Z;
     isConfigSupported := fun _ _ _ => true;
     encoderActivity := fun k => (1%nat, if (k =? 4)%nat then Some 5%nat else None) |}.

(** The invariant of a run whose log started as [L] (newest first): the
    skeleton of the log is [new ++ L], and every error that the encoder has
    reported since the third suspension is held in [encodeError]. *)
Definition logged (b : Browser) (L new : list EncoderEvent) (s : Encoder) : Prop :=
  skeleton (log s) = new ++ L
  /\ forall k, (3 <= k < suspensions s)%nat ->
       snd (encoderActivity b k) <> None -> encodeError s <> None.

(** ** Vocabulary of the dialog *)

(** The state [{ id: s.photoId, ...s.to }] that [showFinalState] writes for
    a photo of the plan of the photo's own list. *)
Definition restingState (photo : Photo.t) : PhotoAnimState.t :=
  withId (Photo.id photo) (toState photo).

(** The sample dialog with the shuffle effect selected. *)
Definition shuffleDialog : Dialog :=
  {| selectedEffect := shuffle; speed := 1; fps := fps24;
     isPlaying := false; isExporting := false; canvasMounted := true;
     winW := 1280; winH := 720;
     planRef := buildEffectPlan threePhotos shuffle 1280 720;
     photosRef := threePhotos; currentT := 0;
     photoRefs := photoRefs sampleDialog |}.

(** ** Playback in the animation dialog ([startPlayback], [tick],
    [handlePlayPause], [handleReplay])

    [performance.now()], in milliseconds, is an argument of the functions
    that read it.  [speedRef], [planRef], [photosRef] and
    [selectedEffectRef] are the fields [speed], [planRef], [photosRef] and
    [selectedEffect] of the dialog.  The frame callbacks that the dialog has
    requested and that are neither run nor cancelled are kept with their
    handles, oldest first. *)

Definition setIsPlaying (v : bool) (st : Dialog) : Dialog :=
  {| selectedEffect := selectedEffect st; speed := speed st; fps := fps st;
     isPlaying := v; isExporting := isExporting st;
     canvasMounted := canvasMounted st; winW := winW st; winH := winH st;
     planRef := planRef st; photosRef := photosRef st;
     currentT := currentT st; photoRefs := photoRefs st |}.

Definition setCurrentT (t : Q) (st : Dialog) : Dialog :=
  {| selectedEffect := selectedEffect st; speed := speed st; fps := fps st;
     isPlaying := isPlaying st; isExporting := isExporting st;
     canvasMounted := canvasMounted st; winW := winW st; winH := winH st;
     planRef := planRef st; photosRef := photosRef st;
     currentT := t; photoRefs := photoRefs st |}.

Definition setPhotoRefs (d : Dom) (st : Dialog) : Dialog :=
  {| selectedEffect := selectedEffect st; speed := speed st; fps := fps st;
     isPlaying := isPlaying st; isExporting := isExporting st;
     canvasMounted := canvasMounted st; winW := winW st; winH := winH st;
     planRef := planRef st; photosRef := photosRef st;
     currentT := currentT st; photoRefs := d |}.

(** The callbacks that the dialog passes to [requestAnimationFrame]:
    [tick], [() => requestAnimationFrame(() => startPlayback(0))] and
    [() => startPlayback(0)]. *)
Inductive FrameCallback : Set := tickCallback | startSoon | startNow.

Record Player : Type := mkPlayer {
  dialog : Dialog;
  startTimeRef : Q;
  isPlayingRef : bool;
  animFrameRef : option positive;
  nextHandle : positive;
  requested : list (positive * FrameCallback)
}.

Definition withDialog (st : Dialog) (p : Player) : Player :=
  {| dialog := st; startTimeRef := startTimeRef p;
     isPlayingRef := isPlayingRef p; animFrameRef := animFrameRef p;
     nextHandle := nextHandle p; requested := requested p |}.

Definition withIsPlayingRef (v : bool) (p : Player) : Player :=
  {| dialog := dialog p; startTimeRef := startTimeRef p;
     isPlayingRef := v; animFrameRef := animFrameRef p;
     nextHandle := nextHandle p; requested := requested p |}.

Definition withAnimFrameRef (handle : option positive) (p : Player) : Player :=
  {| dialog := dialog p; startTimeRef := startTimeRef p;
     isPlayingRef := isPlayingRef p; animFrameRef := handle;
     nextHandle := nextHandle p; requested := requested p |}.

Definition withStartTimeRef (t : Q) (p : Player) : Player :=
  {| dialog := dialog p; startTimeRef := t;
     isPlayingRef := isPlayingRef p; animFrameRef := animFrameRef p;
     nextHandle := nextHandle p; requested := requested p |}.

(** [requestAnimationFrame(cb)] returns a fresh handle. *)
Definition requestAnimationFrame (cb : FrameCallback) (p : Player)
    : positive * Player :=
  (nextHandle p,
   {| dialog := dialog p; startTimeRef := startTimeRef p;
      isPlayingRef := isPlayingRef p; animFrameRef := animFrameRef p;
      nextHandle := Pos.succ (nextHandle p);
      requested := requested p ++ [(nextHandle p, cb)] |}).

Definition cancelAnimationFrame (handle : positive) (p : Player) : Player :=
  {| dialog := dialog p; startTimeRef := startTimeRef p;
     isPlayingRef := isPlayingRef p; animFrameRef := animFrameRef p;
     nextHandle := nextHandle p;
     requested := List.filter (fun r => negb (Pos.eqb (fst r) handle)) (requested p) |}.

Definition stopAnimation (p : Player) : Player :=
  let p1 :=
    match animFrameRef p with
    | Some handle => withAnimFrameRef None (cancelAnimationFrame handle p)
    | None => p
    end in
  withIsPlayingRef false p1.

Definition startPlayback (now fromT : Q) (p : Player) : Player :=
  let p1 := stopAnimation p in
  let spd := speed (dialog p1) in
  let adjustedStart := now - (fromT / spd) * 1000 in
  let p2 := withStartTimeRef adjustedStart p1 in
  let p3 := withIsPlayingRef true p2 in
  let p4 := withDialog (setIsPlaying true (dialog p3)) p3 in
  let '(handle, p5) := requestAnimationFrame tickCallback p4 in
  withAnimFrameRef (Some handle) p5.

Definition tick (now : Q) (p : Player) : Player :=
  if negb (isPlayingRef p) then p
  else
    let st := dialog p in
    let currentSpeed := speed st in
    let elapsed := ((now - startTimeRef p) / 1000) * currentSpeed in
    let currentPlan := planRef st in
    let t := Math_min elapsed (totalDuration currentPlan) in
    let states := interpolateFrame currentPlan (photosRef st) t (selectedEffect st) in
    let p1 :=
      withDialog
        (setPhotoRefs (applyStatesToDOM states (photoRefs st)) (setCurrentT t st)) p in
    if negb (Qle_bool (totalDuration currentPlan) elapsed) then
      let '(handle, p2) := requestAnimationFrame tickCallback p1 in
      withAnimFrameRef (Some handle) p2
    else
      withDialog (setIsPlaying false (dialog p1)) (withIsPlayingRef false p1).

(** [applyStatesToDOM(currentPlan.specs.map((s) => ({ id: s.photoId, ...s.from })))] *)
Definition showFromState (st : Dialog) (d : Dom) : Dom :=
  applyStatesToDOM
    (List.map (fun s => withId (photoId s) (from_ s)) (specs (planRef st))) d.

Definition handlePlayPause (now : Q) (p : Player) : Player :=
  if isPlayingRef p then
    let p1 := stopAnimation p in
    withDialog (setIsPlaying false (dialog p1)) p1
  else
    let st := dialog p in
    let currentPlan := planRef st in
    let t := if Qle_bool (totalDuration currentPlan - 0.05) (currentT st)
             then 0 else currentT st in
    if Qeq_bool t 0 then
      let p1 := withDialog (setPhotoRefs (showFromState st (photoRefs st)) st) p in
      snd (requestAnimationFrame startSoon p1)
    else startPlayback now t p.

Definition handleReplay (p : Player) : Player :=
  let p1 := stopAnimation p in
  let p2 := withDialog (setCurrentT 0 (dialog p1)) p1 in
  let p3 := withDialog (setIsPlaying false (dialog p2)) p2 in
  let st := dialog p3 in
  let p4 := withDialog (setPhotoRefs (showFromState st (photoRefs st)) st) p3 in
  snd (requestAnimationFrame startSoon p4).

Definition runCallback (now : Q) (cb : FrameCallback) (p : Player) : Player :=
  match cb with
  | tickCallback => tick now p
  | startSoon => snd (requestAnimationFrame startNow p)
  | startNow => startPlayback now 0 p
  end.

Definition callbackOf (handle : positive) (p : Player) : option FrameCallback :=
  snd <$> List.find (fun r => Pos.eqb (fst r) handle) (requested p).

(** One animation frame of the browser at the instant [now]: the callbacks
    requested before the frame run in the order of their requests, unless
    they were cancelled in the meantime; what they request runs in a later
    frame. *)
Definition animationFrame (now : Q) (p : Player) : Player :=
  foldl (fun acc r =>
           match callbackOf (fst r) acc with
           | Some cb => runCallback now cb (cancelAnimationFrame (fst r) acc)
           | None => acc
           end)
        p (requested p).

(** The dialog as it opens: nothing is playing and nothing is requested. *)
Definition openPlayer (st : Dialog) : Player :=
  {| dialog := st; startTimeRef := 0; isPlayingRef := false;
     animFrameRef := None; nextHandle := 1%positive; requested := [] |}.

(** No callback is requested other than the one whose handle
    [animFrameRef] holds. *)
Definition onlyOwnFrame (p : Player) : Prop :=
  forall r, In r (requested p) -> animFrameRef p = Some (fst r).

(** A playback of the sample dialog that is under way at 0.2 s, with its
    next tick requested. *)
Definition samplePlayer : Player :=
  {| dialog := setCurrentT 0.2 (setIsPlaying true sampleDialog);
     startTimeRef := 0; isPlayingRef := true;
     animFrameRef := Some 2%positive; nextHandle := 3%positive;
     requested := [(2%positive, tickCallback)] |}.

(** ** Persistence ([utils/storage.ts])

    The object store [photos] of the database holds one record per key, the
    key of a photo being its [id].  [dbOpens] tells whether [openDB]
    resolves; the requests of an open database succeed. *)

Abbreviation ObjectStore := (gmap string Photo.t).

(** [store.put(photo)] *)
Definition put (photo : Photo.t) (store : ObjectStore) : ObjectStore :=
  <[Photo.id photo := photo]> store.

(** The order of the keys. *)
Definition keyOrder (a b : Photo.t) : Prop :=
  String.leb (Photo.id a) (Photo.id b) = true.

#[global] Instance keyOrder_dec a b : Decision (keyOrder a b).
Proof. unfold keyOrder. apply _. Defined.

(** [store.getAll()]: the records in the order of their keys. *)
Definition getAll (store : ObjectStore) : list Photo.t :=
  merge_sort keyOrder (List.map snd (map_to_list store)).

Definition loadPhotos (dbOpens : bool) (store : ObjectStore) : list Photo.t :=
  if dbOpens then getAll store else [].

(** [store.clear()], then [store.put(photo)] for each photo in turn. *)
Definition savePhotos (dbOpens : bool) (photos : list Photo.t)
    (store : ObjectStore) : ObjectStore :=
  if dbOpens then foldl (fun acc photo => put photo acc) ∅ photos else store.

(** The photo at index [i] is the last of its identity in the array. *)
Definition lastOfItsId (photos : list Photo.t) (i : nat) (p : Photo.t) : Prop :=
  photos !! i = Some p
  /\ forall (j : nat) q, (i < j)%nat -> photos !! j = Some q -> Photo.id q <> Photo.id p.

(** ** Rotating a card ([handleRotatePointerDown])

    The rotation that [handlePointerMove] passes to [onRotate]; the pointer
    angles are the values of [getAngleFromCenter], in degrees. *)
Definition handlePointerMove (startRotation startPointerAngle currentPointerAngle : Q)
    (altKey : bool) : Q :=
  let delta := currentPointerAngle - startPointerAngle in
  let rawRotation := startRotation + delta in
  let snappedRotation := inject_Z (Math_round (rawRotation / 15)) * 15 in
  let nextRotation := if altKey then rawRotation else snappedRotation in
  nextRotation.

(** ** Reshuffling ([handleReshuffle])

    [Math.random()] is a stream of numbers; the photo at index [i] draws
    the numbers [3 i], [3 i + 1] and [3 i + 2] for its [x], [y] and
    [rotation]. *)
Definition withPlacement (x y rotation : Q) (p : Photo.t) : Photo.t :=
  {| Photo.id := Photo.id p; Photo.url := Photo.url p; Photo.x := x; Photo.y := y;
     Photo.rotation := rotation; Photo.zIndex := Photo.zIndex p;
     Photo.scale := Photo.scale p; Photo.width := Photo.width p;
     Photo.height := Photo.height p; Photo.timestamp := Photo.timestamp p |}.

Definition handleReshuffle (containerWidth containerHeight : Q)
    (Math_random : nat -> Q) (prev : list Photo.t) : list Photo.t :=
  let CARD_WIDTH := 220 in
  let CARD_HEIGHT := 280 in
  let PADDING := 60 in
  let availableWidth := Math_max (containerWidth - CARD_WIDTH - PADDING * 2) 100 in
  let availableHeight := Math_max (containerHeight - CARD_HEIGHT - PADDING * 2) 100 in
  imap (fun i p =>
          withPlacement (PADDING + Math_random (3 * i)%nat * availableWidth)
                        (PADDING + Math_random (3 * i + 1)%nat * availableHeight)
                        (Math_random (3 * i + 2)%nat * 40 - 20) p)
       prev.

(** * Properties *)

(** The scenario of the specification: three photos, sequential effect. *)
Example sequential_three_photos :
  let plan := buildEffectPlan threePhotos sequential 1280 720 in
  List.map photoId (specs plan) = ["a"; "b"; "c"]%string
  /\ totalDuration plan == 1.5
  /\ (exists s, specs plan !! 2%nat = Some s /\ delay s == 0.7 /\ duration s == 0.8).
Proof.
  cbv zeta. split; [reflexivity|]. split; [reflexivity|].
  eexists. split; [reflexivity|]. split; reflexivity.
Qed.

(** ** Numbers *)

Lemma Math_max_ge_l (a b : Q) : a <= Math_max a b.
Proof.
  unfold Math_max. destruct (Qle_bool a b) eqn:E.
  - now apply Qle_bool_iff.
  - apply Qle_refl.
Qed.

Lemma Math_max_ge_r (a b : Q) : b <= Math_max a b.
Proof.
  unfold Math_max. destruct (Qle_bool a b) eqn:E.
  - apply Qle_refl.
  - apply Qlt_le_weak, Qnot_le_lt. intros H.
    apply Qle_bool_iff in H. congruence.
Qed.

Lemma Math_min_lt (a b : Q) : a < b -> Math_min a b = a.
Proof.
  intros H. unfold Math_min. destruct (Qle_bool a b) eqn:E; [reflexivity|].
  exfalso. apply Qlt_le_weak, Qle_bool_iff in H. congruence.
Qed.

Lemma Qle_bool_false (a b : Q) : Qle_bool a b = false <-> b < a.
Proof.
  split.
  - intros E. apply Qnot_le_lt. intros H. apply Qle_bool_iff in H. congruence.
  - intros H. destruct (Qle_bool a b) eqn:E; [|reflexivity].
    apply Qle_bool_iff in E. exfalso. lra.
Qed.

Lemma num_nonneg (n : nat) : 0 <= num n.
Proof.
  unfold num. change 0 with (inject_Z 0). rewrite <- Zle_Qle. lia.
Qed.

Lemma num_S (n : nat) : num (S n) == num n + 1.
Proof.
  unfold num. rewrite Nat2Z.inj_succ, <- Z.add_1_r, inject_Z_plus. reflexivity.
Qed.

Lemma num_le (n m : nat) : (n <= m)%nat -> num n <= num m.
Proof. intros H. unfold num. rewrite <- Zle_Qle. lia. Qed.

Lemma num_lt (n m : nat) : (n < m)%nat -> num n + 1 <= num m.
Proof.
  intros H. rewrite <- num_S. apply num_le. lia.
Qed.

(** ** The sort *)

Section ArraySortFacts.
Context {A : Type} (cmp : A -> A -> Q).

Lemma sort_insert_perm (x : A) (l : list A) : sort_insert cmp x l ≡ₚ x :: l.
Proof.
  induction l as [|y l IH]; simpl; [reflexivity|].
  destruct (Qle_bool (cmp x y) 0); [reflexivity|].
  rewrite IH. apply perm_swap.
Qed.

Lemma array_sort_perm (l : list A) : array_sort cmp l ≡ₚ l.
Proof.
  induction l as [|x l IH]; simpl; [reflexivity|].
  rewrite sort_insert_perm. now rewrite IH.
Qed.

Lemma array_sort_length (l : list A) : length (array_sort cmp l) = length l.
Proof. apply Permutation_length, array_sort_perm. Qed.
End ArraySortFacts.

Lemma sort_insert_sorted (x : Photo.t) (l : list Photo.t) :
  Sorted (precedes byZIndex) l -> Sorted (precedes byZIndex) (sort_insert byZIndex x l).
Proof.
  induction l as [|y l IH]; simpl; intros Hs.
  - repeat constructor.
  - destruct (Qle_bool (byZIndex x y) 0) eqn:E.
    + constructor; [assumption|]. constructor. now apply Qle_bool_iff.
    + apply Sorted_inv in Hs as [Hs Hhd]. constructor; [now apply IH|].
      apply Qle_bool_false in E.
      destruct l as [|z l]; simpl.
      * constructor. unfold precedes, byZIndex in *. lra.
      * destruct (Qle_bool (byZIndex x z) 0).
        -- constructor. unfold precedes, byZIndex in *. lra.
        -- constructor. now apply HdRel_inv in Hhd.
Qed.

Lemma array_sort_sorted (l : list Photo.t) :
  Sorted (precedes byZIndex) (array_sort byZIndex l).
Proof.
  induction l as [|x l IH]; simpl; [constructor|].
  now apply sort_insert_sorted.
Qed.

(** ** The shape of a plan *)

Lemma planOfSorted_specs sorted effect w h :
  specs (planOfSorted sorted effect w h) = imap (specFor effect w h) sorted.
Proof. destruct effect; reflexivity. Qed.

Lemma planOfSorted_lookup sorted effect w h (i : nat) (spec : PhotoEnterSpec) :
  specs (planOfSorted sorted effect w h) !! i = Some spec ->
  exists photo, sorted !! i = Some photo /\ spec = specFor effect w h i photo.
Proof.
  rewrite planOfSorted_specs, list_lookup_imap.
  destruct (sorted !! i) as [photo|] eqn:E; simpl; intros H; [|discriminate].
  exists photo. split; [reflexivity|]. congruence.
Qed.

Lemma specFor_shape effect w h i photo :
  let spec := specFor effect w h i photo in
  photoId spec = Photo.id photo
  /\ to_ spec = toState photo
  /\ Visual.opacity (from_ spec) = 0
  /\ Visual.opacity (to_ spec) = 1
  /\ 0 <= delay spec
  /\ 0 < duration spec.
Proof.
  pose proof (num_nonneg i).
  destruct effect; cbn; repeat split; lra.
Qed.

Lemma planOfSorted_window sorted effect w h (i : nat) (spec : PhotoEnterSpec) :
  specs (planOfSorted sorted effect w h) !! i = Some spec ->
  delay spec + duration spec <= totalDuration (planOfSorted sorted effect w h).
Proof.
  intros H. apply planOfSorted_lookup in H as (photo & Hi & ->).
  apply lookup_lt_Some in Hi. pose proof (num_lt _ _ Hi) as Hn.
  destruct effect; cbn -[Nat.ltb].
  - destruct (Nat.ltb_spec 0 (length sorted)); [lra|lia].
  - eapply Qle_trans; [|apply Math_max_ge_l]. lra.
  - eapply Qle_trans; [|apply Math_max_ge_l]. lra.
  - eapply Qle_trans; [|apply Math_max_ge_l]. lra.
Qed.

(** ** The one-second floor of [totalDuration] *)

Lemma totalDuration_floor sorted effect w h :
  effect <> sequential \/ length sorted <> 1%nat ->
  1 <= totalDuration (planOfSorted sorted effect w h).
Proof.
  intros H. destruct effect; cbn -[Nat.ltb]; try apply Math_max_ge_r.
  destruct H as [H|H]; [congruence|].
  destruct (Nat.ltb_spec 0 (length sorted)) as [Hl|Hl]; [|lra].
  assert (2 <= length sorted)%nat as H2 by lia.
  apply num_le in H2. change (num 2) with 2 in H2. lra.
Qed.

Lemma buildEffectPlan_floor photos effect w h :
  effect <> sequential \/ length photos <> 1%nat ->
  1 <= totalDuration (buildEffectPlan photos effect w h).
Proof.
  intros H. apply totalDuration_floor. now rewrite array_sort_length.
Qed.

(** With a single photo the three branches that floor their result return
    the larger of the computed duration and one second. *)
Lemma single_photo_floored photo w h :
  totalDuration (buildEffectPlan [photo] shuffle w h) == Math_max 1.2 1
  /\ totalDuration (buildEffectPlan [photo] flip w h) == Math_max 0.6 1
  /\ totalDuration (buildEffectPlan [photo] fade w h) == Math_max 0.7 1.
Proof. repeat split. Qed.

(** C1, at the input where the code departs from it: with a single photo
    the sequential branch returns its computed duration, 0.8 seconds, which
    is below the one-second floor that the three other branches apply with
    [Math.max(last, 1)]. *)
Theorem sequential_single_photo_below_floor (photo : Photo.t) (w h : Q) :
  totalDuration (buildEffectPlan [photo] sequential w h) == 0.8
  /\ ~ 1 <= totalDuration (buildEffectPlan [photo] sequential w h)
  /\ ~ totalDuration (buildEffectPlan [photo] sequential w h) == Math_max 0.8 1.
Proof.
  repeat split; try reflexivity; intros H; vm_compute in H; congruence.
Qed.

(** ** Easing curves *)

Lemma Qpower_2 (q : Q) : q ^ 2 == q * q.
Proof. simpl. ring. Qed.

Lemma Qpower_3 (q : Q) : q ^ 3 == q * q * q.
Proof. simpl. ring. Qed.

Lemma Qpower_4 (q : Q) : q ^ 4 == q * q * q * q.
Proof. simpl. ring. Qed.

Lemma Qsquare_nonneg (q : Q) : 0 <= q * q.
Proof. rewrite <- Qpower_2. apply Qpower.Qsqr_nonneg. Qed.

Lemma Qmult_le_compat_nonneg (a b c d : Q) :
  0 <= a -> a <= b -> 0 <= c -> c <= d -> a * c <= b * d.
Proof.
  intros Ha Hab Hc Hcd.
  assert (0 <= (b - a) * c) by (apply Qmult_le_0_compat; lra).
  assert (0 <= b * (d - c)) by (apply Qmult_le_0_compat; lra).
  lra.
Qed.

Lemma easeOutQuart_range (t : Q) : 0 <= t <= 1 -> 0 <= easeOutQuart t <= 1.
Proof.
  intros [H0 H1]. unfold easeOutQuart. rewrite Qpower_4.
  set (u := 1 - t). assert (0 <= u <= 1) as [Hu0 Hu1] by (unfold u; lra).
  pose proof (Qmult_le_compat_nonneg u 1 u 1 Hu0 Hu1 Hu0 Hu1) as Hsq.
  pose proof (Qsquare_nonneg u) as Hsq0.
  pose proof (Qmult_le_compat_nonneg (u * u) 1 (u * u) 1
                Hsq0 ltac:(lra) Hsq0 ltac:(lra)).
  pose proof (Qsquare_nonneg (u * u)).
  lra.
Qed.

Lemma easeOutQuart_monotone (a b : Q) :
  0 <= a -> a <= b -> b <= 1 -> easeOutQuart a <= easeOutQuart b.
Proof.
  intros H0 Hab H1. unfold easeOutQuart. rewrite !Qpower_4.
  set (u := 1 - a). set (v := 1 - b).
  assert (0 <= v /\ v <= u) as [Hv Hvu] by (unfold u, v; lra).
  pose proof (Qmult_le_compat_nonneg v u v u Hv Hvu Hv Hvu) as Hsq.
  pose proof (Qsquare_nonneg v) as Hv2.
  pose proof (Qmult_le_compat_nonneg _ _ _ _ Hv2 Hsq Hv2 Hsq).
  lra.
Qed.

Lemma easeOutQuart_0 : easeOutQuart 0 == 0.
Proof. reflexivity. Qed.

Lemma easeOutQuart_1 : easeOutQuart 1 == 1.
Proof. reflexivity. Qed.

(** The back-out curve stays below 1.11: with [u = t - 1],
    [0.100151 - c1 u^2 - c3 u^3 + 0.000349 u = (u + 0.42)^2 (0.567747 - c3 u)]
    up to the seventh decimal. *)
Lemma easeOutBack_upper (t : Q) : 0 <= t <= 1 -> easeOutBack t <= 1.11.
Proof.
  intros [H0 H1]. unfold easeOutBack. cbv zeta. rewrite Qpower_3, Qpower_2.
  set (u := t - 1). assert (-1 <= u <= 0) as [Hu0 Hu1] by (unfold u; lra).
  pose proof (Qsquare_nonneg (u + 0.42)).
  assert (0 <= 0.567747 - 2.70158 * u) by lra.
  assert (0 <= ((u + 0.42) * (u + 0.42)) * (0.567747 - 2.70158 * u))
    by (apply Qmult_le_0_compat; assumption).
  lra.
Qed.

Lemma easeOutBack_lower (t : Q) : 0 <= t <= 1 -> 0 <= easeOutBack t.
Proof.
  intros [H0 H1]. unfold easeOutBack. cbv zeta. rewrite Qpower_3, Qpower_2.
  set (u := t - 1). assert (-1 <= u <= 0) as [Hu0 Hu1] by (unfold u; lra).
  pose proof (Qsquare_nonneg u).
  assert (0 <= (u * u) * (2.70158 * u + 2.70158))
    by (apply Qmult_le_0_compat; lra).
  assert (0 <= 1 - u * u).
  { assert (0 <= (1 + u) * (1 - u)) by (apply Qmult_le_0_compat; lra). lra. }
  lra.
Qed.

(** ** One spec at one instant *)

Lemma local_le_0 (a d : Q) : 0 < d -> (a / d <= 0 <-> a <= 0).
Proof.
  intros Hd. split; intros H.
  - apply Qnot_lt_le. intros Ha.
    assert (0 < a / d) by (apply Qlt_shift_div_l; lra). lra.
  - apply Qle_shift_div_r; lra.
Qed.

Lemma local_ge_1 (a d : Q) : 0 < d -> (1 <= a / d <-> d <= a).
Proof.
  intros Hd. split; intros H.
  - apply Qnot_lt_le. intros Ha.
    assert (a / d < 1) by (apply Qlt_shift_div_r; lra). lra.
  - apply Qle_shift_div_l; lra.
Qed.

Lemma findPhoto_present photos i : present photos i -> is_Some (findPhoto photos i).
Proof.
  intros (photo & Hin & Hid). unfold findPhoto.
  destruct (List.find _ photos) eqn:E; [eauto|].
  eapply List.find_none in E; [|exact Hin]. simpl in E.
  rewrite Hid, String.eqb_refl in E. discriminate.
Qed.

Lemma findPhoto_absent photos i :
  (forall photo, In photo photos -> Photo.id photo <> i) -> findPhoto photos i = None.
Proof.
  intros H. unfold findPhoto.
  destruct (List.find _ photos) as [photo|] eqn:E; [|reflexivity].
  apply List.find_some in E as [Hin Hid]. apply String.eqb_eq in Hid.
  now apply H in Hin.
Qed.

Lemma interpolateSpec_absent photos t effect spec :
  findPhoto photos (photoId spec) = None ->
  interpolateSpec photos t effect spec = withId (photoId spec) (to_ spec).
Proof. intros H. unfold interpolateSpec. now rewrite H. Qed.

Lemma interpolateSpec_before photos t effect spec :
  0 < duration spec -> present photos (photoId spec) -> t <= delay spec ->
  interpolateSpec photos t effect spec = withId (photoId spec) (from_ spec).
Proof.
  intros Hd Hp Ht. apply findPhoto_present in Hp as [photo Hp].
  unfold interpolateSpec. rewrite Hp.
  assert (Qle_bool ((t - delay spec) / duration spec) 0 = true) as ->.
  { apply Qle_bool_iff, local_le_0; lra. }
  reflexivity.
Qed.

Lemma interpolateSpec_after photos t effect spec :
  0 < duration spec -> present photos (photoId spec) ->
  delay spec + duration spec <= t ->
  interpolateSpec photos t effect spec = withId (photoId spec) (to_ spec).
Proof.
  intros Hd Hp Ht. apply findPhoto_present in Hp as [photo Hp].
  unfold interpolateSpec. rewrite Hp.
  assert (Qle_bool ((t - delay spec) / duration spec) 0 = false) as ->.
  { apply Qle_bool_false. apply Qlt_shift_div_l; lra. }
  assert (Qle_bool 1 ((t - delay spec) / duration spec) = true) as ->.
  { apply Qle_bool_iff, local_ge_1; lra. }
  reflexivity.
Qed.

Lemma interpolateSpec_within photos t effect spec :
  0 < duration spec -> present photos (photoId spec) ->
  delay spec < t -> t < delay spec + duration spec ->
  interpolateSpec photos t effect spec
  = blend spec (easeFn effect ((t - delay spec) / duration spec)).
Proof.
  intros Hd Hp Ht1 Ht2. apply findPhoto_present in Hp as [photo Hp].
  unfold interpolateSpec. rewrite Hp.
  assert (Qle_bool ((t - delay spec) / duration spec) 0 = false) as ->.
  { apply Qle_bool_false. apply Qlt_shift_div_l; lra. }
  assert ((t - delay spec) / duration spec < 1) as Hlt
    by (apply Qlt_shift_div_r; lra).
  assert (Qle_bool 1 ((t - delay spec) / duration spec) = false) as ->.
  { now apply Qle_bool_false. }
  rewrite (Math_min_lt _ _ Hlt). reflexivity.
Qed.

Lemma map_lookup {A B : Type} (f : A -> B) (l : list A) (i : nat) :
  List.map f l !! i = f <$> l !! i.
Proof. exact (list_lookup_fmap f l i). Qed.

Lemma interpolateFrame_lookup plan photos t effect (k : nat) :
  interpolateFrame plan photos t effect !! k
  = interpolateSpec photos t effect <$> specs plan !! k.
Proof. apply map_lookup. Qed.

Lemma planOfSorted_member sorted effect w h (spec : PhotoEnterSpec) :
  In spec (specs (planOfSorted sorted effect w h)) ->
  exists (i : nat) photo, sorted !! i = Some photo /\ spec = specFor effect w h i photo.
Proof.
  intros H. apply list_elem_of_In, list_elem_of_lookup in H as [i Hi].
  exists i. now apply planOfSorted_lookup.
Qed.

(** ** Opacity *)

Lemma interpolateSpec_opacity photos t effect spec :
  Visual.opacity (from_ spec) = 0 -> Visual.opacity (to_ spec) = 1 ->
  0 <= PhotoAnimState.opacity (interpolateSpec photos t effect spec) <= 1.11
  /\ (effect <> sequential ->
      PhotoAnimState.opacity (interpolateSpec photos t effect spec) <= 1).
Proof.
  intros Hfrom Hto. unfold interpolateSpec.
  destruct (findPhoto photos (photoId spec)); simpl; rewrite ?Hto; [|lra].
  destruct (Qle_bool _ 0) eqn:E0; simpl; rewrite ?Hfrom; [lra|].
  destruct (Qle_bool 1 _) eqn:E1; simpl; rewrite ?Hfrom, ?Hto; [lra|].
  apply Qle_bool_false in E0, E1. rewrite (Math_min_lt _ _ E1).
  set (localT := (t - delay spec) / duration spec) in *.
  unfold lerp. destruct effect; simpl.
  - pose proof (easeOutBack_upper localT ltac:(lra)).
    pose proof (easeOutBack_lower localT ltac:(lra)).
    split; [lra|congruence].
  - pose proof (easeOutQuart_range localT ltac:(lra)). split; intros; lra.
  - pose proof (easeOutQuart_range localT ltac:(lra)). split; intros; lra.
  - pose proof (easeOutQuart_range localT ltac:(lra)). split; intros; lra.
Qed.

(** One photo, sequential effect, [t = 0.4]: the local progress is 0.5,
    [easeOutBack 0.5 = 1 - 2.70158 / 8 + 1.70158 / 4], and the opacity is
    that value. *)
Example sequential_overshoot :
  List.map PhotoAnimState.opacity
    (interpolateFrame (buildEffectPlan [samplePhoto "a" 1] sequential 1280 720)
       [samplePhoto "a" 1] 0.4 sequential)
  = [0 + (1 - 0) * easeOutBack (Math_min ((0.4 - num 0 * 0.35) / 0.8) 1)]
  /\ easeOutBack (Math_min ((0.4 - num 0 * 0.35) / 0.8) 1) == 1.0876975.
Proof. split; reflexivity. Qed.

(** C2 as stated fails: half-way through the entrance of the sequential
    effect the back-out easing has overshot and the interpolated opacity is
    above 1. *)
Lemma opacity_above_one_in_sequential :
  ~ (forall photos planEffect w h current t effect state,
        In state (interpolateFrame (buildEffectPlan photos planEffect w h)
                    current t effect) ->
        0 <= PhotoAnimState.opacity state <= 1).
Proof.
  intros H.
  specialize (H [samplePhoto "a" 1] sequential 1280 720 [samplePhoto "a" 1]
                0.4 sequential _ (or_introl eq_refl)).
  destruct H as [_ H]. vm_compute in H. now apply H.
Qed.

(** C2, amended: every state that [interpolateFrame] returns for a plan of
    [buildEffectPlan] has an opacity between 0 and 1.11, and between 0 and 1
    when the effect passed to [interpolateFrame] is not sequential. *)
Theorem interpolateFrame_opacity_range photos planEffect w h current t effect state :
  In state (interpolateFrame (buildEffectPlan photos planEffect w h)
              current t effect) ->
  0 <= PhotoAnimState.opacity state <= 1.11
  /\ (effect <> sequential -> PhotoAnimState.opacity state <= 1).
Proof.
  intros H. unfold interpolateFrame in H.
  apply in_map_iff in H as (spec & <- & Hspec).
  apply planOfSorted_member in Hspec as (i & photo & _ & ->).
  pose proof (specFor_shape planEffect w h i photo) as (_ & _ & Hfrom & Hto & _).
  now apply interpolateSpec_opacity.
Qed.

Lemma interpolateFrame_opacity_range_witness :
  let state := interpolateSpec threePhotos 0.9 fade (fadeSpec 1 (samplePhoto "b" 2)) in
  In state (interpolateFrame (buildEffectPlan threePhotos fade 1280 720)
              threePhotos 0.9 fade)
  /\ 0 <= PhotoAnimState.opacity state <= 1.11
  /\ (fade <> sequential -> PhotoAnimState.opacity state <= 1).
Proof.
  cbv zeta. split; [right; left; reflexivity|].
  apply (interpolateFrame_opacity_range threePhotos fade 1280 720 threePhotos
           0.9 fade).
  right. left. reflexivity.
Defined.

(** ** Clamping outside the window of a spec *)

Lemma buildEffectPlan_lookup photos effect w h (k : nat) spec :
  specs (buildEffectPlan photos effect w h) !! k = Some spec ->
  0 <= delay spec /\ 0 < duration spec
  /\ delay spec + duration spec <= totalDuration (buildEffectPlan photos effect w h)
  /\ Visual.opacity (from_ spec) = 0 /\ Visual.opacity (to_ spec) = 1.
Proof.
  intros H. pose proof (planOfSorted_window _ _ _ _ _ _ H) as Hw.
  apply planOfSorted_lookup in H as (photo & _ & ->).
  pose proof (specFor_shape effect w h k photo) as (_ & _ & Hfrom & Hto & Hd & Hdur).
  repeat split; assumption.
Qed.



(** C7: a spec whose photo is no longer in the photo list yields its [to]
    state, under the identity of the spec, at every time and for every
    effect. *)
Theorem interpolateFrame_missing_photo plan photos t effect (k : nat) spec :
  specs plan !! k = Some spec ->
  (forall photo, In photo photos -> Photo.id photo <> photoId spec) ->
  interpolateFrame plan photos t effect !! k
  = Some (withId (photoId spec) (to_ spec)).
Proof.
  intros Hk Habsent. rewrite interpolateFrame_lookup, Hk. simpl.
  f_equal. now apply interpolateSpec_absent, findPhoto_absent.
Qed.

Lemma interpolateFrame_missing_photo_witness :
  let plan := buildEffectPlan threePhotos sequential 1280 720 in
  let spec := sequentialSpec 0 (samplePhoto "a" 1) in
  let remaining := [samplePhoto "b" 2; samplePhoto "c" 3] in
  (specs plan !! 0%nat = Some spec
   /\ forall photo, In photo remaining -> Photo.id photo <> photoId spec)
  /\ interpolateFrame plan remaining 0.2 sequential !! 0%nat
     = Some (withId "a" (toState (samplePhoto "a" 1))).
Proof.
  cbv zeta.
  assert (forall photo,
             In photo [samplePhoto "b" 2; samplePhoto "c" 3] ->
             Photo.id photo <> "a"%string) as Habsent.
  { intros photo [<-|[<-|[]]]; discriminate. }
  split; [split; [reflexivity|exact Habsent]|].
  exact (interpolateFrame_missing_photo
           (buildEffectPlan threePhotos sequential 1280 720)
           [samplePhoto "b" 2; samplePhoto "c" 3] 0.2 sequential 0%nat
           (sequentialSpec 0 (samplePhoto "a" 1)) eq_refl Habsent).
Defined.

(** ** Easing is paired to the effect *)

#[global] Instance easeOutQuart_proper : Proper (Qeq ==> Qeq) easeOutQuart.
Proof. intros a b H. unfold easeOutQuart. now rewrite H. Qed.

Lemma lerp_0 (a b e : Q) : e == 0 -> lerp a b e == a.
Proof. intros H. unfold lerp. rewrite H. ring. Qed.

Lemma lerp_1 (a b e : Q) : e == 1 -> lerp a b e == b.
Proof. intros H. unfold lerp. rewrite H. ring. Qed.

Lemma lerp_monotone (a b e1 e2 : Q) :
  e1 <= e2 ->
  (a <= b -> lerp a b e1 <= lerp a b e2)
  /\ (b <= a -> lerp a b e2 <= lerp a b e1).
Proof.
  intros He. unfold lerp. split; intros Hab.
  - assert (0 <= (b - a) * (e2 - e1)) by (apply Qmult_le_0_compat; lra). lra.
  - assert (0 <= (a - b) * (e2 - e1)) by (apply Qmult_le_0_compat; lra). lra.
Qed.

Lemma local_progress_range (t dl dur : Q) :
  0 < dur -> dl <= t -> t <= dl + dur -> 0 <= (t - dl) / dur <= 1.
Proof.
  intros Hd H1 H2. split.
  - apply Qle_shift_div_l; lra.
  - apply Qle_shift_div_r; lra.
Qed.

Lemma local_progress_monotone (t1 t2 dl dur : Q) :
  0 < dur -> t1 <= t2 -> (t1 - dl) / dur <= (t2 - dl) / dur.
Proof.
  intros Hd Ht. unfold Qdiv. apply Qmult_le_compat_r; [lra|].
  apply Qlt_le_weak, Qinv_lt_0_compat, Hd.
Qed.

(** Inside its window, boundaries included, a spec of a non-sequential
    effect shows the quart-out blend of its two states. *)
Lemma interpolateSpec_window_quart photos t effect spec :
  effect <> sequential -> 0 < duration spec -> present photos (photoId spec) ->
  delay spec <= t -> t <= delay spec + duration spec ->
  let eased := easeOutQuart ((t - delay spec) / duration spec) in
  PhotoAnimState.opacity (interpolateSpec photos t effect spec)
  == lerp (Visual.opacity (from_ spec)) (Visual.opacity (to_ spec)) eased
  /\ PhotoAnimState.scale (interpolateSpec photos t effect spec)
     == lerp (Visual.scale (from_ spec)) (Visual.scale (to_ spec)) eased.
Proof.
  intros He Hd Hp H1 H2 eased.
  destruct (Qlt_le_dec (delay spec) t) as [Hlo|Hlo];
    [destruct (Qlt_le_dec t (delay spec + duration spec)) as [Hhi|Hhi]|].
  - rewrite interpolateSpec_within by assumption.
    destruct effect; [congruence| | |]; simpl; split; reflexivity.
  - rewrite interpolateSpec_after by assumption.
    assert (eased == 1) as E.
    { unfold eased. rewrite <- easeOutQuart_1. apply easeOutQuart_proper.
      assert (t - delay spec == duration spec) as -> by lra.
      unfold Qdiv. apply Qmult_inv_r. lra. }
    simpl. now rewrite !lerp_1.
  - rewrite interpolateSpec_before by assumption.
    assert (eased == 0) as E.
    { unfold eased. rewrite <- easeOutQuart_0. apply easeOutQuart_proper.
      assert (t - delay spec == 0) as -> by lra.
      unfold Qdiv. ring. }
    simpl. now rewrite !lerp_0.
Qed.

(** C4: inside the window of a spec, [interpolateFrame] blends with
    [easeOutBack] for the sequential effect and with [easeOutQuart] for the
    three others; [easeOutQuart] is non-decreasing on [0,1], so that for a
    non-sequential effect opacity and scale move monotonically towards
    their [to] value; [easeOutBack] exceeds 1 inside (0,1), is 1 at 1, and
    so is not monotone. *)
Theorem easing_paired_to_effect :
  (forall plan photos t effect (k : nat) spec,
      specs plan !! k = Some spec ->
      0 < duration spec ->
      present photos (photoId spec) ->
      delay spec < t -> t < delay spec + duration spec ->
      let localT := (t - delay spec) / duration spec in
      (effect = sequential ->
       interpolateFrame plan photos t effect !! k
       = Some (blend spec (easeOutBack localT)))
      /\ (effect <> sequential ->
          interpolateFrame plan photos t effect !! k
          = Some (blend spec (easeOutQuart localT))))
  /\ (forall a b, 0 <= a -> a <= b -> b <= 1 -> easeOutQuart a <= easeOutQuart b)
  /\ (forall plan photos effect (k : nat) spec t1 t2 s1 s2,
        effect <> sequential ->
        specs plan !! k = Some spec ->
        0 < duration spec ->
        present photos (photoId spec) ->
        delay spec <= t1 -> t1 < t2 -> t2 <= delay spec + duration spec ->
        interpolateFrame plan photos t1 effect !! k = Some s1 ->
        interpolateFrame plan photos t2 effect !! k = Some s2 ->
        (Visual.opacity (from_ spec) <= Visual.opacity (to_ spec) ->
         PhotoAnimState.opacity s1 <= PhotoAnimState.opacity s2)
        /\ (Visual.opacity (to_ spec) <= Visual.opacity (from_ spec) ->
            PhotoAnimState.opacity s2 <= PhotoAnimState.opacity s1)
        /\ (Visual.scale (from_ spec) <= Visual.scale (to_ spec) ->
            PhotoAnimState.scale s1 <= PhotoAnimState.scale s2)
        /\ (Visual.scale (to_ spec) <= Visual.scale (from_ spec) ->
            PhotoAnimState.scale s2 <= PhotoAnimState.scale s1))
  /\ (exists t, 0 < t /\ t < 1 /\ 1 < easeOutBack t)
  /\ easeOutBack 1 == 1
  /\ (exists a b, 0 <= a /\ a < b /\ b <= 1 /\ easeOutBack b < easeOutBack a).
Proof.
  split; [|split; [|split; [|split; [|split]]]].
  - intros plan photos t effect k spec Hk Hd Hp H1 H2 localT.
    rewrite interpolateFrame_lookup, Hk. simpl.
    rewrite interpolateSpec_within by assumption. fold localT.
    split; intros He; [now subst effect|].
    destruct effect; [congruence| | |]; reflexivity.
  - exact easeOutQuart_monotone.
  - intros plan photos effect k spec t1 t2 s1 s2 He Hk Hd Hp H1 H12 H2.
    rewrite !interpolateFrame_lookup, Hk. simpl. intros [= <-] [= <-].
    destruct (interpolateSpec_window_quart photos t1 effect spec)
      as [Ho1 Hs1]; try assumption; try lra.
    destruct (interpolateSpec_window_quart photos t2 effect spec)
      as [Ho2 Hs2]; try assumption; try lra.
    cbv zeta in *. rewrite Ho1, Ho2, Hs1, Hs2.
    assert (easeOutQuart ((t1 - delay spec) / duration spec)
            <= easeOutQuart ((t2 - delay spec) / duration spec)) as Hmono.
    { apply easeOutQuart_monotone.
      - apply local_progress_range; lra.
      - apply local_progress_monotone; lra.
      - apply local_progress_range; lra. }
    pose proof (lerp_monotone (Visual.opacity (from_ spec))
                  (Visual.opacity (to_ spec)) _ _ Hmono) as [? ?].
    pose proof (lerp_monotone (Visual.scale (from_ spec))
                  (Visual.scale (to_ spec)) _ _ Hmono) as [? ?].
    repeat split; assumption.
  - exists 0.5. split; [lra|]. split; [lra|]. vm_compute. reflexivity.
  - reflexivity.
  - exists 0.5, 1. split; [lra|]. split; [lra|]. split; [lra|].
    vm_compute. reflexivity.
Qed.

Lemma easing_paired_to_effect_witness :
  let plan := buildEffectPlan threePhotos fade 1280 720 in
  let spec := fadeSpec 1 (samplePhoto "b" 2) in
  let s1 := interpolateSpec threePhotos 0.4 fade spec in
  let s2 := interpolateSpec threePhotos 0.6 fade spec in
  (specs plan !! 1%nat = Some spec /\ 0 < duration spec
   /\ present threePhotos (photoId spec)
   /\ delay spec < 0.5 /\ 0.5 < delay spec + duration spec
   /\ fade <> sequential
   /\ delay spec <= 0.4 /\ 0.4 < 0.6 /\ 0.6 <= delay spec + duration spec
   /\ Visual.opacity (from_ spec) <= Visual.opacity (to_ spec)
   /\ 0 <= 0.2 /\ 0.2 <= 0.6 /\ 0.6 <= 1)
  /\ interpolateFrame plan threePhotos 0.5 fade !! 1%nat
     = Some (blend spec (easeOutQuart ((0.5 - delay spec) / duration spec)))
  /\ PhotoAnimState.opacity s1 <= PhotoAnimState.opacity s2
  /\ easeOutQuart 0.2 <= easeOutQuart 0.6.
Proof.
  cbv zeta.
  assert (present threePhotos (photoId (fadeSpec 1 (samplePhoto "b" 2)))) as Hp.
  { exists (samplePhoto "b" 2). split; [right; right; left|]; reflexivity. }
  assert (0 < duration (fadeSpec 1 (samplePhoto "b" 2))) as Hd by reflexivity.
  assert (delay (fadeSpec 1 (samplePhoto "b" 2)) < 0.5) as H1 by reflexivity.
  assert (0.5 < delay (fadeSpec 1 (samplePhoto "b" 2))
                + duration (fadeSpec 1 (samplePhoto "b" 2))) as H2 by reflexivity.
  assert (fade <> sequential) as He by discriminate.
  assert (delay (fadeSpec 1 (samplePhoto "b" 2)) <= 0.4) as H3
    by (vm_compute; discriminate).
  assert (0.4 < 0.6) as H4 by reflexivity.
  assert (0.6 <= delay (fadeSpec 1 (samplePhoto "b" 2))
                 + duration (fadeSpec 1 (samplePhoto "b" 2))) as H5
    by (vm_compute; discriminate).
  assert (Visual.opacity (from_ (fadeSpec 1 (samplePhoto "b" 2)))
          <= Visual.opacity (to_ (fadeSpec 1 (samplePhoto "b" 2)))) as H6
    by (vm_compute; discriminate).
  assert (0 <= 0.2) as H7 by (vm_compute; discriminate).
  assert (0.2 <= 0.6) as H8 by (vm_compute; discriminate).
  assert (0.6 <= 1) as H9 by (vm_compute; discriminate).
  split; [repeat split; assumption|]. split; [|split].
  - exact (proj2 (proj1 easing_paired_to_effect
                    (buildEffectPlan threePhotos fade 1280 720) threePhotos 0.5
                    fade 1%nat _ eq_refl Hd Hp H1 H2) He).
  - exact (proj1 (proj1 (proj2 (proj2 easing_paired_to_effect))
                    (buildEffectPlan threePhotos fade 1280 720) threePhotos
                    fade 1%nat _ 0.4 0.6 _ _ He eq_refl Hd Hp H3 H4 H5
                    eq_refl eq_refl) H6).
  - exact (proj1 (proj2 easing_paired_to_effect) 0.2 0.6 H7 H8 H9).
Defined.

(** ** Determinism of the planner *)

#[global] Instance precedes_byZIndex_trans : Transitive (precedes byZIndex).
Proof. intros a b c. unfold precedes, byZIndex. lra. Qed.

#[global] Instance precedes_byZIndex_total : Total (precedes byZIndex).
Proof.
  intros a b. unfold precedes, byZIndex.
  destruct (Qlt_le_dec (Photo.zIndex a) (Photo.zIndex b)); [left|right]; lra.
Qed.

Lemma array_sort_sortsBy : sortsBy byZIndex (array_sort byZIndex).
Proof. intros l. split; [apply array_sort_perm|apply array_sort_sorted]. Qed.

Lemma merge_sort_sortsBy : sortsBy byZIndex (merge_sort_by byZIndex).
Proof.
  intros l. split.
  - apply merge_sort_Permutation.
  - apply (Sorted_merge_sort (precedes byZIndex)).
Qed.

Lemma sorted_copy_unique (photos l1 l2 : list Photo.t) :
  distinctZIndex photos ->
  l1 ≡ₚ photos -> l2 ≡ₚ photos ->
  Sorted (precedes byZIndex) l1 -> Sorted (precedes byZIndex) l2 ->
  l1 = l2.
Proof.
  intros Hdistinct Hp1 Hp2 Hs1 Hs2.
  apply (Sorted_unique_strong (precedes byZIndex)); try assumption.
  - intros x1 x2 Hx1 Hx2 H12 H21.
    rewrite Hp1 in Hx1. rewrite Hp2 in Hx2.
    apply list_elem_of_lookup in Hx1 as [i Hi].
    apply list_elem_of_lookup in Hx2 as [j Hj].
    destruct (decide (i = j)) as [->|Hne]; [congruence|].
    exfalso. apply (Hdistinct i j x1 x2 Hi Hj Hne).
    unfold precedes, byZIndex in *. lra.
  - now rewrite Hp1, Hp2.
Qed.

(** C5: the plan does not depend on anything but the photos, the effect and
    the viewport.  The only latitude the source leaves to the engine is
    its sorting routine, and with distinct [zIndex] values every routine
    that sorts yields the same plan: same specs in the same order, same
    [totalDuration]. *)
Theorem buildEffectPlan_deterministic engineA engineB photos effect w h :
  sortsBy byZIndex (engineA byZIndex) ->
  sortsBy byZIndex (engineB byZIndex) ->
  distinctZIndex photos ->
  buildEffectPlanWith engineA photos effect w h
  = buildEffectPlanWith engineB photos effect w h
  /\ buildEffectPlanWith engineA photos effect w h
     = buildEffectPlan photos effect w h.
Proof.
  intros HA HB Hdistinct. unfold buildEffectPlan, buildEffectPlanWith.
  destruct (HA photos) as [HpA HsA]. destruct (HB photos) as [HpB HsB].
  destruct (array_sort_sortsBy photos) as [Hp Hs].
  rewrite (sorted_copy_unique photos _ _ Hdistinct HpA HpB HsA HsB).
  rewrite (sorted_copy_unique photos _ _ Hdistinct HpB Hp HsB Hs).
  split; reflexivity.
Qed.

Lemma threePhotos_distinctZIndex : distinctZIndex threePhotos.
Proof.
  intros i j p q Hi Hj Hne.
  destruct i as [|[|[|i]]]; destruct j as [|[|[|j]]];
    try discriminate; try congruence;
    injection Hi as <-; injection Hj as <-; discriminate.
Qed.

Lemma buildEffectPlan_deterministic_witness :
  (sortsBy byZIndex (array_sort byZIndex)
   /\ sortsBy byZIndex (merge_sort_by byZIndex)
   /\ distinctZIndex threePhotos)
  /\ buildEffectPlanWith (@array_sort Photo.t) threePhotos shuffle 1280 720
     = buildEffectPlanWith merge_sort_by threePhotos shuffle 1280 720.
Proof.
  split.
  - split; [exact array_sort_sortsBy|].
    split; [exact merge_sort_sortsBy|exact threePhotos_distinctZIndex].
  - exact (proj1 (buildEffectPlan_deterministic (@array_sort Photo.t)
                    merge_sort_by threePhotos shuffle 1280 720
                    array_sort_sortsBy merge_sort_sortsBy
                    threePhotos_distinctZIndex)).
Defined.

(** ** The capture loop of the export *)

Lemma applyStateToDOM_lookup (d : Dom) state (k : string) :
  applyStateToDOM d state !! k
  = match d !! k with
    | None => None
    | Some v => Some (if decide (PhotoAnimState.id state = k) then state else v)
    end.
Proof.
  unfold applyStateToDOM.
  destruct (decide (PhotoAnimState.id state = k)) as [->|Hne].
  - destruct (d !! k) eqn:E; [|now rewrite E].
    now rewrite lookup_insert_eq.
  - destruct (d !! PhotoAnimState.id state) eqn:E.
    + rewrite lookup_insert_ne by assumption. now destruct (d !! k).
    + now destruct (d !! k).
Qed.

Lemma applyStatesToDOM_lookup states (d : Dom) (k : string) :
  applyStatesToDOM states d !! k
  = match d !! k with
    | None => None
    | Some v => Some (lastWrite k v states)
    end.
Proof.
  unfold applyStatesToDOM, lastWrite. revert d.
  induction states as [|state states IH]; intros d; simpl.
  - now destruct (d !! k).
  - rewrite IH, applyStateToDOM_lookup. now destruct (d !! k).
Qed.

Lemma lastWrite_absent k v states :
  ~ In k (List.map PhotoAnimState.id states) -> lastWrite k v states = v.
Proof.
  unfold lastWrite. revert v.
  induction states as [|state states IH]; intros v Hk; simpl; [reflexivity|].
  simpl in Hk. destruct (decide (PhotoAnimState.id state = k)); [tauto|].
  apply IH. tauto.
Qed.

Lemma lastWrite_present k v v' states :
  In k (List.map PhotoAnimState.id states) ->
  lastWrite k v states = lastWrite k v' states.
Proof.
  unfold lastWrite. revert v v'.
  induction states as [|state states IH]; intros v v' Hk; simpl; [destruct Hk|].
  destruct (decide (PhotoAnimState.id state = k)) as [_|Hne]; [reflexivity|].
  apply IH. destruct Hk as [Hk|Hk]; [contradiction|assumption].
Qed.

(** Writing a frame over another frame of the same elements leaves no
    trace of the older one. *)
Lemma applyStatesToDOM_override older newer (d : Dom) :
  List.map PhotoAnimState.id older = List.map PhotoAnimState.id newer ->
  applyStatesToDOM newer (applyStatesToDOM older d) = applyStatesToDOM newer d.
Proof.
  intros Hids. apply map_eq. intros k.
  rewrite !applyStatesToDOM_lookup.
  destruct (d !! k) as [v|]; [|reflexivity]. f_equal.
  destruct (in_dec string_dec k (List.map PhotoAnimState.id newer)) as [Hk|Hk].
  - now apply lastWrite_present.
  - f_equal. apply lastWrite_absent. now rewrite Hids.
Qed.

Lemma interpolateSpec_id photos t effect spec :
  PhotoAnimState.id (interpolateSpec photos t effect spec) = photoId spec.
Proof.
  unfold interpolateSpec. destruct (findPhoto _ _); [|reflexivity].
  destruct (Qle_bool _ 0); [reflexivity|]. now destruct (Qle_bool 1 _).
Qed.

Lemma interpolateFrame_ids plan photos t effect :
  List.map PhotoAnimState.id (interpolateFrame plan photos t effect)
  = List.map photoId (specs plan).
Proof.
  unfold interpolateFrame. rewrite List.map_map.
  apply List.map_ext. intros spec. apply interpolateSpec_id.
Qed.

Section CaptureLoop.
Variable captureFrame : Dom -> Q -> Q -> option string.
Variable st : Dialog.
Hypothesis captures : forall d, is_Some (captureFrame d (winW st) (winH st)).

Lemma captureLoop_frames (d0 : Dom) (remaining i : nat) (d : Dom) (acc : list string) :
  (forall j, applyStatesToDOM (sampleStates st j) d
             = applyStatesToDOM (sampleStates st j) d0) ->
  exists d' shots,
    captureLoop captureFrame st remaining i d acc = (d', acc ++ shots, true)
    /\ length shots = remaining
    /\ forall j, (j < remaining)%nat -> shots !! j = shot captureFrame st d0 (i + j).
Proof.
  revert i d acc. induction remaining as [|remaining IH]; intros i d acc Hd; simpl.
  - exists d, []. rewrite app_nil_r. repeat split. intros j Hj. lia.
  - fold (sampleTime st i). fold (sampleStates st i). rewrite Hd.
    destruct (captures (applyStatesToDOM (sampleStates st i) d0)) as [frame Hframe].
    rewrite Hframe.
    destruct (IH (S i) (applyStatesToDOM (sampleStates st i) d0) (acc ++ [frame]))
      as (d' & shots & Hrun & Hlen & Hshots).
    { intros j. apply applyStatesToDOM_override.
      unfold sampleStates. now rewrite !interpolateFrame_ids. }
    exists d', (frame :: shots). rewrite Hrun, <- app_assoc. simpl.
    repeat split; [now rewrite Hlen|].
    intros [|j] Hj; simpl.
    + unfold shot. now rewrite Nat.add_0_r, Hframe.
    + rewrite Hshots by lia. f_equal. lia.
Qed.
End CaptureLoop.

Lemma captureLoop_speed captureFrame s st (remaining i : nat) (d : Dom) acc :
  captureLoop captureFrame (withSpeed s st) remaining i d acc
  = captureLoop captureFrame st remaining i d acc.
Proof.
  revert i d acc. induction remaining as [|remaining IH]; intros i d acc; simpl.
  - reflexivity.
  - destruct (captureFrame _ _ _); [apply IH|reflexivity].
Qed.

Lemma handleExport_speed (Blob : Type) captureFrame
    (encode : ExportFormat -> list string -> Q -> Q -> Q -> option Blob)
    format s st :
  frames (handleExport Blob captureFrame encode format (withSpeed s st))
  = frames (handleExport Blob captureFrame encode format st).
Proof.
  unfold handleExport. simpl. rewrite captureLoop_speed.
  destruct (isExporting st || negb (canvasMounted st)); [reflexivity|].
  destruct (captureLoop _ _ _ _ _ _) as [[d captured] []]; reflexivity.
Qed.



(** ** Reasoning about the encoder task *)

Lemma grows_refl E s : grows E s s.
Proof. exists []. split; [reflexivity|constructor]. Qed.

Lemma grows_same_log E s s' : log s' = log s -> grows E s s'.
Proof. intros H. exists []. split; [exact H|constructor]. Qed.

Lemma grows_trans E s1 s2 s3 : grows E s1 s2 -> grows E s2 s3 -> grows E s1 s3.
Proof.
  intros (n1 & H1 & F1) (n2 & H2 & F2). exists (n2 ++ n1). split.
  - now rewrite H2, H1, app_assoc.
  - apply Forall_app. now split.
Qed.

Lemma triple_weaken {A} (P P' : Encoder -> Prop) (m : Run A)
    (Q Q' : A -> Encoder -> Prop) E :
  triple P' m Q' E ->
  (forall s, P s -> P' s) -> (forall a s, Q' a s -> Q a s) ->
  triple P m Q E.
Proof.
  intros H HP HQ s Hs. destruct (H s (HP s Hs)) as [Hg Hr].
  split; [assumption|]. intros a Ha. apply HQ, Hr, Ha.
Qed.

Lemma triple_bind {A B} P (m : Run A) Q (k : A -> Run B) R E :
  triple P m Q E -> (forall a, triple (Q a) (k a) R E) -> triple P (bind m k) R E.
Proof.
  intros Hm Hk s Hs. destruct (Hm s Hs) as [Hg Hr]. unfold bind.
  destruct (m s) as [[a|e|] s1] eqn:Em; simpl in *.
  - destruct (Hk a s1 (Hr a eq_refl)) as [Hg' Hr'].
    split; [eapply grows_trans; eassumption|exact Hr'].
  - split; [assumption|discriminate].
  - split; [assumption|discriminate].
Qed.

Lemma triple_ret {A} (P : Encoder -> Prop) (a : A) E :
  triple P (ret a) (fun _ s => P s) E.
Proof. intros s Hs. split; [apply grows_refl|]. now intros a' _. Qed.

Lemma triple_throw {A} (P : Encoder -> Prop) e (Q : A -> Encoder -> Prop) E :
  triple P (throw e) Q E.
Proof. intros s Hs. split; [apply grows_refl|discriminate]. Qed.

Lemma triple_emit ev (E : EncoderEvent -> Prop) :
  E ev -> triple (fun _ => True) (emit ev) (fun _ _ => True) E.
Proof.
  intros Hev s _. split; [|trivial].
  exists [ev]. split; [reflexivity|]. now constructor.
Qed.

Lemma triple_suspend b E : triple (fun _ => True) (suspend b) (fun _ _ => True) E.
Proof.
  intros s _. unfold suspend. destruct (encoderActivity b (suspensions s)).
  split; [now apply grows_same_log|trivial].
Qed.

Lemma triple_checkError (P : Encoder -> Prop) E :
  triple P checkError (fun _ s => P s) E.
Proof.
  intros s Hs. unfold checkError. destruct (encodeError s); simpl.
  - split; [apply grows_refl|discriminate].
  - split; [apply grows_refl|]. now intros _ _.
Qed.

Lemma triple_decodeFrame b i frame E :
  triple (fun _ => True) (decodeFrame b (suspend b) i frame) (fun _ _ => True) E.
Proof.
  unfold decodeFrame. destruct frame as [url|]; [|apply triple_throw].
  destruct (bitmapSize b url).
  - eapply triple_bind; [apply triple_suspend|]. intro. apply triple_ret.
  - eapply triple_bind; [apply triple_suspend|]. intro. apply triple_throw.
Qed.

Lemma triple_encodeFrame i timestamp frameDuration keyFrame :
  triple (fun s => (encodeQueueSize s <= 3)%nat)
         (encodeFrame i timestamp frameDuration keyFrame)
         (fun _ _ => True) withinThreshold.
Proof.
  intros s Hs. split; [|trivial].
  eexists [_]. split; [reflexivity|]. constructor; [exact Hs|constructor].
Qed.

(** The loop is only left with at most three frames pending. *)
Lemma triple_waitForDrain b polls E :
  (forall queueSize ms, E (EvWait queueSize ms)) ->
  triple (fun _ => True) (waitForDrain b polls)
         (fun _ s => (encodeQueueSize s <= 3)%nat) E.
Proof.
  intros HE. induction polls as [|polls IH]; intros s _; simpl.
  - destruct (Nat.ltb_spec 3 (encodeQueueSize s)); simpl.
    + split; [apply grows_refl|discriminate].
    + split; [apply grows_refl|]. intros _ _. lia.
  - destruct (Nat.ltb_spec 3 (encodeQueueSize s)); simpl.
    + assert (triple (fun _ => True)
                (emit (EvWait (encodeQueueSize s) 8) ;; suspend b ;;
                 waitForDrain b polls)
                (fun _ s => (encodeQueueSize s <= 3)%nat) E) as Hbody.
      { eapply triple_bind; [apply triple_emit, HE|]. intro; cbv beta.
        eapply triple_bind; [apply triple_suspend|]. intro; cbv beta. exact IH. }
      exact (Hbody s I).
    + split; [apply grows_refl|]. intros _ _. lia.
Qed.

Lemma triple_submitFrame b polls frameDuration total i url :
  triple (fun _ => True) (submitFrame b polls frameDuration total i url)
         (fun _ _ => True) withinThreshold.
Proof.
  unfold submitFrame.
  eapply triple_bind; [apply triple_checkError|]. intro; cbv beta.
  eapply triple_bind; [apply triple_decodeFrame|]. intro; cbv beta.
  eapply triple_bind; [now apply triple_emit|]. intro; cbv beta.
  eapply triple_bind; [apply triple_waitForDrain; now intros|]. intro; cbv beta.
  eapply triple_bind; [apply triple_checkError|]. intro; cbv beta.
  eapply triple_bind; [apply triple_encodeFrame|]. intro; cbv beta.
  eapply triple_bind; [now apply triple_emit|]. intro; cbv beta.
  apply triple_suspend.
Qed.

Lemma triple_submitFrames b polls frameDuration total i rest :
  triple (fun _ => True) (submitFrames b polls frameDuration total i rest)
         (fun _ _ => True) withinThreshold.
Proof.
  revert i. induction rest as [|url rest IH]; intros i; simpl.
  - apply triple_ret.
  - eapply triple_bind; [apply triple_submitFrame|]. intro; cbv beta. apply IH.
Qed.

Lemma triple_flush b E :
  E EvFlush -> triple (fun _ => True) (flush b) (fun _ _ => True) E.
Proof.
  intros HE. unfold flush.
  eapply triple_bind; [now apply triple_emit|]. intro; cbv beta.
  intros s _. destruct (encoderActivity b (suspensions s)).
  split; [now apply grows_same_log|trivial].
Qed.

(** What [encodeMP4] does once the encoder is configured. *)
Lemma triple_encode_frames b polls frames fps codec encW encH :
  triple (fun _ => True)
    (submitFrames b polls (1000000 / fps) (length frames) 0 frames ;;
     flush b ;;
     checkError ;;
     emit EvClose ;;
     emit EvFinalize ;;
     emit (EvProgress 1 Done) ;;
     ret (mkMp4 codec encW encH (length frames)))
    (fun _ _ => True) withinThreshold.
Proof.
  eapply triple_bind; [apply triple_submitFrames|]. intro; cbv beta.
  eapply triple_bind; [now apply triple_flush|]. intro; cbv beta.
  eapply triple_bind; [apply triple_checkError|]. intro; cbv beta.
  eapply triple_bind; [now apply triple_emit|]. intro; cbv beta.
  eapply triple_bind; [now apply triple_emit|]. intro; cbv beta.
  eapply triple_bind; [now apply triple_emit|]. intro; cbv beta.
  apply triple_ret.
Qed.


(** ** The four ways [encodeMP4] can start *)

Lemma encodeMP4_no_webcodecs b polls frames fps :
  hasVideoEncoder b = false ->
  encodeMP4 b polls frames fps freshEncoder
  = (Thrown WebCodecsUnavailable,
     mkEncoder 0 None 0 [EvProgress 0 PreparingEncoder]).
Proof. intros Hve. unfold encodeMP4. rewrite Hve. reflexivity. Qed.

Lemma encodeMP4_no_frame b polls frames fps :
  hasVideoEncoder b = true ->
  frames !! 0%nat = None ->
  encodeMP4 b polls frames fps freshEncoder
  = (Thrown (FrameUndecodable 0),
     mkEncoder 0 None 1
       [EvProgress 0.01 PreparingEncoder; EvProgress 0 PreparingEncoder]).
Proof. intros Hve Hurl. unfold encodeMP4. rewrite Hve, Hurl. reflexivity. Qed.

Lemma encodeMP4_bad_frame b polls frames fps url :
  hasVideoEncoder b = true ->
  frames !! 0%nat = Some url ->
  bitmapSize b url = None ->
  encodeMP4 b polls frames fps freshEncoder
  = (Thrown (FrameUndecodable 0),
     mkEncoder 0 None 2
       [EvProgress 0.01 PreparingEncoder; EvProgress 0 PreparingEncoder]).
Proof.
  intros Hve Hurl Hsize. unfold encodeMP4, decodeFrame.
  rewrite Hve, Hurl, Hsize. reflexivity.
Qed.

Lemma encodeMP4_unsupported b polls frames fps url rawW rawH :
  hasVideoEncoder b = true ->
  frames !! 0%nat = Some url ->
  bitmapSize b url = Some (rawW, rawH) ->
  isConfigSupported b (avcCodecForSize (evenDimension rawW) (evenDimension rawH))
    (evenDimension rawW) (evenDimension rawH) = false ->
  encodeMP4 b polls frames fps freshEncoder
  = (Thrown (ResolutionUnsupported (evenDimension rawW) (evenDimension rawH)),
     mkEncoder 0 None 3
       [EvIsConfigSupported
          (avcCodecForSize (evenDimension rawW) (evenDimension rawH))
          (evenDimension rawW) (evenDimension rawH) false;
        EvProgress 0.01 PreparingEncoder;
        EvProgress 0 PreparingEncoder]).
Proof.
  intros Hve Hurl Hsize Hsup.
  unfold encodeMP4, decodeFrame. rewrite Hurl, Hsize, Hve. cbn [negb].
  unfold bind at 1. unfold emit at 1.
  unfold bind at 1. unfold suspendIdle at 1.
  unfold bind at 1. unfold emit at 1.
  unfold bind at 1. unfold bind at 1. unfold suspendIdle at 1. unfold ret at 1.
  cbn [fst snd].
  unfold bind at 1. unfold suspendIdle at 1.
  unfold bind at 1. unfold emit at 1.
  rewrite Hsup. reflexivity.
Qed.

Lemma encodeMP4_supported b polls frames fps url rawW rawH :
  hasVideoEncoder b = true ->
  frames !! 0%nat = Some url ->
  bitmapSize b url = Some (rawW, rawH) ->
  isConfigSupported b (avcCodecForSize (evenDimension rawW) (evenDimension rawH))
    (evenDimension rawW) (evenDimension rawH) = true ->
  encodeMP4 b polls frames fps freshEncoder
  = (submitFrames b polls (1000000 / fps) (length frames) 0 frames ;;
     flush b ;;
     checkError ;;
     emit EvClose ;;
     emit EvFinalize ;;
     emit (EvProgress 1 Done) ;;
     ret (mkMp4 (avcCodecForSize (evenDimension rawW) (evenDimension rawH))
            (evenDimension rawW) (evenDimension rawH) (length frames)))
      (mkEncoder 0 None 3
         [EvConfigure (avcCodecForSize (evenDimension rawW) (evenDimension rawH))
            (evenDimension rawW) (evenDimension rawH) 8000000 fps;
          EvIsConfigSupported
            (avcCodecForSize (evenDimension rawW) (evenDimension rawH))
            (evenDimension rawW) (evenDimension rawH) true;
          EvProgress 0.01 PreparingEncoder;
          EvProgress 0 PreparingEncoder]).
Proof.
  intros Hve Hurl Hsize Hsup.
  unfold encodeMP4, decodeFrame. rewrite Hurl, Hsize, Hve. cbn [negb].
  unfold bind at 1. unfold emit at 1.
  unfold bind at 1. unfold suspendIdle at 1.
  unfold bind at 1. unfold emit at 1.
  unfold bind at 1. unfold bind at 1. unfold suspendIdle at 1. unfold ret at 1.
  cbn [fst snd].
  unfold bind at 1. unfold suspendIdle at 1.
  unfold bind at 1. unfold emit at 1.
  rewrite Hsup. cbn [negb].
  unfold bind at 1. unfold emit at 1.
  reflexivity.
Qed.

(** The log of a whole call (newest first): either nothing was ever encoded,
    or the log ends with the two progress reports, the support check of the
    even dimensions of the first frame, answered positively, and the
    configuration, and all that was logged later respects the threshold. *)
Lemma encodeMP4_log b polls frames fps :
  let s' := snd (encodeMP4 b polls frames fps freshEncoder) in
  Forall (fun ev => ~ isEncode ev) (log s')
  \/ exists url rawW rawH new,
       frames !! 0%nat = Some url
       /\ bitmapSize b url = Some (rawW, rawH)
       /\ Forall withinThreshold new
       /\ log s'
          = new ++
            [EvConfigure (avcCodecForSize (evenDimension rawW) (evenDimension rawH))
               (evenDimension rawW) (evenDimension rawH) 8000000 fps;
             EvIsConfigSupported
               (avcCodecForSize (evenDimension rawW) (evenDimension rawH))
               (evenDimension rawW) (evenDimension rawH) true;
             EvProgress 0.01 PreparingEncoder;
             EvProgress 0 PreparingEncoder].
Proof.
  cbv zeta.
  destruct (hasVideoEncoder b) eqn:Hve.
  2:{ left. rewrite encodeMP4_no_webcodecs by assumption.
      repeat constructor; simpl; tauto. }
  destruct (frames !! 0%nat) as [url|] eqn:Hurl.
  2:{ left. rewrite encodeMP4_no_frame by assumption.
      repeat constructor; simpl; tauto. }
  destruct (bitmapSize b url) as [[rawW rawH]|] eqn:Hsize.
  2:{ left. rewrite (encodeMP4_bad_frame _ _ _ _ url) by assumption.
      repeat constructor; simpl; tauto. }
  destruct (isConfigSupported b
              (avcCodecForSize (evenDimension rawW) (evenDimension rawH))
              (evenDimension rawW) (evenDimension rawH)) eqn:Hsup.
  2:{ left. rewrite (encodeMP4_unsupported _ _ _ _ url rawW rawH) by assumption.
      repeat constructor; simpl; tauto. }
  right. exists url, rawW, rawH.
  rewrite (encodeMP4_supported _ _ _ _ url rawW rawH) by assumption.
  match goal with
  | |- context [snd (?tail ?s1)] =>
      destruct (triple_encode_frames b polls frames fps
                  (avcCodecForSize (evenDimension rawW) (evenDimension rawH))
                  (evenDimension rawW) (evenDimension rawH) s1 I)
        as [(new & Hlog & Hnew) _]
  end.
  exists new. repeat split; assumption.
Qed.

(** ** Dimensions, codec tiers and the support check *)

Lemma evenDimension_greatest_even (raw : Z) :
  (exists k, evenDimension raw = 2 * k)%Z
  /\ (evenDimension raw <= raw)%Z
  /\ (forall k, 2 * k <= raw -> 2 * k <= evenDimension raw)%Z.
Proof.
  unfold evenDimension.
  pose proof (Z.quot_rem' raw 2) as Hqr.
  pose proof (Z.rem_bound_abs raw 2 ltac:(lia)) as Hb.
  destruct (Z.eqb_spec (Z.rem raw 2) 0) as [E|E].
  - split; [exists (Z.quot raw 2); lia|]. split; [lia|]. intros k Hk. exact Hk.
  - split; [|split; [lia|intros k Hk; lia]].
    destruct (Z_lt_le_dec 0 (Z.rem raw 2)).
    + exists (Z.quot raw 2). lia.
    + exists (Z.quot raw 2 - 1)%Z. lia.
Qed.

Lemma avcCodecForSize_tiers (w h : Z) :
  ((w * h <= 921600)%Z -> avcCodecForSize w h = "avc1.42001f"%string)
  /\ ((921600 < w * h <= 2097152)%Z -> avcCodecForSize w h = "avc1.420029"%string)
  /\ ((2097152 < w * h <= 9437184)%Z -> avcCodecForSize w h = "avc1.420033"%string)
  /\ ((9437184 < w * h)%Z -> avcCodecForSize w h = "avc1.420034"%string).
Proof.
  unfold avcCodecForSize. cbv zeta.
  destruct (Z.leb_spec (w * h) 921600);
    destruct (Z.leb_spec (w * h) 2097152);
    destruct (Z.leb_spec (w * h) 9437184);
    repeat split; intros; first [reflexivity|lia].
Qed.

Lemma encode_after_prelude (p0 p1 p2 p3 : EncoderEvent) later pre ev post :
  [p0; p1; p2; p3] ++ later = pre ++ ev :: post ->
  ~ isEncode p0 -> ~ isEncode p1 -> ~ isEncode p2 -> ~ isEncode p3 ->
  isEncode ev -> In p2 pre.
Proof.
  intros Heq H0 H1 H2 H3 Hev. simpl in Heq.
  destruct pre as [|q0 pre]; simpl in Heq; injection Heq as <- Heq;
    [contradiction|].
  destruct pre as [|q1 pre]; simpl in Heq; injection Heq as <- Heq;
    [contradiction|].
  destruct pre as [|q2 pre]; simpl in Heq; injection Heq as <- Heq;
    [contradiction|].
  destruct pre as [|q3 pre]; simpl in Heq; injection Heq as <- Heq;
    [contradiction|].
  simpl. tauto.
Qed.

(** C8: the encoding dimensions are the greatest even numbers below the raw
    ones; [avcCodecForSize] has four area tiers and answers [avc1.420034]
    above the last bound; whenever the first frame decodes the support
    check is made, for the even dimensions and the codec of their tier;
    nothing is encoded before a positive answer; and a negative answer
    makes [encodeMP4] throw the resolution error with nothing encoded. *)
Theorem encodeMP4_checks_support_first :
  (forall raw : Z,
      (exists k, evenDimension raw = 2 * k)%Z
      /\ (evenDimension raw <= raw)%Z
      /\ (forall k, 2 * k <= raw -> 2 * k <= evenDimension raw)%Z)
  /\ (forall w h : Z,
        ((w * h <= 921600)%Z -> avcCodecForSize w h = "avc1.42001f"%string)
        /\ ((921600 < w * h <= 2097152)%Z ->
            avcCodecForSize w h = "avc1.420029"%string)
        /\ ((2097152 < w * h <= 9437184)%Z ->
            avcCodecForSize w h = "avc1.420033"%string)
        /\ ((9437184 < w * h)%Z -> avcCodecForSize w h = "avc1.420034"%string))
  /\ (forall b polls frames fps url rawW rawH,
        hasVideoEncoder b = true ->
        frames !! 0%nat = Some url ->
        bitmapSize b url = Some (rawW, rawH) ->
        let encW := evenDimension rawW in
        let encH := evenDimension rawH in
        let codec := avcCodecForSize encW encH in
        let run := encodeMP4 b polls frames fps freshEncoder in
        In (EvIsConfigSupported codec encW encH (isConfigSupported b codec encW encH))
           (trace (snd run))
        /\ (isConfigSupported b codec encW encH = false ->
            fst run = Thrown (ResolutionUnsupported encW encH)
            /\ Forall (fun ev => ~ isEncode ev) (trace (snd run))))
  /\ (forall b polls frames fps pre ev post,
        trace (snd (encodeMP4 b polls frames fps freshEncoder)) = pre ++ ev :: post ->
        isEncode ev ->
        exists url rawW rawH,
          frames !! 0%nat = Some url
          /\ bitmapSize b url = Some (rawW, rawH)
          /\ In (EvIsConfigSupported
                   (avcCodecForSize (evenDimension rawW) (evenDimension rawH))
                   (evenDimension rawW) (evenDimension rawH) true) pre).
Proof.
  split; [exact evenDimension_greatest_even|].
  split; [exact avcCodecForSize_tiers|]. split.
  - intros b polls frames fps url rawW rawH Hve Hurl Hsize encW encH codec run.
    subst run codec encH encW. unfold trace.
    destruct (isConfigSupported b _ (evenDimension rawW) (evenDimension rawH))
      eqn:Hsup.
    + split; [|discriminate].
      rewrite (encodeMP4_supported _ _ _ _ url rawW rawH) by assumption.
      match goal with
      | |- context [snd (?tail ?s1)] =>
          destruct (triple_encode_frames b polls frames fps
                      (avcCodecForSize (evenDimension rawW) (evenDimension rawH))
                      (evenDimension rawW) (evenDimension rawH) s1 I)
            as [(new & Hlog & _) _]
      end.
      rewrite Hlog, <- in_rev, in_app_iff.
      right. simpl. tauto.
    + rewrite (encodeMP4_unsupported _ _ _ _ url rawW rawH) by assumption.
      split; [simpl; tauto|]. intros _. split; [reflexivity|].
      repeat constructor; simpl; tauto.
  - intros b polls frames fps pre ev post Htrace Hev. unfold trace in Htrace.
    destruct (encodeMP4_log b polls frames fps)
      as [Hnone|(url & rawW & rawH & new & Hurl & Hsize & _ & Hlog)].
    + exfalso. apply (proj1 (List.Forall_forall _ _) Hnone ev); [|exact Hev].
      apply in_rev. rewrite Htrace, in_app_iff. right. now left.
    + exists url, rawW, rawH. split; [assumption|]. split; [assumption|].
      rewrite Hlog, rev_app_distr in Htrace. simpl in Htrace.
      eapply encode_after_prelude; [exact Htrace| | | | |exact Hev];
        simpl; tauto.
Qed.

Lemma encodeMP4_checks_support_first_witness :
  let url := "data:image/png;base64,AAAA"%string in
  let rejected := encodeMP4 hugeBrowser 8 [url] 24 freshEncoder in
  let accepted := encodeMP4 steadyBrowser 8 [url] 24 freshEncoder in
  let pre :=
    [EvProgress 0 PreparingEncoder; EvProgress 0.01 PreparingEncoder;
     EvIsConfigSupported "avc1.42001f" 1280 720 true;
     EvConfigure "avc1.42001f" 1280 720 8000000 24; EvDraw 0] in
  let post :=
    [EvProgress 1 EncodingMP4; EvFlush; EvClose; EvFinalize; EvProgress 1 Done] in
  (hasVideoEncoder hugeBrowser = true
   /\ [url] !! 0%nat = Some url
   /\ bitmapSize hugeBrowser url = Some (7681, 4321)%Z
   /\ isConfigSupported hugeBrowser "avc1.420034" 7680 4320 = false
   /\ trace (snd accepted) = pre ++ EvEncode 0 0 41667 true 0 :: post
   /\ isEncode (EvEncode 0 0 41667 true 0)
   /\ (9437184 < 7680 * 4320)%Z
   /\ (2 * 3840 <= 7681)%Z)
  /\ In (EvIsConfigSupported "avc1.420034" 7680 4320 false) (trace (snd rejected))
  /\ fst rejected = Thrown (ResolutionUnsupported 7680 4320)
  /\ (exists url' rawW rawH,
        [url] !! 0%nat = Some url'
        /\ bitmapSize steadyBrowser url' = Some (rawW, rawH)
        /\ In (EvIsConfigSupported
                 (avcCodecForSize (evenDimension rawW) (evenDimension rawH))
                 (evenDimension rawW) (evenDimension rawH) true) pre)
  /\ avcCodecForSize 7680 4320 = "avc1.420034"%string
  /\ (2 * 3840 <= evenDimension 7681)%Z.
Proof.
  cbv zeta.
  assert (trace (snd (encodeMP4 steadyBrowser 8
                        ["data:image/png;base64,AAAA"%string] 24 freshEncoder))
          = [EvProgress 0 PreparingEncoder; EvProgress 0.01 PreparingEncoder;
             EvIsConfigSupported "avc1.42001f" 1280 720 true;
             EvConfigure "avc1.42001f" 1280 720 8000000 24; EvDraw 0]
            ++ EvEncode 0 0 41667 true 0
               :: [EvProgress 1 EncodingMP4; EvFlush; EvClose; EvFinalize;
                   EvProgress 1 Done]) as Htrace
    by (vm_compute; reflexivity).
  split.
  { split; [reflexivity|]. split; [reflexivity|]. split; [reflexivity|].
    split; [reflexivity|]. split; [exact Htrace|]. split; [exact I|].
    split; lia. }
  pose proof (proj1 (proj2 (proj2 encodeMP4_checks_support_first))
                hugeBrowser 8%nat ["data:image/png;base64,AAAA"%string] 24
                "data:image/png;base64,AAAA"%string 7681%Z 4321%Z
                eq_refl eq_refl eq_refl) as [Hcheck Hthrow].
  split; [exact Hcheck|]. split; [exact (proj1 (Hthrow eq_refl))|].
  split; [|split].
  - exact (proj2 (proj2 (proj2 encodeMP4_checks_support_first))
             steadyBrowser 8%nat ["data:image/png;base64,AAAA"%string] 24
             _ (EvEncode 0 0 41667 true 0) _ Htrace I).
  - exact (proj2 (proj2 (proj2 (proj1 (proj2 encodeMP4_checks_support_first)
                                  7680%Z 4320%Z)))
             ltac:(lia)).
  - exact (proj2 (proj2 (proj1 encodeMP4_checks_support_first 7681%Z))
             3840%Z ltac:(lia)).
Defined.

(** ** Back-pressure *)

Lemma waitForDrain_stalled b polls s :
  (forall k, fst (encoderActivity b k) = 0%nat) ->
  (3 < encodeQueueSize s)%nat ->
  exists s', waitForDrain b polls s = (Waiting, s')
             /\ grows (fun ev => ~ isEncode ev) s s'.
Proof.
  intros Hstall. revert s. induction polls as [|polls IH]; intros s Hq; simpl.
  - destruct (Nat.ltb_spec 3 (encodeQueueSize s)); [|lia].
    exists s. split; [reflexivity|apply grows_refl].
  - destruct (Nat.ltb_spec 3 (encodeQueueSize s)); [|lia].
    unfold bind at 1. unfold emit at 1. unfold bind at 1. unfold suspend at 1.
    cbn [suspensions encodeQueueSize].
    destruct (encoderActivity b (suspensions s)) as [finished failure] eqn:Ea.
    pose proof (Hstall (suspensions s)) as Hk. rewrite Ea in Hk. simpl in Hk.
    subst finished.
    match goal with
    | |- context [waitForDrain b polls ?s1] =>
        destruct (IH s1) as (s' & Hrun & Hg)
    end.
    { simpl. lia. }
    exists s'. split; [exact Hrun|].
    eapply grows_trans; [|exact Hg].
    exists [EvWait (encodeQueueSize s) 8]. split; [reflexivity|].
    repeat constructor. simpl. tauto.
Qed.

Lemma grows_trace E s s' :
  grows E s s' -> exists later, trace s' = trace s ++ later /\ Forall E later.
Proof.
  intros (new & Hlog & Hnew). exists (rev new). unfold trace.
  rewrite Hlog, rev_app_distr. split; [reflexivity|].
  apply List.Forall_forall. intros ev Hev. apply in_rev in Hev.
  exact (proj1 (List.Forall_forall _ _) Hnew ev Hev).
Qed.

(** C9: no frame is handed to the encoder while more than three frames
    are pending, in a whole call of [encodeMP4] and in the submission loop
    started from any state; the loop is only left once the queue is at
    most 3; with five frames pending it polls until three are left and
    then encodes; and while the encoder is stalled it keeps waiting and
    encodes nothing. *)
Theorem encodeMP4_backpressure :
  (forall b polls frames fps i timestamp frameDuration keyFrame queueSize,
      In (EvEncode i timestamp frameDuration keyFrame queueSize)
         (trace (snd (encodeMP4 b polls frames fps freshEncoder))) ->
      (queueSize <= 3)%nat)
  /\ (forall b polls frameDuration total i rest s,
        exists later,
          trace (snd (submitFrames b polls frameDuration total i rest s))
          = trace s ++ later
          /\ Forall withinThreshold later)
  /\ (forall b polls s s',
        waitForDrain b polls s = (Returned tt, s') ->
        (encodeQueueSize s' <= 3)%nat)
  /\ (waitForDrain steadyBrowser 2 (congested 5)
      = (Returned tt, mkEncoder 3 None 2 [EvWait 4 8; EvWait 5 8])
      /\ trace (snd (submitFrame steadyBrowser 2 (1000000 / 24) 1 0 "frame"
                       (congested 6)))
         = [EvDraw 0; EvWait 5 8; EvWait 4 8; EvEncode 0 0 41667 true 3;
            EvProgress 1 EncodingMP4])
  /\ (forall b polls s,
        (forall k, fst (encoderActivity b k) = 0%nat) ->
        (3 < encodeQueueSize s)%nat ->
        fst (waitForDrain b polls s) = Waiting
        /\ exists later,
             trace (snd (waitForDrain b polls s)) = trace s ++ later
             /\ Forall (fun ev => ~ isEncode ev) later).
Proof.
  split; [|split; [|split; [|split]]].
  - intros b polls frames fps i timestamp frameDuration keyFrame queueSize Hin.
    unfold trace in Hin. apply in_rev in Hin.
    destruct (encodeMP4_log b polls frames fps)
      as [Hnone|(url & rawW & rawH & new & _ & _ & Hnew & Hlog)].
    + exfalso. exact (proj1 (List.Forall_forall _ _) Hnone _ Hin I).
    + rewrite Hlog, in_app_iff in Hin. destruct Hin as [Hin|Hin].
      * exact (proj1 (List.Forall_forall _ _) Hnew _ Hin).
      * simpl in Hin. intuition discriminate.
  - intros b polls frameDuration total i rest s.
    apply grows_trace.
    exact (proj1 (triple_submitFrames b polls frameDuration total i rest s I)).
  - intros b polls s s' Hrun.
    pose proof (proj2 (triple_waitForDrain b polls (fun _ => True)
                         (fun _ _ => I) s I) tt) as Hq.
    rewrite Hrun in Hq. exact (Hq eq_refl).
  - split; reflexivity.
  - intros b polls s Hstall Hq.
    destruct (waitForDrain_stalled b polls s Hstall Hq) as (s' & Hrun & Hg).
    rewrite Hrun. split; [reflexivity|]. now apply grows_trace.
Qed.

Lemma encodeMP4_backpressure_witness :
  let run := encodeMP4 steadyBrowser 8 ["f0"; "f1"]%string 24 freshEncoder in
  ((forall k, fst (encoderActivity stalledBrowser k) = 0%nat)
   /\ (3 < encodeQueueSize (congested 5))%nat
   /\ In (EvEncode 1 41667 41667 false 0) (trace (snd run))
   /\ waitForDrain steadyBrowser 2 (congested 5)
      = (Returned tt, mkEncoder 3 None 2 [EvWait 4 8; EvWait 5 8]))
  /\ fst (waitForDrain stalledBrowser 100 (congested 5)) = Waiting
  /\ (0 <= 3)%nat
  /\ (encodeQueueSize (mkEncoder 3 None 2 [EvWait 4 8; EvWait 5 8]) <= 3)%nat.
Proof.
  cbv zeta.
  assert (In (EvEncode 1 41667 41667 false 0)
             (trace (snd (encodeMP4 steadyBrowser 8 ["f0"; "f1"]%string 24
                            freshEncoder)))) as Hin.
  { vm_compute. do 8 right. left. reflexivity. }
  split; [split; [reflexivity|split; [simpl; lia|split; [exact Hin|reflexivity]]]|].
  split; [|split].
  - exact (proj1 (proj2 (proj2 (proj2 (proj2 encodeMP4_backpressure)))
                    stalledBrowser 100%nat (congested 5)
                    (fun _ => eq_refl) ltac:(simpl; lia))).
  - exact (proj1 encodeMP4_backpressure steadyBrowser 8%nat
             ["f0"; "f1"]%string 24 _ _ _ _ _ Hin).
  - exact (proj1 (proj2 (proj2 encodeMP4_backpressure))
             steadyBrowser 2%nat (congested 5) _ eq_refl).
Defined.

(** ** The argument array is left alone *)

Lemma spread_fresh (a : nat) (heap : Store) l :
  heap !! a = Some l ->
  exists a', spread a heap = Some (a', <[a' := l]> heap) /\ heap !! a' = None.
Proof.
  intros Hl. unfold spread. rewrite Hl. simpl.
  exists (fresh (dom heap)). split; [reflexivity|].
  apply not_elem_of_dom, is_fresh.
Qed.

(** Sorting an array through its own reference does reorder it: the copy
    is what protects the argument. *)
Example sortInPlace_reorders :
  let heap : Store := {[ 0%nat := threePhotos ]} in
  exists heap', sortInPlace byZIndex 0 heap = Some (0%nat, heap')
                /\ heap' !! 0%nat
                   = Some [samplePhoto "a" 1; samplePhoto "b" 2; samplePhoto "c" 3]
                /\ heap' !! 0%nat <> heap !! 0%nat.
Proof.
  cbv zeta. eexists. split; [reflexivity|]. split; [reflexivity|]. discriminate.
Qed.

(** C10: [buildEffectPlan] returns its plan and leaves the array it was
    given, and every other array of the store, with the same elements in the
    same order; the array it sorts is a new one. *)
Theorem buildEffectPlan_leaves_photos (heap : Store) (photos : nat) l effect w h :
  heap !! photos = Some l ->
  exists plan heap',
    buildEffectPlanIn heap photos effect w h = Some (plan, heap')
    /\ plan = buildEffectPlan l effect w h
    /\ heap' !! photos = Some l
    /\ forall a, is_Some (heap !! a) -> heap' !! a = heap !! a.
Proof.
  intros Hl. unfold buildEffectPlanIn.
  destruct (spread_fresh photos heap l Hl) as (copy & -> & Hfresh). simpl.
  unfold sortInPlace. rewrite lookup_insert_eq. simpl.
  rewrite lookup_insert_eq. simpl.
  eexists _, _. split; [reflexivity|]. split; [reflexivity|].
  assert (forall a, is_Some (heap !! a) ->
                    <[copy := array_sort byZIndex l]> (<[copy := l]> heap) !! a
                    = heap !! a) as Hframe.
  { intros a [l' Ha]. rewrite !lookup_insert_ne; [reflexivity| |]; congruence. }
  split; [|exact Hframe]. rewrite Hframe; [exact Hl|eauto].
Qed.

Lemma buildEffectPlan_leaves_photos_witness :
  let heap : Store := {[ 7%nat := threePhotos ]} in
  heap !! 7%nat = Some threePhotos
  /\ exists plan heap',
       buildEffectPlanIn heap 7 flip 1280 720 = Some (plan, heap')
       /\ plan = buildEffectPlan threePhotos flip 1280 720
       /\ heap' !! 7%nat = Some threePhotos
       /\ forall a, is_Some (heap !! a) -> heap' !! a = heap !! a.
Proof.
  cbv zeta. split; [reflexivity|].
  exact (buildEffectPlan_leaves_photos {[ 7%nat := threePhotos ]} 7%nat
           threePhotos flip 1280 720 eq_refl).
Defined.
(** ** Sorting a sorted array, a filtered array, a mapped array *)

Lemma array_sort_sorted_id (l : list Photo.t) :
  Sorted (precedes byZIndex) l -> array_sort byZIndex l = l.
Proof.
  induction l as [|x l IH]; intros Hs; simpl; [reflexivity|].
  apply Sorted_inv in Hs as [Hs Hhd]. rewrite IH by assumption.
  destruct l as [|y l]; simpl; [reflexivity|].
  apply HdRel_inv in Hhd. unfold precedes in Hhd.
  apply Qle_bool_iff in Hhd. now rewrite Hhd.
Qed.

Lemma numbered_sorted (l : list Photo.t) :
  numbered l -> Sorted (precedes byZIndex) l.
Proof.
  induction l as [|x l IH] using rev_ind; intros Hn; [constructor|].
  assert (numbered l) as Hl.
  { intros i p Hi. apply Hn. now apply lookup_app_l_Some. }
  specialize (IH Hl).
  assert (forall y, In y l -> precedes byZIndex y x) as Hall.
  { intros y Hy. apply list_elem_of_In, list_elem_of_lookup in Hy as [i Hi].
    unfold precedes, byZIndex. rewrite (Hl i y Hi).
    rewrite (Hn (length l) x) by (now rewrite lookup_app_r, Nat.sub_diag by lia).
    pose proof (num_le i (length l)
                  ltac:(apply lookup_lt_Some in Hi; lia)). lra. }
  clear Hn Hl. induction l as [|y l IHl]; simpl.
  - repeat constructor.
  - apply Sorted_inv in IH as [IH Hhd]. constructor.
    + apply IHl; [assumption|]. intros z Hz. apply Hall. now right.
    + destruct l as [|z l]; simpl; constructor.
      * apply Hall. now left.
      * now apply HdRel_inv in Hhd.
Qed.

Lemma renumber_lookup (l : list Photo.t) (i : nat) :
  renumber l !! i = withZIndex (num i + 1) <$> l !! i.
Proof. unfold renumber. now rewrite list_lookup_imap. Qed.

Lemma renumber_numbered (l : list Photo.t) : numbered (renumber l).
Proof.
  intros i p. rewrite renumber_lookup.
  destruct (l !! i); simpl; [|discriminate]. now intros [= <-].
Qed.

Lemma renumber_ids (l : list Photo.t) :
  List.map Photo.id (renumber l) = List.map Photo.id l.
Proof.
  apply list_eq. intros i. rewrite !map_lookup, renumber_lookup.
  now destruct (l !! i).
Qed.

Lemma renumber_length (l : list Photo.t) : length (renumber l) = length l.
Proof. apply length_imap. Qed.

Lemma numbered_distinct (l : list Photo.t) : numbered l -> distinctZIndex l.
Proof.
  intros Hn i j p q Hi Hj Hne Heq.
  rewrite (Hn i p Hi), (Hn j q Hj) in Heq.
  assert (num i == num j) as H by lra.
  unfold num, Qeq in H. simpl in H. lia.
Qed.

Lemma stackOrder_renumber (l : list Photo.t) :
  stackOrder (renumber l) = List.map Photo.id l.
Proof.
  unfold stackOrder.
  rewrite array_sort_sorted_id by apply numbered_sorted, renumber_numbered.
  apply renumber_ids.
Qed.

(** ** The stacking handlers *)

Lemma stackOrder_lookup prev (k : nat) :
  stackOrder prev !! k = Photo.id <$> array_sort byZIndex prev !! k.
Proof. apply map_lookup. Qed.

Lemma stackOrder_length prev : length (stackOrder prev) = length prev.
Proof. unfold stackOrder. now rewrite length_map, array_sort_length. Qed.

Lemma findIndexById_Some id sorted index item :
  findIndexById id sorted = Some (index, item) <->
  sorted !! index = Some item
  /\ firstAt (List.map Photo.id sorted) id index.
Proof.
  unfold findIndexById, firstAt. rewrite list_find_Some. split.
  - intros (Hi & Hid & Hfirst). split; [assumption|]. split.
    + rewrite map_lookup, Hi. simpl. now rewrite Hid.
    + intros j Hj. rewrite map_lookup.
      destruct (sorted !! j) as [y|] eqn:Ey; simpl; [|discriminate].
      intros [= Hy]. exact (Hfirst j y Ey Hj Hy).
  - intros (Hi & Hid & Hfirst). split; [assumption|].
    rewrite map_lookup, Hi in Hid. simpl in Hid. split; [congruence|].
    intros j y Ey Hj Hy. apply (Hfirst j Hj).
    rewrite map_lookup, Ey. simpl. now rewrite Hy.
Qed.

Lemma firstAt_found prev id index :
  firstAt (stackOrder prev) id index ->
  exists item, findIndexById id (array_sort byZIndex prev) = Some (index, item).
Proof.
  intros Hf. pose proof Hf as [Hi _]. rewrite stackOrder_lookup in Hi.
  destruct (array_sort byZIndex prev !! index) as [item|] eqn:E; [|discriminate].
  exists item. apply findIndexById_Some. now split.
Qed.

Lemma findIndexById_None id sorted :
  findIndexById id sorted = None <-> ~ present sorted id.
Proof.
  unfold findIndexById. rewrite list_find_None, List.Forall_forall. split.
  - intros H (photo & Hin & Hid). exact (H photo Hin Hid).
  - intros H photo Hin Hid. apply H. now exists photo.
Qed.

Lemma present_sorted prev id :
  present (array_sort byZIndex prev) id <-> present prev id.
Proof.
  unfold present. split; intros (photo & Hin & Hid); exists photo;
    (split; [|assumption]); apply list_elem_of_In;
    apply list_elem_of_In in Hin.
  - now rewrite <- (array_sort_perm byZIndex prev).
  - now rewrite (array_sort_perm byZIndex prev).
Qed.

Lemma firstAt_present prev id index :
  firstAt (stackOrder prev) id index -> present prev id.
Proof.
  intros Hf. destruct (firstAt_found _ _ _ Hf) as [item Hitem].
  apply present_sorted.
  apply findIndexById_Some in Hitem as [Hi [Hid _]].
  exists item. split.
  - apply list_elem_of_In, list_elem_of_lookup. eauto.
  - rewrite map_lookup, Hi in Hid. simpl in Hid. congruence.
Qed.

Lemma present_firstAt prev id :
  present prev id -> exists index, firstAt (stackOrder prev) id index.
Proof.
  intros Hp. apply present_sorted in Hp.
  destruct (findIndexById id (array_sort byZIndex prev)) as [[index item]|] eqn:E.
  - exists index. now apply findIndexById_Some in E as [_ ?].
  - exfalso. now apply findIndexById_None in E.
Qed.

(** The stack after [handleBringToFront]. *)
Lemma handleBringToFront_order id prev index :
  firstAt (stackOrder prev) id index ->
  numbered (handleBringToFront id prev)
  /\ length (handleBringToFront id prev) = length prev
  /\ stackOrder (handleBringToFront id prev)
     = delete index (stackOrder prev) ++ [id].
Proof.
  intros Hf. destruct (firstAt_found _ _ _ Hf) as [item Hitem].
  unfold handleBringToFront. cbv zeta. rewrite Hitem.
  apply findIndexById_Some in Hitem as [Hi [Hid _]].
  split; [apply renumber_numbered|]. split.
  - rewrite renumber_length, length_app, length_delete by eauto.
    rewrite array_sort_length. apply lookup_lt_Some in Hi.
    rewrite array_sort_length in Hi. simpl. lia.
  - rewrite stackOrder_renumber, map_app. simpl. f_equal.
    + exact (list_fmap_delete Photo.id _ index).
    + rewrite map_lookup, Hi in Hid. simpl in Hid. congruence.
Qed.

(** Bringing a photo to the front renumbers the stack 1, 2, ... in array
    order, keeps the other photos in their stacking order and puts the
    photo last. *)
Theorem handleBringToFront_stack id prev index :
  firstAt (stackOrder prev) id index ->
  numbered (handleBringToFront id prev)
  /\ length (handleBringToFront id prev) = length prev
  /\ stackOrder (handleBringToFront id prev)
     = delete index (stackOrder prev) ++ [id].
Proof. exact (handleBringToFront_order id prev index). Qed.

Lemma handleBringToFront_stack_witness :
  firstAt (stackOrder threePhotos) "a" 0
  /\ stackOrder (handleBringToFront "a" threePhotos) = ["b"; "c"; "a"].
Proof.
  assert (firstAt (stackOrder threePhotos) "a" 0) as Hf
    by (split; [reflexivity|intros j Hj; lia]).
  split; [exact Hf|].
  exact (proj2 (proj2 (handleBringToFront_stack "a" threePhotos 0 Hf))).
Defined.

(** Sending a photo to the back renumbers the stack, keeps the other photos
    in their stacking order and puts the photo first. *)
Theorem handleSendToBack_stack id prev index :
  firstAt (stackOrder prev) id index ->
  numbered (handleSendToBack id prev)
  /\ length (handleSendToBack id prev) = length prev
  /\ stackOrder (handleSendToBack id prev)
     = id :: delete index (stackOrder prev).
Proof.
  intros Hf. destruct (firstAt_found _ _ _ Hf) as [item Hitem].
  unfold handleSendToBack. cbv zeta. rewrite Hitem.
  apply findIndexById_Some in Hitem as [Hi [Hid _]].
  split; [apply renumber_numbered|]. split.
  - rewrite renumber_length. simpl. rewrite length_delete by eauto.
    rewrite array_sort_length. apply lookup_lt_Some in Hi.
    rewrite array_sort_length in Hi. lia.
  - rewrite stackOrder_renumber. simpl. f_equal.
    + rewrite map_lookup, Hi in Hid. simpl in Hid. congruence.
    + exact (list_fmap_delete Photo.id _ index).
Qed.

Lemma handleSendToBack_stack_witness :
  firstAt (stackOrder threePhotos) "c" 2
  /\ stackOrder (handleSendToBack "c" threePhotos) = ["c"; "a"; "b"].
Proof.
  assert (firstAt (stackOrder threePhotos) "c" 2) as Hf.
  { split; [reflexivity|]. intros [|[|j]] Hj; [discriminate|discriminate|lia]. }
  split; [exact Hf|].
  exact (proj2 (proj2 (handleSendToBack_stack "c" threePhotos 2 Hf))).
Defined.

Lemma swapAt_lookup (i j k : nat) (a : list Photo.t) :
  (i < length a)%nat -> (j < length a)%nat ->
  swapAt i j a !! k = a !! exchange i j k.
Proof.
  intros Hi Hj. unfold swapAt, exchange.
  destruct (lookup_lt_is_Some_2 a i Hi) as [ai Eai].
  destruct (lookup_lt_is_Some_2 a j Hj) as [aj Eaj].
  rewrite Eai, Eaj.
  destruct (decide (k = i)) as [->|Hki].
  - destruct (decide (i = j)) as [->|Hij].
    + rewrite list_lookup_insert_eq by (now rewrite length_insert). congruence.
    + rewrite list_lookup_insert_ne by congruence.
      rewrite list_lookup_insert_eq by assumption. congruence.
  - destruct (decide (k = j)) as [->|Hkj].
    + rewrite list_lookup_insert_eq by (now rewrite length_insert). congruence.
    + now rewrite !list_lookup_insert_ne by congruence.
Qed.

Lemma swapAt_length (i j : nat) (a : list Photo.t) : length (swapAt i j a) = length a.
Proof.
  unfold swapAt. destruct (a !! i), (a !! j); try reflexivity.
  now rewrite !length_insert.
Qed.

(** Moving a photo one layer up or down renumbers the stack and exchanges
    the photo with its neighbour in the stacking order. *)
Theorem handleMoveLayer_stack id prev index :
  firstAt (stackOrder prev) id index ->
  ((index + 1 < length prev)%nat ->
   numbered (handleMoveLayer id up prev)
   /\ length (handleMoveLayer id up prev) = length prev
   /\ forall k : nat,
        stackOrder (handleMoveLayer id up prev) !! k
        = stackOrder prev !! exchange index (index + 1) k)
  /\ ((0 < index)%nat ->
      numbered (handleMoveLayer id down prev)
      /\ length (handleMoveLayer id down prev) = length prev
      /\ forall k : nat,
           stackOrder (handleMoveLayer id down prev) !! k
           = stackOrder prev !! exchange index (index - 1) k).
Proof.
  intros Hf. destruct (firstAt_found _ _ _ Hf) as [item Hitem].
  pose proof Hitem as [Hi _]%findIndexById_Some.
  apply lookup_lt_Some in Hi.
  pose proof (array_sort_length byZIndex prev) as Hlen.
  unfold handleMoveLayer. cbv zeta. rewrite Hitem. split; intros Hb.
  - destruct (Nat.eqb_spec index (length (array_sort byZIndex prev) - 1)); [lia|].
    split; [apply renumber_numbered|]. split.
    + now rewrite renumber_length, swapAt_length.
    + intros k. rewrite stackOrder_renumber, map_lookup, swapAt_lookup by lia.
      now rewrite stackOrder_lookup.
  - destruct (Nat.eqb_spec index 0); [lia|].
    split; [apply renumber_numbered|]. split.
    + now rewrite renumber_length, swapAt_length.
    + intros k. rewrite stackOrder_renumber, map_lookup, swapAt_lookup by lia.
      now rewrite stackOrder_lookup.
Qed.

Lemma handleMoveLayer_stack_witness :
  firstAt (stackOrder threePhotos) "a" 0
  /\ (0 + 1 < length threePhotos)%nat
  /\ stackOrder (handleMoveLayer "a" up threePhotos) !! 0%nat = Some "b"
  /\ stackOrder (handleMoveLayer "a" up threePhotos) !! 1%nat = Some "a".
Proof.
  assert (firstAt (stackOrder threePhotos) "a" 0) as Hf
    by (split; [reflexivity|intros j Hj; lia]).
  assert (0 + 1 < length threePhotos)%nat as Hlt by (simpl; lia).
  split; [exact Hf|]. split; [exact Hlt|].
  destruct (proj1 (handleMoveLayer_stack "a" threePhotos 0 Hf) Hlt)
    as (_ & _ & Hk).
  split; [exact (Hk 0%nat)|exact (Hk 1%nat)].
Defined.

(** The handlers leave the array untouched when no photo has the identity,
    when the top photo is moved up and when the bottom photo is moved
    down. *)
Theorem stacking_handlers_unchanged id prev :
  (~ present prev id ->
   handleBringToFront id prev = prev
   /\ handleSendToBack id prev = prev
   /\ forall direction, handleMoveLayer id direction prev = prev)
  /\ (firstAt (stackOrder prev) id (length prev - 1) ->
      handleMoveLayer id up prev = prev)
  /\ (firstAt (stackOrder prev) id 0 -> handleMoveLayer id down prev = prev).
Proof.
  split; [|split].
  - intros Habsent.
    assert (findIndexById id (array_sort byZIndex prev) = None) as Hnone
      by (apply findIndexById_None; now rewrite present_sorted).
    unfold handleBringToFront, handleSendToBack, handleMoveLayer.
    cbv zeta. rewrite Hnone. repeat split.
  - intros Hf. destruct (firstAt_found _ _ _ Hf) as [item Hitem].
    unfold handleMoveLayer. cbv zeta.
    rewrite Hitem, array_sort_length, Nat.eqb_refl. reflexivity.
  - intros Hf. destruct (firstAt_found _ _ _ Hf) as [item Hitem].
    unfold handleMoveLayer. cbv zeta. now rewrite Hitem.
Qed.

(** ** The planner on a stack *)

Lemma specs_ids sorted effect w h :
  List.map photoId (specs (planOfSorted sorted effect w h)) = List.map Photo.id sorted.
Proof.
  rewrite planOfSorted_specs. apply list_eq. intros i.
  rewrite !map_lookup, list_lookup_imap.
  destruct (sorted !! i) as [photo|]; simpl; [|reflexivity].
  now destruct (specFor_shape effect w h i photo) as [-> _].
Qed.

(** The plan has one spec per photo, in stacking order (back to front);
    the spec at position [i] ends in the resting state of its photo, starts
    at [firstDelay + i * stagger] and lasts the entrance duration of the
    effect; and no window ends after [totalDuration]. *)
Theorem buildEffectPlan_in_stack_order photos effect w h :
  let plan := buildEffectPlan photos effect w h in
  List.map photoId (specs plan) = stackOrder photos
  /\ length (specs plan) = length photos
  /\ forall (i : nat) spec,
       specs plan !! i = Some spec ->
       (exists photo,
           array_sort byZIndex photos !! i = Some photo
           /\ photoId spec = Photo.id photo
           /\ to_ spec = toState photo)
       /\ delay spec == firstDelay effect + num i * staggerOf effect
       /\ duration spec == enterDurationOf effect
       /\ delay spec + duration spec <= totalDuration plan.
Proof.
  cbv zeta. split; [apply specs_ids|]. split.
  - unfold buildEffectPlan, buildEffectPlanWith.
    now rewrite planOfSorted_specs, length_imap, array_sort_length.
  - intros i spec Hi.
    pose proof (planOfSorted_window _ _ _ _ _ _ Hi) as Hw.
    apply planOfSorted_lookup in Hi as (photo & Hphoto & ->).
    split; [|split; [|split]].
    + exists photo. split; [assumption|].
      destruct (specFor_shape effect w h i photo) as (Hid & Hto & _). now split.
    + destruct effect; cbn; lra.
    + destruct effect; cbn; lra.
    + exact Hw.
Qed.

Lemma renumber_fixed (l : list Photo.t) : numbered l -> renumber l = l.
Proof.
  intros Hn. apply list_eq. intros i. rewrite renumber_lookup.
  destruct (l !! i) as [p|] eqn:E; simpl; [|reflexivity].
  rewrite <- (Hn i p E). now destruct p.
Qed.

Lemma numbered_sort_fixed (l : list Photo.t) :
  numbered l -> array_sort byZIndex l = l.
Proof. intros Hn. now apply array_sort_sorted_id, numbered_sorted. Qed.

(** After a photo was brought to the front, the plan enters the photos in
    array order and the photo enters last. *)
Theorem plan_after_bring_to_front id prev index effect w h :
  firstAt (stackOrder prev) id index ->
  let plan := buildEffectPlan (handleBringToFront id prev) effect w h in
  List.map photoId (specs plan) = List.map Photo.id (handleBringToFront id prev)
  /\ List.map photoId (specs plan) = delete index (stackOrder prev) ++ [id]
  /\ last (List.map photoId (specs plan)) = Some id.
Proof.
  intros Hf plan.
  destruct (handleBringToFront_order id prev index Hf) as (Hn & _ & Hord).
  assert (List.map photoId (specs plan) = stackOrder (handleBringToFront id prev))
    as Hids by apply specs_ids.
  split; [|split].
  - rewrite Hids. unfold stackOrder. now rewrite numbered_sort_fixed.
  - now rewrite Hids.
  - rewrite Hids, Hord. apply last_snoc.
Qed.

Lemma plan_after_bring_to_front_witness :
  firstAt (stackOrder threePhotos) "a" 0
  /\ last (List.map photoId
             (specs (buildEffectPlan (handleBringToFront "a" threePhotos)
                       shuffle 1280 720)))
     = Some "a".
Proof.
  assert (firstAt (stackOrder threePhotos) "a" 0) as Hf
    by (split; [reflexivity|intros j Hj; lia]).
  split; [exact Hf|].
  exact (proj2 (proj2 (plan_after_bring_to_front "a" threePhotos 0
                         shuffle 1280 720 Hf))).
Defined.

Lemma sorted_ids_NoDup prev :
  NoDup (List.map Photo.id prev) -> NoDup (stackOrder prev).
Proof.
  intros H. unfold stackOrder.
  change (NoDup (Photo.id <$> array_sort byZIndex prev)).
  now rewrite (array_sort_perm byZIndex prev).
Qed.

Lemma firstAt_NoDup order id index :
  NoDup order -> order !! index = Some id -> firstAt order id index.
Proof.
  intros Hnd Hi. split; [assumption|]. intros j Hj Hj'.
  pose proof (NoDup_lookup _ _ _ _ Hnd Hi Hj'). lia.
Qed.

(** Bringing to the front twice is bringing to the front once, when
    identities are unique. *)
Theorem handleBringToFront_idempotent id prev :
  NoDup (List.map Photo.id prev) ->
  handleBringToFront id (handleBringToFront id prev) = handleBringToFront id prev.
Proof.
  intros Hnd.
  destruct (findIndexById id (array_sort byZIndex prev)) as [[index item]|] eqn:E.
  2:{ unfold handleBringToFront at 2. cbv zeta. rewrite E.
      unfold handleBringToFront. cbv zeta. now rewrite E. }
  assert (firstAt (stackOrder prev) id index) as Hf
    by (now apply findIndexById_Some in E as [_ ?]).
  destruct (handleBringToFront_order id prev index Hf) as (Hn & Hlen & Hord).
  set (R := handleBringToFront id prev) in *.
  pose proof (sorted_ids_NoDup prev Hnd) as Hnd'.
  assert (index < length (stackOrder prev))%nat as Hlt
    by (eapply lookup_lt_Some, Hf).
  rewrite stackOrder_length in Hlt.
  assert (firstAt (stackOrder R) id (length prev - 1)) as Hf'.
  { apply firstAt_NoDup.
    - rewrite Hord. apply NoDup_app. split; [|split].
      + eapply sublist_NoDup; [exact Hnd'|apply sublist_delete].
      + intros x Hx [->|[]]%list_elem_of_In.
        apply list_elem_of_lookup in Hx as [j Hj].
        destruct Hf as [Hi _].
        rewrite list_lookup_delete in Hj.
        destruct (decide (j < index)%nat).
        * pose proof (NoDup_lookup _ _ _ _ Hnd' Hi Hj). lia.
        * pose proof (NoDup_lookup _ _ _ _ Hnd' Hi Hj). lia.
      + apply NoDup_singleton.
    - assert (length (delete index (stackOrder prev)) = length prev - 1)%nat as Hd.
      { rewrite length_delete, stackOrder_length; [reflexivity|].
        apply lookup_lt_is_Some_2. rewrite stackOrder_length. lia. }
      rewrite Hord, lookup_app_r by lia. rewrite Hd, Nat.sub_diag. reflexivity. }
  destruct (firstAt_found _ _ _ Hf') as [item' Hitem'].
  unfold handleBringToFront at 1. cbv zeta. rewrite Hitem'.
  rewrite (numbered_sort_fixed R Hn) in *.
  apply findIndexById_Some in Hitem' as [Hi' _].
  assert (delete (length prev - 1)%nat R ++ [item'] = R) as ->.
  { apply list_eq. intros k.
    destruct (decide (k < length prev - 1)%nat).
    - rewrite lookup_app_l by (rewrite length_delete by eauto; lia).
      now rewrite list_lookup_delete_lt.
    - destruct (decide (k = length prev - 1)%nat) as [->|].
      + rewrite lookup_app_r by (rewrite length_delete by eauto; lia).
        rewrite length_delete by eauto. rewrite Hlen.
        replace (length prev - 1 - (length prev - 1))%nat with 0%nat by lia.
        simpl. now rewrite Hi'.
      + rewrite !lookup_ge_None_2; [reflexivity|lia|].
        rewrite length_app, length_delete by eauto. simpl. lia. }
  now apply renumber_fixed.
Qed.

Lemma handleBringToFront_idempotent_witness :
  NoDup (List.map Photo.id threePhotos)
  /\ handleBringToFront "a" (handleBringToFront "a" threePhotos)
     = handleBringToFront "a" threePhotos.
Proof.
  assert (NoDup (List.map Photo.id threePhotos)) as Hids
    by (apply (bool_decide_unpack _); vm_compute; exact I).
  split; [exact Hids|].
  exact (handleBringToFront_idempotent "a" threePhotos Hids).
Defined.

Lemma withZIndex_twice z z' p : withZIndex z (withZIndex z' p) = withZIndex z p.
Proof. reflexivity. Qed.

(** One layer up and then one layer down gives the stack back, renumbered,
    when identities are unique. *)
Theorem handleMoveLayer_up_down id prev index :
  NoDup (List.map Photo.id prev) ->
  firstAt (stackOrder prev) id index ->
  (index + 1 < length prev)%nat ->
  handleMoveLayer id down (handleMoveLayer id up prev)
  = renumber (array_sort byZIndex prev)
  /\ stackOrder (handleMoveLayer id down (handleMoveLayer id up prev))
     = stackOrder prev.
Proof.
  intros Hnd Hf Hb.
  pose proof (array_sort_length byZIndex prev) as Hlen.
  set (sorted := array_sort byZIndex prev) in *.
  assert (handleMoveLayer id up prev = renumber (swapAt index (index + 1) sorted))
    as Hup.
  { destruct (firstAt_found _ _ _ Hf) as [item Hitem].
    fold sorted in Hitem.
    unfold handleMoveLayer. cbv zeta. fold sorted. rewrite Hitem.
    destruct (Nat.eqb_spec index (length sorted - 1)); [lia|reflexivity]. }
  set (R1 := handleMoveLayer id up prev) in *.
  assert (numbered R1) as Hn1 by (rewrite Hup; apply renumber_numbered).
  assert (forall k : nat, R1 !! k
            = withZIndex (num k + 1) <$> sorted !! exchange index (index + 1) k)
    as Hlook.
  { intros k. rewrite Hup, renumber_lookup, swapAt_lookup by lia. reflexivity. }
  assert (findIndexById id R1 <> None) as Hsome.
  { rewrite findIndexById_None. intros Habs. apply Habs.
    destruct Hf as [Hi _]. rewrite stackOrder_lookup in Hi. fold sorted in Hi.
    destruct (sorted !! index) as [item|] eqn:E; [|discriminate].
    exists (withZIndex (num (index + 1) + 1) item). split.
    - apply list_elem_of_In, list_elem_of_lookup. exists (index + 1)%nat.
      rewrite Hlook. unfold exchange.
      destruct (decide (index + 1 = index)%nat); [lia|].
      destruct (decide (index + 1 = index + 1)%nat); [|lia]. now rewrite E.
    - simpl in *. congruence. }
  destruct (findIndexById id R1) as [[index1 item1]|] eqn:E1; [|congruence].
  assert (index1 = index + 1)%nat as ->.
  { apply findIndexById_Some in E1 as [Hi1 [Hid1 _]].
    rewrite map_lookup, Hlook in Hid1.
    destruct Hf as [Hi _]. rewrite stackOrder_lookup in Hi. fold sorted in Hi.
    destruct (sorted !! exchange index (index + 1) index1) as [q|] eqn:Eq;
      [|discriminate].
    simpl in Hid1.
    assert (stackOrder prev !! exchange index (index + 1) index1 = Some id) as Hj.
    { rewrite stackOrder_lookup. fold sorted. rewrite Eq. simpl. congruence. }
    assert (stackOrder prev !! index = Some id) as Hi'.
    { rewrite stackOrder_lookup. fold sorted. exact Hi. }
    pose proof (NoDup_lookup _ _ _ _ (sorted_ids_NoDup prev Hnd) Hi' Hj) as He.
    revert He. unfold exchange. repeat case_decide; lia. }
  assert (handleMoveLayer id down R1
          = renumber (swapAt (index + 1) (index + 1 - 1) R1)) as Hdown.
  { unfold handleMoveLayer. cbv zeta. rewrite (numbered_sort_fixed R1 Hn1), E1.
    destruct (Nat.eqb_spec (index + 1) 0); [lia|reflexivity]. }
  assert (length R1 = length prev) as Hlen1.
  { rewrite Hup, renumber_length, swapAt_length. exact Hlen. }
  assert (handleMoveLayer id down R1 = renumber sorted) as Hres.
  { rewrite Hdown. apply list_eq. intros k.
    rewrite !renumber_lookup, swapAt_lookup by lia. rewrite Hlook.
    replace (exchange index (index + 1) (exchange (index + 1) (index + 1 - 1) k))
      with k by (unfold exchange; repeat case_decide; lia).
    now destruct (sorted !! k). }
  split; [exact Hres|]. rewrite Hres. apply stackOrder_renumber.
Qed.

Lemma handleMoveLayer_up_down_witness :
  (NoDup (List.map Photo.id threePhotos)
   /\ firstAt (stackOrder threePhotos) "a" 0
   /\ (0 + 1 < length threePhotos)%nat)
  /\ stackOrder (handleMoveLayer "a" down (handleMoveLayer "a" up threePhotos))
     = stackOrder threePhotos.
Proof.
  assert (NoDup (List.map Photo.id threePhotos)) as Hids
    by (apply (bool_decide_unpack _); vm_compute; exact I).
  assert (firstAt (stackOrder threePhotos) "a" 0) as Hf
    by (split; [reflexivity|intros j Hj; lia]).
  assert (0 + 1 < length threePhotos)%nat as Hlt by (simpl; lia).
  split; [exact (conj Hids (conj Hf Hlt))|].
  exact (proj2 (handleMoveLayer_up_down "a" threePhotos 0 Hids Hf Hlt)).
Defined.

(** ** Sorting commutes with the other handlers *)

Lemma sort_insert_map {A : Type} (cmp : A -> A -> Q) (f : A -> A) x l :
  (forall a b, cmp (f a) (f b) = cmp a b) ->
  sort_insert cmp (f x) (List.map f l) = List.map f (sort_insert cmp x l).
Proof.
  intros Hf. induction l as [|y l IH]; simpl; [reflexivity|].
  rewrite Hf. destruct (Qle_bool (cmp x y) 0); simpl; [reflexivity|].
  now rewrite IH.
Qed.

Lemma array_sort_map {A : Type} (cmp : A -> A -> Q) (f : A -> A) l :
  (forall a b, cmp (f a) (f b) = cmp a b) ->
  array_sort cmp (List.map f l) = List.map f (array_sort cmp l).
Proof.
  intros Hf. induction l as [|x l IH]; simpl; [reflexivity|].
  now rewrite IH, sort_insert_map.
Qed.

Lemma sort_insert_filter (P : Photo.t -> Prop) `{!forall p, Decision (P p)} x l :
  Sorted (precedes byZIndex) l ->
  filter P (sort_insert byZIndex x l)
  = if decide (P x) then sort_insert byZIndex x (filter P l) else filter P l.
Proof.
  induction l as [|y l IH]; intros Hs; simpl.
  - rewrite filter_cons, filter_nil. now destruct (decide (P x)).
  - assert (StronglySorted (precedes byZIndex) (y :: l)) as Hss
      by (apply Sorted_StronglySorted; try apply _; exact Hs).
    apply StronglySorted_inv in Hss as [_ Hy_all].
    apply Sorted_inv in Hs as [Hs Hhd].
    destruct (Qle_bool (byZIndex x y) 0) eqn:E.
    + rewrite filter_cons. destruct (decide (P x)) as [Hx|Hx]; [|reflexivity].
      rewrite filter_cons. destruct (decide (P y)) as [Hy|Hy].
      * simpl. now rewrite E.
      * (* [y] is dropped: [x] still precedes what follows *)
        apply Qle_bool_iff in E.
        assert (Forall (fun q => precedes byZIndex x q) l) as Hall.
        { apply List.Forall_forall. intros q Hq.
          pose proof (proj1 (List.Forall_forall _ _) Hy_all q Hq) as Hyq.
          unfold precedes, byZIndex in *. lra. }
        clear -Hall. induction l as [|z l IHl]; simpl.
        -- now rewrite filter_nil.
        -- rewrite filter_cons. apply List.Forall_inv in Hall as Hz.
           apply List.Forall_inv_tail in Hall.
           destruct (decide (P z)).
           ++ simpl. unfold precedes in Hz. apply Qle_bool_iff in Hz.
              now rewrite Hz.
           ++ now apply IHl.
    + rewrite !filter_cons, IH by assumption.
      destruct (decide (P y)), (decide (P x)); simpl; try reflexivity.
      now rewrite E.
Qed.

Lemma array_sort_filter (P : Photo.t -> Prop) `{!forall p, Decision (P p)} l :
  array_sort byZIndex (filter P l) = filter P (array_sort byZIndex l).
Proof.
  induction l as [|x l IH]; simpl; [reflexivity|].
  rewrite filter_cons, sort_insert_filter by apply array_sort_sorted.
  destruct (decide (P x)); simpl; now rewrite IH.
Qed.

Lemma sort_insert_below (x : Photo.t) (l above : list Photo.t) :
  Forall (fun q => precedes byZIndex x q) above ->
  sort_insert byZIndex x (l ++ above) = sort_insert byZIndex x l ++ above.
Proof.
  intros Hall. induction l as [|y l IH]; simpl.
  - destruct above as [|q above]; simpl; [reflexivity|].
    apply List.Forall_inv in Hall. unfold precedes in Hall.
    apply Qle_bool_iff in Hall. now rewrite Hall.
  - destruct (Qle_bool (byZIndex x y) 0); simpl; [reflexivity|]. now rewrite IH.
Qed.

Lemma array_sort_app_above (l above : list Photo.t) :
  Sorted (precedes byZIndex) above ->
  (forall p q, In p l -> In q above -> precedes byZIndex p q) ->
  array_sort byZIndex (l ++ above) = array_sort byZIndex l ++ above.
Proof.
  intros Hs Hall. induction l as [|x l IH]; simpl.
  - now apply array_sort_sorted_id.
  - rewrite IH by (intros p q Hp Hq; apply Hall; [now right|assumption]).
    apply sort_insert_below. apply List.Forall_forall. intros q Hq.
    apply Hall; [now left|assumption].
Qed.

(** ** Distinct stacking orders *)

Lemma distinctZIndex_cons x l :
  distinctZIndex (x :: l) <->
  (forall q, In q l -> ~ Photo.zIndex x == Photo.zIndex q) /\ distinctZIndex l.
Proof.
  split.
  - intros Hd. split.
    + intros q Hq. apply list_elem_of_In, list_elem_of_lookup in Hq as [j Hj].
      apply (Hd 0%nat (S j) x q); [reflexivity|exact Hj|lia].
    + intros i j p q Hi Hj Hne. apply (Hd (S i) (S j) p q); [exact Hi|exact Hj|lia].
  - intros [Hx Hd] i j p q Hi Hj Hne.
    destruct i as [|i], j as [|j]; simpl in *; try lia.
    + injection Hi as <-. apply Hx, list_elem_of_In, list_elem_of_lookup. eauto.
    + injection Hj as <-. intros Heq. symmetry in Heq. revert Heq.
      apply Hx, list_elem_of_In, list_elem_of_lookup. eauto.
    + apply (Hd i j); [assumption|assumption|lia].
Qed.

Lemma distinctZIndex_filter (P : Photo.t -> Prop) `{!forall p, Decision (P p)} l :
  distinctZIndex l -> distinctZIndex (filter P l).
Proof.
  induction l as [|x l IH]; intros Hd; [exact Hd|].
  apply distinctZIndex_cons in Hd as [Hx Hd]. rewrite filter_cons.
  destruct (decide (P x)); [|now apply IH].
  apply distinctZIndex_cons. split; [|now apply IH].
  intros q Hq. apply Hx. apply list_elem_of_In in Hq.
  apply list_elem_of_filter in Hq as [_ Hq]. now apply list_elem_of_In.
Qed.

Lemma distinctZIndex_app l1 l2 :
  distinctZIndex l1 -> distinctZIndex l2 ->
  (forall p q, In p l1 -> In q l2 -> Photo.zIndex p < Photo.zIndex q) ->
  distinctZIndex (l1 ++ l2).
Proof.
  intros H1 H2 H12. induction l1 as [|x l1 IH]; [exact H2|].
  apply distinctZIndex_cons in H1 as [Hx H1]. simpl.
  apply distinctZIndex_cons. split.
  - intros q Hq. apply in_app_iff in Hq as [Hq|Hq]; [now apply Hx|].
    pose proof (H12 x q ltac:(now left) Hq). lra.
  - apply IH; [assumption|]. intros p q Hp Hq. apply H12; [now right|assumption].
Qed.

Lemma distinctZIndex_map (f : Photo.t -> Photo.t) l :
  (forall p, Photo.zIndex (f p) = Photo.zIndex p) ->
  distinctZIndex l -> distinctZIndex (List.map f l).
Proof.
  intros Hf Hd i j p q Hi Hj Hne. rewrite map_lookup in Hi, Hj.
  destruct (l !! i) as [p'|] eqn:Ei; [|discriminate].
  destruct (l !! j) as [q'|] eqn:Ej; [|discriminate].
  simpl in Hi, Hj. injection Hi as <-. injection Hj as <-.
  rewrite !Hf. now apply (Hd i j).
Qed.

(** ** Removing, moving, scaling and adding photos *)

Lemma filter_ids (id : string) (l : list Photo.t) :
  List.map Photo.id (filter (fun p => Photo.id p <> id) l)
  = filter (fun i => i <> id) (List.map Photo.id l).
Proof.
  induction l as [|x l IH]; [reflexivity|]. simpl.
  rewrite !filter_cons. destruct (decide (Photo.id x <> id)); simpl; now rewrite IH.
Qed.

(** Removing a photo drops every photo of that identity and nothing else:
    the others keep their fields and their stacking order, and distinct
    stacking orders stay distinct. *)
Theorem handleRemovePhoto_stack id prev :
  ~ present (handleRemovePhoto id prev) id
  /\ (forall p, In p prev -> Photo.id p <> id -> In p (handleRemovePhoto id prev))
  /\ (forall p, In p (handleRemovePhoto id prev) -> In p prev)
  /\ stackOrder (handleRemovePhoto id prev)
     = filter (fun i => i <> id) (stackOrder prev)
  /\ (distinctZIndex prev -> distinctZIndex (handleRemovePhoto id prev)).
Proof.
  unfold handleRemovePhoto. split; [|split; [|split; [|split]]].
  - intros (p & Hin & Hid). apply list_elem_of_In in Hin.
    apply list_elem_of_filter in Hin as [Hne _]. contradiction.
  - intros p Hin Hne. apply list_elem_of_In, list_elem_of_filter.
    split; [assumption|now apply list_elem_of_In].
  - intros p Hin. apply list_elem_of_In in Hin.
    apply list_elem_of_filter in Hin as [_ Hin]. now apply list_elem_of_In.
  - unfold stackOrder. now rewrite array_sort_filter, filter_ids.
  - apply distinctZIndex_filter.
Qed.

(** Moving a photo and rescaling the photos change neither the stacking
    order nor any [zIndex]; moving touches only the photos of the given
    identity, which get the new position. *)
Theorem position_and_scale_keep_stack id x y newScale prev :
  stackOrder (handleUpdatePosition id x y prev) = stackOrder prev
  /\ stackOrder (handleGlobalScale newScale prev) = stackOrder prev
  /\ List.map Photo.zIndex (handleUpdatePosition id x y prev)
     = List.map Photo.zIndex prev
  /\ List.map Photo.zIndex (handleGlobalScale newScale prev)
     = List.map Photo.zIndex prev
  /\ (forall (i : nat) p,
        prev !! i = Some p ->
        handleUpdatePosition id x y prev !! i
        = Some (if decide (Photo.id p = id) then withPosition x y p else p))
  /\ (forall p, In p (handleGlobalScale newScale prev) -> Photo.scale p = newScale).
Proof.
  unfold handleUpdatePosition, handleGlobalScale, stackOrder.
  split; [|split; [|split; [|split; [|split]]]].
  - rewrite array_sort_map, List.map_map.
    + apply List.map_ext. intros p. now destruct (decide _).
    + intros a b. unfold byZIndex. now destruct (decide _), (decide _).
  - rewrite array_sort_map, List.map_map by reflexivity. reflexivity.
  - rewrite List.map_map. apply List.map_ext. intros p. now destruct (decide _).
  - now rewrite List.map_map.
  - intros i p Hi. now rewrite map_lookup, Hi.
  - intros p Hin. apply in_map_iff in Hin as (q & <- & _). reflexivity.
Qed.

Lemma foldl_max_ge (z : Q) (zs : list Q) :
  z <= foldl Math_max z zs /\ forall y, In y zs -> y <= foldl Math_max z zs.
Proof.
  revert z. induction zs as [|y zs IH]; intros z; simpl.
  - split; [apply Qle_refl|]. intros y [].
  - destruct (IH (Math_max z y)) as [Hm Hall]. split.
    + eapply Qle_trans; [apply Math_max_ge_l|exact Hm].
    + intros y' [<-|Hy']; [|now apply Hall].
      eapply Qle_trans; [apply Math_max_ge_r|exact Hm].
Qed.

Lemma currentMaxZ_ge prev p : In p prev -> Photo.zIndex p <= currentMaxZ prev.
Proof.
  intros Hin. unfold currentMaxZ.
  apply (in_map Photo.zIndex) in Hin.
  destruct (List.map Photo.zIndex prev) as [|z zs]; [destruct Hin|].
  destruct (foldl_max_ge z zs) as [Hz Hzs].
  destruct Hin as [<-|Hin]; [exact Hz|now apply Hzs].
Qed.

Lemma Sorted_lookup {A : Type} (R : relation A) (l : list A) :
  (forall (i : nat) a b, l !! i = Some a -> l !! S i = Some b -> R a b) ->
  Sorted R l.
Proof.
  induction l as [|x l IH]; intros H; constructor.
  - apply IH. intros i a b Ha Hb. exact (H (S i) a b Ha Hb).
  - destruct l as [|y l]; constructor. exact (H 0%nat x y eq_refl eq_refl).
Qed.

(** Uploaded photos are stacked above the present ones, in upload order,
    and distinct stacking orders stay distinct. *)
Theorem addUploaded_stack newPhotoData prev :
  stackOrder (addUploaded newPhotoData prev)
  = stackOrder prev ++ List.map Photo.id newPhotoData
  /\ (forall (i : nat) data,
        newPhotoData !! i = Some data ->
        addUploaded newPhotoData prev !! (length prev + i)%nat
        = Some (withZIndex (currentMaxZ prev + num i + 1) data)
        /\ forall p, In p prev -> Photo.zIndex p < currentMaxZ prev + num i + 1)
  /\ (distinctZIndex prev -> distinctZIndex (addUploaded newPhotoData prev)).
Proof.
  unfold addUploaded.
  set (added := imap (fun index data =>
                        withZIndex (currentMaxZ prev + num index + 1) data)
                     newPhotoData).
  assert (forall (i : nat) q, added !! i = Some q ->
            Photo.zIndex q = currentMaxZ prev + num i + 1) as Hz.
  { intros i q. unfold added. rewrite list_lookup_imap.
    destruct (newPhotoData !! i); simpl; [|discriminate]. now intros [= <-]. }
  assert (forall p q, In p prev -> In q added -> Photo.zIndex p < Photo.zIndex q)
    as Habove.
  { intros p q Hp Hq. apply list_elem_of_In, list_elem_of_lookup in Hq as [i Hi].
    rewrite (Hz i q Hi). pose proof (currentMaxZ_ge prev p Hp).
    pose proof (num_nonneg i). lra. }
  assert (forall (i j : nat) p q, added !! i = Some p -> added !! j = Some q ->
            (i < j)%nat -> Photo.zIndex p < Photo.zIndex q) as Hinc.
  { intros i j p q Hi Hj Hij. rewrite (Hz i p Hi), (Hz j q Hj).
    pose proof (num_lt i j Hij). lra. }
  split; [|split].
  - unfold stackOrder. rewrite array_sort_app_above.
    + rewrite map_app. f_equal. unfold added. apply list_eq. intros i.
      rewrite !map_lookup, list_lookup_imap. now destruct (newPhotoData !! i).
    + apply Sorted_lookup. intros i a b Ha Hb.
      pose proof (Hinc i (S i) a b Ha Hb ltac:(lia)).
      unfold precedes, byZIndex. lra.
    + intros p q Hp Hq. pose proof (Habove p q Hp Hq).
      unfold precedes, byZIndex. lra.
  - intros i data Hi. split.
    + rewrite lookup_app_r by lia.
      replace (length prev + i - length prev)%nat with i by lia.
      unfold added. now rewrite list_lookup_imap, Hi.
    + intros p Hp. pose proof (currentMaxZ_ge prev p Hp).
      pose proof (num_nonneg i). lra.
  - intros Hd. apply distinctZIndex_app; [assumption| |assumption].
    intros i j p q Hi Hj Hne.
    destruct (Nat.lt_total i j) as [Hij|[->|Hij]]; [|congruence|].
    + pose proof (Hinc i j p q Hi Hj Hij). lra.
    + pose proof (Hinc j i q p Hj Hi Hij). lra.
Qed.

(** ** The layer sidebar *)

Lemma sort_insert_sorted_desc (x : Photo.t) (l : list Photo.t) :
  Sorted (precedes byZIndexDesc) l ->
  Sorted (precedes byZIndexDesc) (sort_insert byZIndexDesc x l).
Proof.
  induction l as [|y l IH]; simpl; intros Hs.
  - repeat constructor.
  - destruct (Qle_bool (byZIndexDesc x y) 0) eqn:E.
    + constructor; [assumption|]. constructor. now apply Qle_bool_iff.
    + apply Sorted_inv in Hs as [Hs Hhd]. constructor; [now apply IH|].
      apply Qle_bool_false in E.
      destruct l as [|z l]; simpl.
      * constructor. unfold precedes, byZIndexDesc in *. lra.
      * destruct (Qle_bool (byZIndexDesc x z) 0).
        -- constructor. unfold precedes, byZIndexDesc in *. lra.
        -- constructor. now apply HdRel_inv in Hhd.
Qed.

Lemma sortedPhotos_sorted photos :
  Sorted (precedes byZIndexDesc) (sortedPhotos photos).
Proof.
  unfold sortedPhotos. induction photos as [|x l IH]; simpl; [constructor|].
  now apply sort_insert_sorted_desc.
Qed.

Lemma reverse_descending (l : list Photo.t) :
  distinctZIndex l -> Sorted (precedes byZIndexDesc) l ->
  array_sort byZIndex l = reverse l.
Proof.
  intros Hd Hs. apply (sorted_copy_unique l); try assumption.
  - apply array_sort_perm.
  - apply reverse_Permutation.
  - apply array_sort_sorted.
  - exact (Sorted_reverse _ _ Hs).
Qed.

Lemma handleLayerReorder_lookup l (i : nat) :
  handleLayerReorder l !! i
  = withZIndex (num (length l) - num i) <$> l !! i.
Proof. unfold handleLayerReorder. now rewrite list_lookup_imap. Qed.

Lemma handleLayerReorder_descends l (i j : nat) p q :
  handleLayerReorder l !! i = Some p -> handleLayerReorder l !! j = Some q ->
  (i < j)%nat -> Photo.zIndex q < Photo.zIndex p.
Proof.
  rewrite !handleLayerReorder_lookup. intros Hi Hj Hij.
  destruct (l !! i); [|discriminate]. destruct (l !! j); [|discriminate].
  simpl in Hi, Hj. injection Hi as <-. injection Hj as <-. simpl.
  pose proof (num_lt i j Hij). lra.
Qed.

(** The sidebar lists the front photo first.  A reordered list becomes the
    stack whose back-to-front order is the list reversed, with the stacking
    orders N, ..., 1 from the top of the list; and handing the sidebar's own
    list back changes nothing in the stacking order. *)
Theorem handleLayerReorder_stack :
  (forall reordered,
      stackOrder (handleLayerReorder reordered)
      = reverse (List.map Photo.id reordered)
      /\ distinctZIndex (handleLayerReorder reordered)
      /\ forall (i : nat) p,
           handleLayerReorder reordered !! i = Some p ->
           Photo.zIndex p == num (length reordered - i))
  /\ (forall photos,
        distinctZIndex photos ->
        List.map Photo.id (sortedPhotos photos) = reverse (stackOrder photos)
        /\ stackOrder (handleLayerReorder (sortedPhotos photos))
           = stackOrder photos).
Proof.
  assert (forall reordered,
             stackOrder (handleLayerReorder reordered)
             = reverse (List.map Photo.id reordered)) as Hrev.
  { intros l. unfold stackOrder. rewrite reverse_descending.
    - change (Photo.id <$> reverse (handleLayerReorder l)
              = reverse (Photo.id <$> l)).
      rewrite fmap_reverse. f_equal. apply list_eq. intros i.
      rewrite !list_lookup_fmap, handleLayerReorder_lookup.
      now destruct (l !! i).
    - intros i j p q Hi Hj Hne.
      destruct (Nat.lt_total i j) as [Hij|[->|Hij]]; [|congruence|].
      + pose proof (handleLayerReorder_descends l i j p q Hi Hj Hij). lra.
      + pose proof (handleLayerReorder_descends l j i q p Hj Hi Hij). lra.
    - apply Sorted_lookup. intros i a b Ha Hb.
      pose proof (handleLayerReorder_descends l i (S i) a b Ha Hb ltac:(lia)).
      unfold precedes, byZIndexDesc. lra. }
  split.
  - intros l. split; [apply Hrev|]. split.
    + intros i j p q Hi Hj Hne.
      destruct (Nat.lt_total i j) as [Hij|[->|Hij]]; [|congruence|].
      * pose proof (handleLayerReorder_descends l i j p q Hi Hj Hij). lra.
      * pose proof (handleLayerReorder_descends l j i q p Hj Hi Hij). lra.
    + intros i p. rewrite handleLayerReorder_lookup.
      destruct (l !! i) eqn:E; simpl; [|discriminate]. intros [= <-]. simpl.
      apply lookup_lt_Some in E. unfold num.
      rewrite Nat2Z.inj_sub by lia. unfold Zminus.
      rewrite inject_Z_plus, inject_Z_opp. reflexivity.
  - intros photos Hd.
    assert (array_sort byZIndex photos = reverse (sortedPhotos photos)) as Hs.
    { apply (sorted_copy_unique photos); try assumption.
      - apply array_sort_perm.
      - rewrite reverse_Permutation. apply array_sort_perm.
      - apply array_sort_sorted.
      - exact (Sorted_reverse _ _ (sortedPhotos_sorted photos)). }
    assert (List.map Photo.id (sortedPhotos photos) = reverse (stackOrder photos))
      as Hids.
    { unfold stackOrder. rewrite Hs.
      change (Photo.id <$> sortedPhotos photos
              = reverse (Photo.id <$> reverse (sortedPhotos photos))).
      now rewrite fmap_reverse, reverse_involutive. }
    split; [exact Hids|]. now rewrite Hrev, Hids, reverse_involutive.
Qed.

(** ** The shape of a successful encoding *)

Lemma skeleton_app l1 l2 : skeleton (l1 ++ l2) = skeleton l1 ++ skeleton l2.
Proof. unfold skeleton. apply flat_map_app. Qed.

Lemma skeleton_rev l : skeleton (rev l) = rev (skeleton l).
Proof.
  induction l as [|ev l IH]; [reflexivity|]. simpl.
  rewrite skeleton_app, IH. change (skeleton (ev :: l)) with (plainEvent ev ++ skeleton l).
  rewrite rev_app_distr. f_equal. simpl. rewrite app_nil_r.
  now destruct ev.
Qed.

(** A step that always returns and changes the state by [f]. *)
Lemma triple_total (f : Encoder -> Encoder) (P : Encoder -> Prop)
    (Q : unit -> Encoder -> Prop) E :
  (forall s, P s -> grows E s (f s) /\ Q tt (f s)) ->
  triple P (fun s => (Returned tt, f s)) Q E.
Proof.
  intros H s Hs. destruct (H s Hs) as [Hg Hq]. split; [exact Hg|].
  now intros [] _.
Qed.

Section Skeleton.
Variable b : Browser.
Variable L : list EncoderEvent.

Lemma logged_emit ev new :
  triple (logged b L new) (emit ev) (fun _ => logged b L (plainEvent ev ++ new))
         (fun _ => True).
Proof.
  apply triple_total. intros s [Hs Herr]. split.
  - exists [ev]. split; [reflexivity|]. now constructor.
  - split; [|exact Herr]. simpl.
    change (skeleton (ev :: log s)) with (plainEvent ev ++ skeleton (log s)).
    now rewrite Hs, app_assoc.
Qed.

Lemma logged_suspend new :
  triple (logged b L new) (suspend b) (fun _ => logged b L new) (fun _ => True).
Proof.
  intros s [Hs Herr]. unfold suspend.
  destruct (encoderActivity b (suspensions s)) as [finished failure] eqn:Ea.
  split; [now apply grows_same_log|]. intros [] _. split; [exact Hs|].
  simpl. intros k Hk Hraised.
  destruct (decide (k = suspensions s)) as [->|Hne].
  - rewrite Ea in Hraised. simpl in Hraised. now destruct failure.
  - destruct failure; [discriminate|]. apply (Herr k); [lia|assumption].
Qed.

Lemma logged_waitForDrain polls new :
  triple (logged b L new) (waitForDrain b polls) (fun _ => logged b L new)
         (fun _ => True).
Proof.
  induction polls as [|polls IH]; intros s Hs; simpl.
  - destruct (3 <? encodeQueueSize s)%nat; simpl.
    + split; [apply grows_refl|discriminate].
    + split; [apply grows_refl|]. now intros _ _.
  - destruct (3 <? encodeQueueSize s)%nat; simpl.
    + assert (triple (logged b L new)
                (emit (EvWait (encodeQueueSize s) 8) ;; suspend b ;;
                 waitForDrain b polls)
                (fun _ => logged b L new) (fun _ => True)) as Hbody.
      { eapply triple_bind; [apply logged_emit|]. intro; cbv beta.
        eapply triple_bind; [apply logged_suspend|]. intro; cbv beta.
        exact IH. }
      exact (Hbody s Hs).
    + split; [apply grows_refl|]. now intros _ _.
Qed.

Lemma logged_decodeFrame i frame new :
  triple (logged b L new) (decodeFrame b (suspend b) i frame)
         (fun _ => logged b L new) (fun _ => True).
Proof.
  unfold decodeFrame. destruct frame as [url|]; [|apply triple_throw].
  destruct (bitmapSize b url).
  - eapply triple_bind; [apply logged_suspend|]. intro; cbv beta.
    apply triple_ret.
  - eapply triple_bind; [apply logged_suspend|]. intro; cbv beta.
    apply triple_throw.
Qed.

Lemma logged_encodeFrame i timestamp frameDuration keyFrame new :
  triple (logged b L new) (encodeFrame i timestamp frameDuration keyFrame)
         (fun _ => logged b L (EvEncode i timestamp frameDuration keyFrame 0 :: new))
         (fun _ => True).
Proof.
  apply triple_total. intros s [Hs Herr]. split.
  - eexists [_]. split; [reflexivity|]. now constructor.
  - split; [|exact Herr]. simpl.
    change (skeleton (?ev :: log s)) with (plainEvent ev ++ skeleton (log s)).
    now rewrite Hs.
Qed.

Lemma logged_submitFrame polls fps total i url new :
  triple (logged b L new) (submitFrame b polls (1000000 / fps) total i url)
         (fun _ => logged b L (rev (frameEvents fps total i) ++ new))
         (fun _ => True).
Proof.
  unfold submitFrame.
  eapply triple_bind; [apply triple_checkError|]. intro; cbv beta.
  eapply triple_bind; [apply logged_decodeFrame|]. intro; cbv beta.
  eapply triple_bind; [apply logged_emit|]. intro; cbv beta.
  eapply triple_bind; [apply logged_waitForDrain|]. intro; cbv beta.
  eapply triple_bind; [apply triple_checkError|]. intro; cbv beta.
  eapply triple_bind; [apply logged_encodeFrame|]. intro; cbv beta.
  eapply triple_bind; [apply logged_emit|]. intro; cbv beta.
  apply logged_suspend.
Qed.

Lemma logged_submitFrames polls fps total i rest new :
  triple (logged b L new) (submitFrames b polls (1000000 / fps) total i rest)
         (fun _ =>
            logged b L (rev (flat_map (frameEvents fps total) (seq i (length rest)))
                    ++ new))
         (fun _ => True).
Proof.
  revert i new. induction rest as [|url rest IH]; intros i new.
  - apply triple_ret.
  - cbn [submitFrames].
    eapply triple_bind; [apply logged_submitFrame|]. intro; cbv beta.
    eapply triple_weaken; [apply IH|intros ? H; exact H|].
    intros ? s [Hs Herr]. split; [|exact Herr]. rewrite Hs.
    cbn [seq flat_map length]. rewrite rev_app_distr.
    now rewrite <- !app_assoc.
Qed.

(** Flushing, the last error check and the finalisation: they return only
    if no error is held, with an empty queue. *)
Lemma logged_finish (mp4 : Mp4) new :
  triple (logged b L new)
    (flush b ;; checkError ;; emit EvClose ;; emit EvFinalize ;;
     emit (EvProgress 1 Done) ;; ret mp4)
    (fun a s =>
       a = mp4
       /\ encodeQueueSize s = 0%nat
       /\ encodeError s = None
       /\ logged b L ([EvProgress 1 Done; EvFinalize; EvClose; EvFlush] ++ new) s)
    (fun _ => True).
Proof.
  intros s [Hs Herr].
  split.
  - assert (triple (fun _ => True)
              (flush b ;; checkError ;; emit EvClose ;; emit EvFinalize ;;
               emit (EvProgress 1 Done) ;; ret mp4)
              (fun _ _ => True) (fun _ => True)) as Hany.
    { eapply triple_bind; [now apply triple_flush|]. intro; cbv beta.
      eapply triple_bind; [apply triple_checkError|]. intro; cbv beta.
      eapply triple_bind; [now apply triple_emit|]. intro; cbv beta.
      eapply triple_bind; [now apply triple_emit|]. intro; cbv beta.
      eapply triple_bind; [now apply triple_emit|]. intro; cbv beta.
      apply triple_ret. }
    exact (proj1 (Hany s I)).
  - unfold flush, bind, emit, checkError, ret. simpl.
    destruct (encoderActivity b (suspensions s)) as [finished failure] eqn:Ea.
    simpl. destruct failure as [e|]; simpl; [discriminate|].
    destruct (encodeError s) as [e|] eqn:Ee; simpl; [discriminate|].
    intros a [= <-]. repeat split.
    + simpl. change (skeleton (?a :: ?b :: ?c :: ?d :: log s))
        with (plainEvent a ++ plainEvent b ++ plainEvent c ++ plainEvent d
              ++ skeleton (log s)).
      now rewrite Hs.
    + simpl. intros k Hk Hraised. exfalso.
      destruct (decide (k = suspensions s)) as [->|Hne].
      * rewrite Ea in Hraised. now simpl in Hraised.
      * apply (Herr k); [lia|assumption|reflexivity].
Qed.
End Skeleton.

(** The run of a call that returns a file. *)
Lemma encodeMP4_success b polls frames fps mp4 :
  fst (encodeMP4 b polls frames fps freshEncoder) = Returned mp4 ->
  let s' := snd (encodeMP4 b polls frames fps freshEncoder) in
  exists url rawW rawH,
    let encW := evenDimension rawW in
    let encH := evenDimension rawH in
    let codec := avcCodecForSize encW encH in
    hasVideoEncoder b = true
    /\ frames !! 0%nat = Some url
    /\ bitmapSize b url = Some (rawW, rawH)
    /\ isConfigSupported b codec encW encH = true
    /\ mp4 = mkMp4 codec encW encH (length frames)
    /\ skeleton (trace s')
       = [EvProgress 0 PreparingEncoder; EvProgress 0.01 PreparingEncoder;
          EvIsConfigSupported codec encW encH true;
          EvConfigure codec encW encH 8000000 fps]
         ++ flat_map (frameEvents fps (length frames)) (seq 0 (length frames))
         ++ [EvFlush; EvClose; EvFinalize; EvProgress 1 Done]
    /\ encodeQueueSize s' = 0%nat
    /\ quiet b 3 (suspensions s').
Proof.
  intros Hret. cbv zeta.
  destruct (hasVideoEncoder b) eqn:Hve.
  2:{ rewrite encodeMP4_no_webcodecs in Hret by assumption. discriminate. }
  destruct (frames !! 0%nat) as [url|] eqn:Hurl.
  2:{ rewrite encodeMP4_no_frame in Hret by assumption. discriminate. }
  destruct (bitmapSize b url) as [[rawW rawH]|] eqn:Hsize.
  2:{ rewrite (encodeMP4_bad_frame _ _ _ _ url) in Hret by assumption.
      discriminate. }
  destruct (isConfigSupported b
              (avcCodecForSize (evenDimension rawW) (evenDimension rawH))
              (evenDimension rawW) (evenDimension rawH)) eqn:Hsup.
  2:{ rewrite (encodeMP4_unsupported _ _ _ _ url rawW rawH) in Hret by assumption.
      discriminate. }
  exists url, rawW, rawH.
  rewrite (encodeMP4_supported _ _ _ _ url rawW rawH) in Hret |- * by assumption.
  set (codec := avcCodecForSize (evenDimension rawW) (evenDimension rawH)) in *.
  set (prelude := [EvConfigure codec (evenDimension rawW) (evenDimension rawH)
                     8000000 fps;
                   EvIsConfigSupported codec (evenDimension rawW)
                     (evenDimension rawH) true;
                   EvProgress 0.01 PreparingEncoder;
                   EvProgress 0 PreparingEncoder]) in *.
  assert (triple
            (fun s => skeleton (log s) = prelude ++ []
                      /\ forall k, (3 <= k < suspensions s)%nat ->
                           snd (encoderActivity b k) <> None ->
                           encodeError s <> None)
            (submitFrames b polls (1000000 / fps) (length frames) 0 frames ;;
             flush b ;; checkError ;; emit EvClose ;; emit EvFinalize ;;
             emit (EvProgress 1 Done) ;;
             ret (mkMp4 codec (evenDimension rawW) (evenDimension rawH)
                    (length frames)))
            (fun a s =>
               a = mkMp4 codec (evenDimension rawW) (evenDimension rawH)
                     (length frames)
               /\ encodeQueueSize s = 0%nat
               /\ encodeError s = None
               /\ (skeleton (log s)
                   = ([EvProgress 1 Done; EvFinalize; EvClose; EvFlush]
                      ++ rev (flat_map (frameEvents fps (length frames))
                                (seq 0 (length frames)))
                      ++ prelude) ++ []
                   /\ forall k, (3 <= k < suspensions s)%nat ->
                        snd (encoderActivity b k) <> None ->
                        encodeError s <> None))
            (fun _ => True)) as Htail.
  { eapply triple_bind; [apply (logged_submitFrames b [])|]. intro; cbv beta.
    apply (logged_finish b []). }
  match type of Hret with
  | fst (?tail ?s1) = _ =>
      destruct (Htail s1) as [_ Hq]; [split; [reflexivity|simpl; intros; lia]|]
  end.
  destruct (Hq mp4 Hret) as (-> & Hqueue & Herr & Hsk & Hheld).
  repeat split; try assumption.
  - unfold trace. rewrite skeleton_rev, Hsk, app_nil_r.
    rewrite !rev_app_distr, rev_involutive, <- app_assoc. reflexivity.
  - intros k Hk. destruct (snd (encoderActivity b k)) eqn:Ek; [|reflexivity].
    exfalso. apply (Hheld k Hk); [now rewrite Ek|exact Herr].
Qed.

(** ** A failed encoding finalizes nothing *)

Lemma triple_encodeFrame_policy i timestamp frameDuration keyFrame
    (E : EncoderEvent -> Prop) :
  (forall queueSize, E (EvEncode i timestamp frameDuration keyFrame queueSize)) ->
  triple (fun _ => True) (encodeFrame i timestamp frameDuration keyFrame)
         (fun _ _ => True) E.
Proof.
  intros HE. apply triple_total. intros s _. split; [|trivial].
  eexists [_]. split; [reflexivity|]. constructor; [apply HE|constructor].
Qed.

Lemma triple_submitFrames_policy b polls frameDuration total i rest
    (E : EncoderEvent -> Prop) :
  (forall k, E (EvDraw k)) ->
  (forall queueSize ms, E (EvWait queueSize ms)) ->
  (forall k timestamp duration keyFrame queueSize,
      E (EvEncode k timestamp duration keyFrame queueSize)) ->
  (forall p, E (EvProgress p EncodingMP4)) ->
  triple (fun _ => True) (submitFrames b polls frameDuration total i rest)
         (fun _ _ => True) E.
Proof.
  intros Hdraw Hwait Hencode Hprogress.
  revert i. induction rest as [|url rest IH]; intros i; simpl.
  - apply triple_ret.
  - eapply triple_bind; [|intro; cbv beta; apply IH].
    unfold submitFrame.
    eapply triple_bind; [apply triple_checkError|]. intro; cbv beta.
    eapply triple_bind; [apply triple_decodeFrame|]. intro; cbv beta.
    eapply triple_bind; [apply triple_emit, Hdraw|]. intro; cbv beta.
    eapply triple_bind; [apply (triple_waitForDrain b polls E Hwait)|].
    intro; cbv beta.
    eapply triple_bind;
      [apply (triple_weaken (fun s => (encodeQueueSize s <= 3)%nat)
                (fun _ => True) checkError (fun _ _ => True) (fun _ _ => True));
       [apply (triple_checkError (fun _ => True))|intros; exact I|intros; exact I]|].
    intro; cbv beta.
    eapply triple_bind; [apply triple_encodeFrame_policy; intros; apply Hencode|].
    intro; cbv beta.
    eapply triple_bind; [apply triple_emit, Hprogress|]. intro; cbv beta.
    apply triple_suspend.
Qed.

(** When [encodeMP4] does not return a file, the encoder was never closed
    and the container never finalized, and the report of completion was
    never made. *)
Theorem encodeMP4_failure_finalizes_nothing b polls frames fps :
  (forall mp4, fst (encodeMP4 b polls frames fps freshEncoder) <> Returned mp4) ->
  forall ev, In ev (trace (snd (encodeMP4 b polls frames fps freshEncoder))) ->
             ~ closing ev.
Proof.
  intros Hfail ev Hin. unfold trace in Hin. apply in_rev in Hin. revert ev Hin.
  apply List.Forall_forall.
  destruct (hasVideoEncoder b) eqn:Hve.
  2:{ rewrite encodeMP4_no_webcodecs by assumption.
      repeat constructor; intros [H|[H|H]]; discriminate. }
  destruct (frames !! 0%nat) as [url|] eqn:Hurl.
  2:{ rewrite encodeMP4_no_frame by assumption.
      repeat constructor; intros [H|[H|H]]; discriminate. }
  destruct (bitmapSize b url) as [[rawW rawH]|] eqn:Hsize.
  2:{ rewrite (encodeMP4_bad_frame _ _ _ _ url) by assumption.
      repeat constructor; intros [H|[H|H]]; discriminate. }
  destruct (isConfigSupported b
              (avcCodecForSize (evenDimension rawW) (evenDimension rawH))
              (evenDimension rawW) (evenDimension rawH)) eqn:Hsup.
  2:{ rewrite (encodeMP4_unsupported _ _ _ _ url rawW rawH) by assumption.
      repeat constructor; intros [H|[H|H]]; discriminate. }
  rewrite (encodeMP4_supported _ _ _ _ url rawW rawH) in Hfail |- * by assumption.
  match goal with
  | |- context [bind (submitFrames ?b ?p ?fd ?n ?i ?fr) ?k ?s1] =>
      pose proof (proj1 (triple_submitFrames_policy b p fd n i fr
                           (fun ev => ~ closing ev)
                           ltac:(intros ? [H|[H|H]]; discriminate)
                           ltac:(intros ? ? [H|[H|H]]; discriminate)
                           ltac:(intros ? ? ? ? ? [H|[H|H]]; discriminate)
                           ltac:(intros ? [H|[H|H]]; discriminate) s1 I))
        as (new & Hlog & Hnew);
      unfold bind at 1 in Hfail; unfold bind at 1;
      destruct (submitFrames b p fd n i fr s1) as [[[]|e|] s2]
  end; simpl in Hlog.
  - (* every frame was submitted: the flush or the last check failed *)
    revert Hfail. unfold flush, bind, emit, checkError, ret. simpl.
    destruct (encoderActivity b (suspensions s2)) as [finished [e|]]; simpl.
    + intros _. rewrite Hlog. constructor; [intros [H|[H|H]]; discriminate|].
      apply Forall_app. split; [exact Hnew|].
      repeat constructor; intros [H|[H|H]]; discriminate.
    + destruct (encodeError s2) as [e|]; simpl.
      * intros _. rewrite Hlog. constructor; [intros [H|[H|H]]; discriminate|].
        apply Forall_app. split; [exact Hnew|].
        repeat constructor; intros [H|[H|H]]; discriminate.
      * intros Hfail. exfalso. exact (Hfail _ eq_refl).
  - simpl. rewrite Hlog. apply Forall_app. split; [exact Hnew|].
    repeat constructor; intros [H|[H|H]]; discriminate.
  - simpl. rewrite Hlog. apply Forall_app. split; [exact Hnew|].
    repeat constructor; intros [H|[H|H]]; discriminate.
Qed.

Lemma encodeMP4_failure_finalizes_nothing_witness :
  let run := encodeMP4 faultyBrowser 8 ["f0"; "f1"]%string 24 freshEncoder in
  ((forall mp4, fst run <> Returned mp4)
   /\ In (EvEncode 0 0 41667 true 0) (trace (snd run)))
  /\ fst run = Thrown (EncoderFailure 5)
  /\ ~ closing (EvEncode 0 0 41667 true 0).
Proof.
  cbv zeta.
  assert (fst (encodeMP4 faultyBrowser 8 ["f0"; "f1"]%string 24 freshEncoder)
          = Thrown (EncoderFailure 5)) as Hthrown
    by (vm_compute; reflexivity).
  assert (forall mp4,
             fst (encodeMP4 faultyBrowser 8 ["f0"; "f1"]%string 24 freshEncoder)
             <> Returned mp4) as Hfail
    by (intros mp4; rewrite Hthrown; discriminate).
  assert (In (EvEncode 0 0 41667 true 0)
             (trace (snd (encodeMP4 faultyBrowser 8 ["f0"; "f1"]%string 24
                            freshEncoder)))) as Hin.
  { vm_compute. do 5 right. left. reflexivity. }
  split; [exact (conj Hfail Hin)|]. split; [exact Hthrown|].
  exact (encodeMP4_failure_finalizes_nothing faultyBrowser 8
           ["f0"; "f1"]%string 24 Hfail _ Hin).
Defined.

(** A call of [encodeMP4] returns only when the browser has WebCodecs, the
    first frame decodes and the configuration is supported.  The file it
    returns has the even dimensions of the first frame and one frame per
    data URL; apart from the polls, what it did is: the two progress
    reports, the support check, the configuration, then for each frame in
    order a draw, an encode with its timestamp and a key frame every 30
    frames, and a progress report, then flush, close, finalize and the last
    report; the queue is empty and the encoder never reported an error. *)
Theorem encodeMP4_returned b polls frames fps mp4 :
  fst (encodeMP4 b polls frames fps freshEncoder) = Returned mp4 ->
  let s' := snd (encodeMP4 b polls frames fps freshEncoder) in
  exists url rawW rawH,
    let encW := evenDimension rawW in
    let encH := evenDimension rawH in
    let codec := avcCodecForSize encW encH in
    hasVideoEncoder b = true
    /\ frames !! 0%nat = Some url
    /\ bitmapSize b url = Some (rawW, rawH)
    /\ isConfigSupported b codec encW encH = true
    /\ mp4 = mkMp4 codec encW encH (length frames)
    /\ skeleton (trace s')
       = [EvProgress 0 PreparingEncoder; EvProgress 0.01 PreparingEncoder;
          EvIsConfigSupported codec encW encH true;
          EvConfigure codec encW encH 8000000 fps]
         ++ flat_map (frameEvents fps (length frames)) (seq 0 (length frames))
         ++ [EvFlush; EvClose; EvFinalize; EvProgress 1 Done]
    /\ encodeQueueSize s' = 0%nat
    /\ quiet b 3 (suspensions s').
Proof. exact (encodeMP4_success b polls frames fps mp4). Qed.

Lemma encodeMP4_returned_witness :
  let run := encodeMP4 steadyBrowser 8 ["f0"; "f1"]%string 24 freshEncoder in
  fst run = Returned (mkMp4 "avc1.42001f" 1280 720 2)
  /\ encodeQueueSize (snd run) = 0%nat
  /\ quiet steadyBrowser 3 (suspensions (snd run)).
Proof.
  cbv zeta.
  assert (fst (encodeMP4 steadyBrowser 8 ["f0"; "f1"]%string 24 freshEncoder)
          = Returned (mkMp4 "avc1.42001f" 1280 720 2)) as Hret
    by (vm_compute; reflexivity).
  split; [exact Hret|].
  destruct (encodeMP4_returned steadyBrowser 8 ["f0"; "f1"]%string 24 _ Hret)
    as (url & rawW & rawH & _ & _ & _ & _ & _ & _ & Hqueue & Hquiet).
  exact (conj Hqueue Hquiet).
Defined.

(** ** Timestamps *)

Lemma Math_round_bounds (q : Q) :
  inject_Z (Math_round q) <= q + (1 # 2) /\ q - (1 # 2) < inject_Z (Math_round q).
Proof.
  unfold Math_round. split; [apply Qfloor_le|].
  pose proof (Qlt_floor (q + (1 # 2))) as H.
  rewrite inject_Z_plus in H. change (inject_Z 1) with 1 in H. lra.
Qed.

Lemma inject_Z_lt_succ (a b : Z) : inject_Z a < inject_Z b + 1 -> (a <= b)%Z.
Proof.
  intros H. change 1 with (inject_Z 1) in H. rewrite <- inject_Z_plus in H.
  rewrite <- Zlt_Qlt in H. lia.
Qed.

Lemma frameDuration_ge_1 (fps : Q) : 0 < fps -> fps <= 1000000 -> 1 <= 1000000 / fps.
Proof. intros H0 H1. apply Qle_shift_div_l; [assumption|lra]. Qed.

Lemma frame_start_step (fps : Q) (i j : nat) :
  0 < fps -> (i < j)%nat ->
  num i * (1000000 / fps) + 1000000 / fps <= num j * (1000000 / fps).
Proof.
  intros H0 Hij.
  assert (0 <= 1000000 / fps) as Hd.
  { apply Qle_shift_div_l; [assumption|lra]. }
  pose proof (num_lt i j Hij) as Hn.
  assert (0 <= (num j - (num i + 1)) * (1000000 / fps)) as Hp.
  { apply Qmult_le_0_compat; [lra|assumption]. }
  lra.
Qed.

(** [Math.round(i * frameDuration)]: the first frame is presented at 0; at
    frame rates up to a million later frames are presented strictly later,
    never further than half a microsecond from the exact instant, and so a
    frame ends within a microsecond of the start of the next one. *)
Theorem frameTimestamp_increasing (fps : Q) (i j : nat) :
  0 < fps -> fps <= 1000000 -> (i < j)%nat ->
  frameTimestamp fps 0 = 0%Z
  /\ (frameTimestamp fps i < frameTimestamp fps j)%Z
  /\ num i * (1000000 / fps) - (1 # 2) < inject_Z (frameTimestamp fps i)
     <= num i * (1000000 / fps) + (1 # 2)
  /\ (Z.abs (frameTimestamp fps i + Math_round (1000000 / fps)
             - frameTimestamp fps (S i)) <= 1)%Z.
Proof.
  intros H0 H1 Hij.
  pose proof (frameDuration_ge_1 fps H0 H1) as Hd.
  pose proof (frame_start_step fps i j H0 Hij) as Hstep.
  pose proof (frame_start_step fps i (S i) H0 (Nat.lt_succ_diag_r i)) as Hnext.
  assert (num (S i) * (1000000 / fps)
          == num i * (1000000 / fps) + 1000000 / fps) as HS.
  { rewrite num_S. ring. }
  unfold frameTimestamp.
  destruct (Math_round_bounds (num i * (1000000 / fps))) as [Hi1 Hi2].
  destruct (Math_round_bounds (num j * (1000000 / fps))) as [Hj1 Hj2].
  destruct (Math_round_bounds (num (S i) * (1000000 / fps))) as [Hs1 Hs2].
  destruct (Math_round_bounds (1000000 / fps)) as [Hd1 Hd2].
  split; [|split; [|split; [split; assumption|]]].
  - unfold Math_round. change (num 0) with 0.
    rewrite (Qfloor_comp _ (1 # 2)); [reflexivity|ring].
  - set (A := Math_round (num i * (1000000 / fps))) in *.
    set (B := Math_round (num j * (1000000 / fps))) in *.
    assert (A + 1 <= B)%Z; [|lia].
    apply inject_Z_lt_succ. rewrite inject_Z_plus.
    change (inject_Z 1) with 1. lra.
  - set (A := Math_round (num i * (1000000 / fps))) in *.
    set (B := Math_round (num (S i) * (1000000 / fps))) in *.
    set (D := Math_round (1000000 / fps)) in *.
    apply Z.abs_le. split.
    + assert (B <= A + D + 1)%Z; [|lia].
      apply inject_Z_lt_succ. rewrite !inject_Z_plus.
      change (inject_Z 1) with 1. lra.
    + assert (A + D <= B + 1)%Z; [|lia].
      apply inject_Z_lt_succ. rewrite !inject_Z_plus.
      change (inject_Z 1) with 1. lra.
Qed.

Lemma frameTimestamp_increasing_witness :
  (0 < 24 /\ 24 <= 1000000 /\ (1 < 2)%nat)
  /\ (frameTimestamp 24 1 < frameTimestamp 24 2)%Z
  /\ frameTimestamp 24 1 = 41667%Z.
Proof.
  assert (0 < 24) as H0 by reflexivity.
  assert (24 <= 1000000) as H1 by (vm_compute; discriminate).
  assert (1 < 2)%nat as Hij by lia.
  split; [exact (conj H0 (conj H1 Hij))|].
  split; [|reflexivity].
  exact (proj1 (proj2 (frameTimestamp_increasing 24 1 2 H0 H1 Hij))).
Defined.

(** ** Progress reports *)

Lemma progressReports_app (l1 l2 : list EncoderEvent) :
  progressReports (l1 ++ l2) = progressReports l1 ++ progressReports l2.
Proof. apply flat_map_app. Qed.

Lemma progressReports_skeleton (l : list EncoderEvent) :
  progressReports (skeleton l) = progressReports l.
Proof.
  induction l as [|ev l IH]; [reflexivity|].
  change (skeleton (ev :: l)) with (plainEvent ev ++ skeleton l).
  rewrite progressReports_app, IH. now destruct ev.
Qed.

Lemma progressReports_frames (fps : Q) (total : nat) (l : list nat) :
  progressReports (flat_map (frameEvents fps total) l)
  = List.map (fun i => (num i + 1) / num total) l.
Proof.
  induction l as [|i l IH]; [reflexivity|].
  cbn [flat_map List.map]. rewrite progressReports_app, IH. reflexivity.
Qed.

Lemma frame_progress_range (total i : nat) :
  (i < total)%nat -> 0 < (num i + 1) / num total <= 1.
Proof.
  intros Hi. pose proof (num_lt i total Hi) as H. pose proof (num_nonneg i) as H0.
  split.
  - apply Qlt_shift_div_l; lra.
  - apply Qle_shift_div_r; lra.
Qed.

Lemma frame_progress_step (total i : nat) :
  (0 < total)%nat -> (num i + 1) / num total <= (num (S i) + 1) / num total.
Proof.
  intros Ht. pose proof (num_lt 0 total Ht) as H. change (num 0) with 0 in H.
  unfold Qdiv. apply Qmult_le_compat_r.
  - rewrite num_S. lra.
  - apply Qlt_le_weak, Qinv_lt_0_compat. lra.
Qed.

Lemma frame_progress_sorted (total a k : nat) :
  (a + k <= total)%nat ->
  Sorted Qle (List.map (fun i => (num i + 1) / num total) (seq a k) ++ [1]).
Proof.
  revert a. induction k as [|k IH]; intros a Hk.
  - repeat constructor.
  - cbn [seq List.map app]. constructor; [apply IH; lia|].
    destruct k as [|k]; cbn [seq List.map app]; constructor.
    + apply frame_progress_range. lia.
    + apply frame_progress_step. lia.
Qed.

(** The progress that a successful call reports: 0 and 0.01 while preparing,
    [(i + 1) / frames.length] after frame [i], and 1 at the end. Every
    report lies in [0, 1]; the reports never decrease exactly when there are
    at most 100 frames: with more, the report after the first frame falls
    back below the 0.01 reported before it. *)
Theorem encodeMP4_progress b polls frames fps mp4 :
  fst (encodeMP4 b polls frames fps freshEncoder) = Returned mp4 ->
  let reports :=
    progressReports (trace (snd (encodeMP4 b polls frames fps freshEncoder))) in
  reports = [0; 0.01]
            ++ List.map (fun i => (num i + 1) / num (length frames))
                 (seq 0 (length frames))
            ++ [1]
  /\ Forall (fun p => 0 <= p <= 1) reports
  /\ (Sorted Qle reports <-> (length frames <= 100)%nat).
Proof.
  intros Hret reports.
  destruct (encodeMP4_success b polls frames fps mp4 Hret)
    as (url & rawW & rawH & _ & Hurl & _ & _ & _ & Hsk & _).
  assert (0 < length frames)%nat as Hn.
  { apply lookup_lt_Some in Hurl. exact Hurl. }
  assert (reports = [0; 0.01]
            ++ List.map (fun i => (num i + 1) / num (length frames))
                 (seq 0 (length frames))
            ++ [1]) as Hreports.
  { unfold reports. rewrite <- progressReports_skeleton, Hsk.
    rewrite !progressReports_app, progressReports_frames. reflexivity. }
  split; [exact Hreports|]. rewrite Hreports. split.
  - repeat (constructor; [lra|]). apply Forall_app. split.
    + apply List.Forall_forall. intros p Hp. apply in_map_iff in Hp.
      destruct Hp as (i & <- & Hi). apply in_seq in Hi.
      destruct (frame_progress_range (length frames) i); [lia|]. lra.
    + repeat constructor; lra.
  - destruct (length frames) as [|n] eqn:En; [lia|]. split.
    + intros Hs. cbn [seq List.map app] in Hs.
      apply Sorted_inv in Hs. destruct Hs as [Hs _].
      apply Sorted_inv in Hs. destruct Hs as [_ Hs].
      apply HdRel_inv in Hs. change (num 0) with 0 in Hs.
      assert (0 < num (S n)) as Hpos.
      { pose proof (num_lt 0 (S n)). change (num 0) with 0 in *.
        assert (0 + 1 <= num (S n)) by (apply H; lia). lra. }
      assert (num (S n) <= num 100) as Hle.
      { change (num 100) with 100.
        assert (0.01 * num (S n) <= (0 + 1) / num (S n) * num (S n)) as Hm.
        { apply Qmult_le_compat_r; [exact Hs|lra]. }
        assert ((0 + 1) / num (S n) * num (S n) == 1) as Hone.
        { field. lra. }
        lra. }
      unfold num in Hle. rewrite <- Zle_Qle in Hle. lia.
    + intros Hle. cbn [app]. constructor; [constructor|].
      * apply (frame_progress_sorted (S n) 0 (S n)). lia.
      * cbn [seq List.map app]. constructor. change (num 0) with 0.
        apply Qle_shift_div_l.
        -- pose proof (num_lt 0 (S n)). change (num 0) with 0 in *.
           assert (0 + 1 <= num (S n)) by (apply H; lia). lra.
        -- assert (num (S n) <= num 100) as H by (apply num_le; lia).
           change (num 100) with 100 in H. lra.
      * constructor. lra.
Qed.

Lemma encodeMP4_progress_witness :
  let run := encodeMP4 steadyBrowser 8 ["f0"; "f1"]%string 24 freshEncoder in
  fst run = Returned (mkMp4 "avc1.42001f" 1280 720 2)
  /\ progressReports (trace (snd run))
     = [0; 0.01; (num 0 + 1) / num 2; (num 1 + 1) / num 2; 1]
  /\ Sorted Qle (progressReports (trace (snd run))).
Proof.
  cbv zeta.
  assert (fst (encodeMP4 steadyBrowser 8 ["f0"; "f1"]%string 24 freshEncoder)
          = Returned (mkMp4 "avc1.42001f" 1280 720 2)) as Hret
    by (vm_compute; reflexivity).
  split; [exact Hret|].
  destruct (encodeMP4_progress steadyBrowser 8 ["f0"; "f1"]%string 24 _ Hret)
    as (Hreports & _ & Hsorted).
  split; [exact Hreports|]. apply Hsorted. simpl. lia.
Defined.

(** ** What the export leaves behind *)

Lemma lastWrite_unique k v states final :
  (forall state, In state states -> PhotoAnimState.id state = k -> state = final) ->
  In k (List.map PhotoAnimState.id states) ->
  lastWrite k v states = final.
Proof.
  unfold lastWrite. revert v.
  induction states as [|state states IH]; intros v Hall Hk; simpl; [destruct Hk|].
  destruct (in_dec string_dec k (List.map PhotoAnimState.id states)) as [Hin|Hout].
  - apply IH; [|assumption]. intros s Hs. apply Hall. now right.
  - fold (lastWrite k (if decide (PhotoAnimState.id state = k) then state else v) states).
    rewrite lastWrite_absent by assumption.
    destruct Hk as [Hk|Hk]; [|contradiction].
    destruct (decide (PhotoAnimState.id state = k)); [|contradiction].
    apply Hall; [now left|assumption].
Qed.

Lemma finalStates_ids plan :
  List.map PhotoAnimState.id
    (List.map (fun s => withId (photoId s) (to_ s)) (specs plan))
  = List.map photoId (specs plan).
Proof. rewrite List.map_map. reflexivity. Qed.

Lemma finalStates_buildEffectPlan photos effect w h :
  List.map (fun s => withId (photoId s) (to_ s))
    (specs (buildEffectPlan photos effect w h))
  = List.map restingState (array_sort byZIndex photos).
Proof.
  unfold buildEffectPlan, buildEffectPlanWith.
  rewrite planOfSorted_specs. apply list_eq. intros i.
  rewrite !map_lookup, list_lookup_imap.
  destruct (array_sort byZIndex photos !! i) as [photo|]; simpl; [|reflexivity].
  destruct (specFor_shape effect w h i photo) as (-> & -> & _). reflexivity.
Qed.

Section CaptureLoopDom.
Variable captureFrame : Dom -> Q -> Q -> option string.
Variable st : Dialog.

(** Whatever the captures did, a later write of every element of the plan
    hides what the loop wrote. *)
Lemma captureLoop_overwritten (remaining i : nat) (d : Dom) (acc : list string)
    (newer : list PhotoAnimState.t) :
  List.map PhotoAnimState.id newer = List.map photoId (specs (planRef st)) ->
  applyStatesToDOM newer (fst (fst (captureLoop captureFrame st remaining i d acc)))
  = applyStatesToDOM newer d.
Proof.
  intros Hids. revert i d acc.
  induction remaining as [|remaining IH]; intros i d acc; simpl; [reflexivity|].
  destruct (captureFrame _ _ _) as [frame|]; [rewrite IH|simpl];
    apply applyStatesToDOM_override; now rewrite interpolateFrame_ids.
Qed.

Lemma captureLoop_count (remaining i : nat) (d : Dom) (acc : list string) :
  let '(_, captured, complete) := captureLoop captureFrame st remaining i d acc in
  (length acc <= length captured <= length acc + remaining)%nat
  /\ (complete = true -> length captured = (length acc + remaining)%nat)
  /\ (complete = false ->
      exists (j : nat) d', (i <= j < i + remaining)%nat
        /\ captureFrame d' (winW st) (winH st) = None).
Proof.
  revert i d acc. induction remaining as [|remaining IH]; intros i d acc; simpl.
  - repeat split; try lia; try discriminate.
  - destruct (captureFrame _ _ _) as [frame|] eqn:Hframe.
    + specialize (IH (S i) (applyStatesToDOM
                              (interpolateFrame (planRef st) (photosRef st)
                                 (num i / fpsValue (fps st)) (selectedEffect st)) d)
                     (acc ++ [frame])).
      destruct (captureLoop _ _ _ _ _ _) as [[d' captured] complete].
      rewrite length_app in IH. simpl in IH.
      destruct IH as (Hlen & Hall & Hfail). repeat split; try lia.
      * intros Hc. rewrite (Hall Hc). lia.
      * intros Hc. destruct (Hfail Hc) as (j & d'' & Hj & Hnone).
        exists j, d''. split; [lia|assumption].
    + split; [lia|]. split; [discriminate|].
      intros _. eexists i, _. split; [lia|exact Hframe].
Qed.
End CaptureLoopDom.



(** For the plan of the dialog's own photos, with unique identities,
    [showFinalState] puts every photo that has an element at its resting
    state, leaves the other elements alone and creates no element. *)
Theorem showFinalState_resting st (d : Dom) effect w h :
  planRef st = buildEffectPlan (photosRef st) effect w h ->
  NoDup (List.map Photo.id (photosRef st)) ->
  (forall photo,
      In photo (photosRef st) ->
      is_Some (d !! Photo.id photo) ->
      showFinalState st d !! Photo.id photo = Some (restingState photo))
  /\ (forall k, ~ present (photosRef st) k -> showFinalState st d !! k = d !! k)
  /\ (forall k, d !! k = None -> showFinalState st d !! k = None).
Proof.
  intros Hplan Hids. unfold showFinalState.
  rewrite Hplan, finalStates_buildEffectPlan.
  assert (forall k, List.In k (List.map PhotoAnimState.id
                                 (List.map restingState
                                    (array_sort byZIndex (photosRef st))))
                    <-> present (photosRef st) k) as Hin.
  { intros k. rewrite List.map_map, <- present_sorted. unfold present.
    rewrite in_map_iff. split; intros (photo & H1 & H2); exists photo; tauto. }
  split; [|split].
  - intros photo Hphoto [v Hv]. rewrite applyStatesToDOM_lookup, Hv. f_equal.
    apply lastWrite_unique.
    + intros state Hstate Hid. apply in_map_iff in Hstate.
      destruct Hstate as (other & <- & Hother).
      assert (In other (photosRef st)) as Hother'.
      { apply list_elem_of_In. apply list_elem_of_In in Hother.
        now rewrite (array_sort_perm byZIndex (photosRef st)) in Hother. }
      f_equal. simpl in Hid.
      apply list_elem_of_In, list_elem_of_lookup in Hphoto, Hother'.
      destruct Hphoto as [i Hi], Hother' as [j Hj].
      assert (i = j) as <-.
      { eapply NoDup_lookup; [exact Hids| |].
        - rewrite map_lookup, Hi. reflexivity.
        - rewrite map_lookup, Hj. simpl. now rewrite Hid. }
      congruence.
    + apply Hin. now exists photo.
  - intros k Hk. rewrite applyStatesToDOM_lookup.
    destruct (d !! k) as [v|]; [|reflexivity]. f_equal.
    apply lastWrite_absent. now rewrite Hin.
  - intros k Hk. now rewrite applyStatesToDOM_lookup, Hk.
Qed.

Lemma showFinalState_resting_witness :
  (planRef sampleDialog = buildEffectPlan (photosRef sampleDialog) sequential 1280 720
   /\ NoDup (List.map Photo.id (photosRef sampleDialog))
   /\ In (samplePhoto "a" 1) (photosRef sampleDialog)
   /\ is_Some (photoRefs sampleDialog !! "a"%string))
  /\ showFinalState sampleDialog (photoRefs sampleDialog) !! "a"%string
     = Some (restingState (samplePhoto "a" 1)).
Proof.
  assert (NoDup (List.map Photo.id (photosRef sampleDialog))) as Hids
    by (apply (bool_decide_unpack _); vm_compute; exact I).
  assert (In (samplePhoto "a" 1) (photosRef sampleDialog)) as Hin
    by (right; left; reflexivity).
  assert (is_Some (photoRefs sampleDialog !! "a"%string)) as Hel
    by (eexists; vm_compute; reflexivity).
  split; [exact (conj eq_refl (conj Hids (conj Hin Hel)))|].
  exact (proj1 (showFinalState_resting sampleDialog (photoRefs sampleDialog)
                  sequential 1280 720 eq_refl Hids)
           (samplePhoto "a" 1) Hin Hel).
Defined.

(** ** Playback *)

Lemma Math_min_le_r (a b : Q) : Math_min a b <= b.
Proof.
  unfold Math_min. destruct (Qle_bool a b) eqn:E.
  - now apply Qle_bool_iff.
  - apply Qle_refl.
Qed.

Lemma Math_min_comp (a a' b b' : Q) :
  a == a' -> b == b' -> Math_min a b == Math_min a' b'.
Proof.
  intros Ha Hb. unfold Math_min.
  destruct (Qle_bool a b) eqn:E, (Qle_bool a' b') eqn:E'; try assumption.
  - apply Qle_bool_iff in E. apply Qle_bool_false in E'. lra.
  - apply Qle_bool_iff in E'. apply Qle_bool_false in E. lra.
Qed.

Lemma onlyOwnFrame_idle p : requested p = [] -> onlyOwnFrame p.
Proof. intros H r Hr. rewrite H in Hr. destruct Hr. Qed.

Lemma samplePlayer_onlyOwnFrame : onlyOwnFrame samplePlayer.
Proof. intros r [<-|[]]. reflexivity. Qed.

Lemma stopAnimation_requested p :
  onlyOwnFrame p -> requested (stopAnimation p) = [].
Proof.
  intros Hown. unfold stopAnimation.
  destruct (animFrameRef p) as [handle|] eqn:Eh; simpl.
  - unfold onlyOwnFrame in Hown. rewrite Eh in Hown.
    induction (requested p) as [|r l IH]; [reflexivity|]. simpl.
    assert (Some handle = Some (fst r)) as [= ->] by (apply Hown; now left).
    rewrite Pos.eqb_refl. simpl. apply IH. intros r' Hr'. apply Hown. now right.
  - destruct (requested p) as [|r l] eqn:Er; [reflexivity|].
    unfold onlyOwnFrame in Hown. rewrite Er, Eh in Hown.
    specialize (Hown r (or_introl eq_refl)). discriminate.
Qed.

Lemma stopAnimation_dialog p : dialog (stopAnimation p) = dialog p.
Proof. unfold stopAnimation. now destruct (animFrameRef p). Qed.

Lemma stopAnimation_nextHandle p : nextHandle (stopAnimation p) = nextHandle p.
Proof. unfold stopAnimation. now destruct (animFrameRef p). Qed.

(** What [startPlayback] leaves when no other callback is pending. *)
Lemma startPlayback_fields now fromT p :
  onlyOwnFrame p ->
  startPlayback now fromT p
  = {| dialog := setIsPlaying true (dialog p);
       startTimeRef := now - fromT / speed (dialog p) * 1000;
       isPlayingRef := true;
       animFrameRef := Some (nextHandle p);
       nextHandle := Pos.succ (nextHandle p);
       requested := [(nextHandle p, tickCallback)] |}.
Proof.
  intros Hown.
  pose proof (stopAnimation_requested p Hown) as Hreq.
  pose proof (stopAnimation_dialog p) as Hdialog.
  pose proof (stopAnimation_nextHandle p) as Hnext.
  unfold startPlayback. destruct (stopAnimation p). simpl in *.
  now subst.
Qed.

Lemma animationFrame_single now handle cb p :
  requested p = [(handle, cb)] ->
  animationFrame now p = runCallback now cb (cancelAnimationFrame handle p).
Proof.
  intros Hreq. unfold animationFrame. rewrite Hreq. simpl.
  unfold callbackOf. rewrite Hreq. simpl. now rewrite Pos.eqb_refl.
Qed.

Lemma animationFrame_idle now p : requested p = [] -> animationFrame now p = p.
Proof. intros Hreq. unfold animationFrame. now rewrite Hreq. Qed.

(** A tick of a running playback. *)
Lemma tick_running now p :
  isPlayingRef p = true ->
  let st := dialog p in
  let elapsed := (now - startTimeRef p) / 1000 * speed st in
  let t := Math_min elapsed (totalDuration (planRef st)) in
  let shown :=
    applyStatesToDOM
      (interpolateFrame (planRef st) (photosRef st) t (selectedEffect st))
      (photoRefs st) in
  (elapsed < totalDuration (planRef st) ->
   tick now p
   = {| dialog := setPhotoRefs shown (setCurrentT t st);
        startTimeRef := startTimeRef p; isPlayingRef := true;
        animFrameRef := Some (nextHandle p);
        nextHandle := Pos.succ (nextHandle p);
        requested := requested p ++ [(nextHandle p, tickCallback)] |}
   /\ t = elapsed)
  /\ (totalDuration (planRef st) <= elapsed ->
      tick now p
      = {| dialog := setIsPlaying false (setPhotoRefs shown (setCurrentT t st));
           startTimeRef := startTimeRef p; isPlayingRef := false;
           animFrameRef := animFrameRef p;
           nextHandle := nextHandle p;
           requested := requested p |}
      /\ t == totalDuration (planRef st)).
Proof.
  intros Hplaying st elapsed t shown. unfold tick. rewrite Hplaying. cbn [negb].
  fold st. fold elapsed. fold t. fold shown. split; intros He.
  - assert (Qle_bool (totalDuration (planRef st)) elapsed = false) as ->
      by now apply Qle_bool_false.
    cbn [negb]. unfold requestAnimationFrame, withAnimFrameRef, withDialog. simpl.
    rewrite Hplaying. split; [reflexivity|].
    unfold t. apply Math_min_lt. exact He.
  - assert (Qle_bool (totalDuration (planRef st)) elapsed = true) as ->
      by now apply Qle_bool_iff.
    cbn [negb]. split; [reflexivity|].
    unfold t, Math_min. destruct (Qle_bool elapsed _) eqn:E; [|reflexivity].
    apply Qle_bool_iff in E. lra.
Qed.

(** The frame in which the only pending callback is the tick of a running
    playback. *)
Lemma animationFrame_tick now handle p :
  isPlayingRef p = true ->
  requested p = [(handle, tickCallback)] ->
  let st := dialog p in
  let elapsed := (now - startTimeRef p) / 1000 * speed st in
  let t := Math_min elapsed (totalDuration (planRef st)) in
  let p' := animationFrame now p in
  currentT (dialog p') = t
  /\ photoRefs (dialog p')
     = applyStatesToDOM
         (interpolateFrame (planRef st) (photosRef st) t (selectedEffect st))
         (photoRefs st)
  /\ (elapsed < totalDuration (planRef st) ->
      isPlayingRef p' = true /\ isPlaying (dialog p') = isPlaying st
      /\ requested p' = [(nextHandle p, tickCallback)]
      /\ animFrameRef p' = Some (nextHandle p))
  /\ (totalDuration (planRef st) <= elapsed ->
      isPlayingRef p' = false /\ isPlaying (dialog p') = false
      /\ requested p' = []).
Proof.
  intros Hplaying Hreq st elapsed t p'. unfold p'.
  rewrite (animationFrame_single now handle tickCallback p Hreq).
  cbn [runCallback].
  pose proof (tick_running now (cancelAnimationFrame handle p) Hplaying)
    as [Hgo Hend].
  cbn [dialog startTimeRef cancelAnimationFrame] in Hgo, Hend.
  fold st in Hgo, Hend. fold elapsed in Hgo, Hend. fold t in Hgo, Hend.
  assert (requested (cancelAnimationFrame handle p) = []) as Hnone.
  { cbn [requested cancelAnimationFrame]. rewrite Hreq. simpl.
    now rewrite Pos.eqb_refl. }
  destruct (Qlt_le_dec elapsed (totalDuration (planRef st))) as [Hlt|Hle].
  - destruct (Hgo Hlt) as [-> _]. rewrite Hnone. cbn.
    split; [reflexivity|]. split; [reflexivity|]. split.
    + intros _. repeat split; reflexivity.
    + intros Hle. lra.
  - destruct (Hend Hle) as [-> _]. rewrite Hnone. cbn.
    split; [reflexivity|]. split; [reflexivity|]. split.
    + intros Hlt. lra.
    + intros _. repeat split; reflexivity.
Qed.

(** The first frame after [startPlayback]. *)
Lemma startPlayback_first_frame now fromT now' p :
  onlyOwnFrame p ->
  ~ speed (dialog p) == 0 ->
  let st := dialog p in
  let p' := animationFrame now' (startPlayback now fromT p) in
  let elapsed := fromT + (now' - now) / 1000 * speed st in
  currentT (dialog p') == Math_min elapsed (totalDuration (planRef st))
  /\ currentT (dialog p') <= totalDuration (planRef st)
  /\ photoRefs (dialog p')
     = applyStatesToDOM
         (interpolateFrame (planRef st) (photosRef st) (currentT (dialog p'))
            (selectedEffect st))
         (photoRefs st)
  /\ (elapsed < totalDuration (planRef st) ->
      isPlayingRef p' = true /\ isPlaying (dialog p') = true
      /\ exists handle, requested p' = [(handle, tickCallback)]
                        /\ animFrameRef p' = Some handle)
  /\ (totalDuration (planRef st) <= elapsed ->
      isPlayingRef p' = false /\ isPlaying (dialog p') = false
      /\ requested p' = []).
Proof.
  intros Hown Hspeed st p' elapsed. unfold p'.
  rewrite (startPlayback_fields now fromT p Hown).
  match goal with
  | |- context [animationFrame now' ?q] =>
      pose proof (animationFrame_tick now' (nextHandle p) q eq_refl eq_refl)
        as (Ht & Hdom & Hgo & Hend);
      set (r := animationFrame now' q) in *
  end.
  cbn [dialog startTimeRef setIsPlaying speed planRef photosRef selectedEffect
       photoRefs isPlaying nextHandle] in Ht, Hdom, Hgo, Hend.
  fold st in Ht, Hdom, Hgo, Hend.
  assert ((now' - (now - fromT / speed st * 1000)) / 1000 * speed st == elapsed)
    as Helapsed.
  { unfold elapsed. field. exact Hspeed. }
  split; [|split; [|split; [|split]]].
  - rewrite Ht. apply Math_min_comp; [exact Helapsed|reflexivity].
  - rewrite Ht. apply Math_min_le_r.
  - rewrite Ht. exact Hdom.
  - intros Hlt. rewrite <- Helapsed in Hlt.
    destruct (Hgo Hlt) as (H1 & H2 & H3 & H4).
    split; [exact H1|]. split; [exact H2|]. eexists. split; eassumption.
  - intros Hle. rewrite <- Helapsed in Hle. exact (Hend Hle).
Qed.

(** Playback that starts at [fromT] shows, in the first frame after it,
    the plan at [fromT] plus the time that went by at the playback speed,
    and never beyond [totalDuration]; it goes on while that time is below
    [totalDuration] and stops by itself otherwise. *)
Theorem startPlayback_seamless now fromT now' p :
  onlyOwnFrame p ->
  ~ speed (dialog p) == 0 ->
  let st := dialog p in
  let p' := animationFrame now' (startPlayback now fromT p) in
  let elapsed := fromT + (now' - now) / 1000 * speed st in
  currentT (dialog p') == Math_min elapsed (totalDuration (planRef st))
  /\ currentT (dialog p') <= totalDuration (planRef st)
  /\ photoRefs (dialog p')
     = applyStatesToDOM
         (interpolateFrame (planRef st) (photosRef st) (currentT (dialog p'))
            (selectedEffect st))
         (photoRefs st)
  /\ (elapsed < totalDuration (planRef st) ->
      isPlayingRef p' = true /\ isPlaying (dialog p') = true
      /\ exists handle, requested p' = [(handle, tickCallback)]
                        /\ animFrameRef p' = Some handle)
  /\ (totalDuration (planRef st) <= elapsed ->
      isPlayingRef p' = false /\ isPlaying (dialog p') = false
      /\ requested p' = []).
Proof. exact (startPlayback_first_frame now fromT now' p). Qed.

Lemma startPlayback_seamless_witness :
  let p' := animationFrame 1500 (startPlayback 1000 0.2 (openPlayer sampleDialog)) in
  (onlyOwnFrame (openPlayer sampleDialog)
   /\ ~ speed (dialog (openPlayer sampleDialog)) == 0)
  /\ currentT (dialog p')
     == Math_min (0.2 + (1500 - 1000) / 1000 * 2)
          (totalDuration (planRef sampleDialog))
  /\ currentT (dialog p') <= totalDuration (planRef sampleDialog).
Proof.
  cbv zeta.
  assert (onlyOwnFrame (openPlayer sampleDialog)) as Hown
    by (apply onlyOwnFrame_idle; reflexivity).
  assert (~ speed (dialog (openPlayer sampleDialog)) == 0) as Hspeed
    by (intros H; discriminate H).
  split; [exact (conj Hown Hspeed)|].
  pose proof (startPlayback_seamless 1000 0.2 1500 (openPlayer sampleDialog)
                Hown Hspeed) as (Ht & Hle & _).
  exact (conj Ht Hle).
Defined.

(** A tick reads the current speed and multiplies the whole time since the
    start by it: when the speed was changed after playback started, the
    frame shows [(fromT / speed + dt) * newSpeed], the position of a
    playback that had run at the new speed from the beginning. *)
Theorem tick_applies_current_speed now fromT now' newSpeed p :
  onlyOwnFrame p ->
  let st := dialog p in
  let started := startPlayback now fromT p in
  let p' :=
    animationFrame now' (withDialog (withSpeed newSpeed (dialog started)) started) in
  let elapsed := (fromT / speed st + (now' - now) / 1000) * newSpeed in
  currentT (dialog p') == Math_min elapsed (totalDuration (planRef st))
  /\ (~ speed st == 0 ->
      elapsed == (fromT + (now' - now) / 1000 * speed st) * (newSpeed / speed st)).
Proof.
  intros Hown st started p' elapsed. unfold p', started.
  rewrite (startPlayback_fields now fromT p Hown).
  match goal with
  | |- context [animationFrame now' ?q] =>
      pose proof (animationFrame_tick now' (nextHandle p) q eq_refl eq_refl)
        as (Ht & _);
      set (r := animationFrame now' q) in *
  end.
  cbn [dialog startTimeRef setIsPlaying speed planRef withDialog withSpeed] in Ht.
  fold st in Ht. split.
  - rewrite Ht. apply Math_min_comp; [|reflexivity].
    unfold elapsed. set (k := fromT / speed st). field.
  - intros Hspeed. unfold elapsed. field. exact Hspeed.
Qed.

Lemma tick_applies_current_speed_witness :
  let started := startPlayback 1000 0 (openPlayer sampleDialog) in
  let p' := animationFrame 1500
              (withDialog (withSpeed 1 (dialog started)) started) in
  onlyOwnFrame (openPlayer sampleDialog)
  /\ currentT (dialog p')
     == Math_min ((0 / 2 + (1500 - 1000) / 1000) * 1)
          (totalDuration (planRef sampleDialog)).
Proof.
  cbv zeta.
  assert (onlyOwnFrame (openPlayer sampleDialog)) as Hown
    by (apply onlyOwnFrame_idle; reflexivity).
  split; [exact Hown|].
  exact (proj1 (tick_applies_current_speed 1000 0 1500 1
                  (openPlayer sampleDialog) Hown)).
Defined.

(** ** The end of a playback *)

Lemma interpolateFrame_at_end photos' planEffect w h photos t effect :
  totalDuration (buildEffectPlan photos' planEffect w h) <= t ->
  interpolateFrame (buildEffectPlan photos' planEffect w h) photos t effect
  = List.map (fun s => withId (photoId s) (to_ s))
      (specs (buildEffectPlan photos' planEffect w h)).
Proof.
  intros Ht. unfold interpolateFrame. apply List.map_ext_in. intros spec Hin.
  apply list_elem_of_In, list_elem_of_lookup in Hin. destruct Hin as [k Hk].
  destruct (buildEffectPlan_lookup _ _ _ _ _ _ Hk) as (_ & Hdur & Hwin & _).
  unfold interpolateSpec. destruct (findPhoto photos (photoId spec)); [|reflexivity].
  assert (Qle_bool ((t - delay spec) / duration spec) 0 = false) as ->.
  { apply Qle_bool_false. apply Qlt_shift_div_l; lra. }
  assert (Qle_bool 1 ((t - delay spec) / duration spec) = true) as ->.
  { apply Qle_bool_iff, local_ge_1; lra. }
  reflexivity.
Qed.



(** ** Pausing, resuming and restarting *)

(** Pausing a playback cancels its pending tick and leaves the elements and
    the current time as they are, and nothing moves while it is paused.
    Resuming from a time that is neither 0 nor within 0.05 s of the end
    continues from that time: the time spent paused does not count. *)
Theorem pause_then_resume a b b' p :
  isPlayingRef p = true ->
  onlyOwnFrame p ->
  ~ speed (dialog p) == 0 ->
  ~ currentT (dialog p) == 0 ->
  currentT (dialog p) < totalDuration (planRef (dialog p)) - 0.05 ->
  let st := dialog p in
  let paused := handlePlayPause a p in
  let resumed := animationFrame b' (handlePlayPause b paused) in
  (dialog paused = setIsPlaying false st
   /\ isPlayingRef paused = false
   /\ requested paused = []
   /\ forall now, animationFrame now paused = paused)
  /\ currentT (dialog resumed)
     == Math_min (currentT st + (b' - b) / 1000 * speed st)
          (totalDuration (planRef st)).
Proof.
  intros Hplaying Hown Hspeed Hnonzero Hbefore st paused resumed.
  assert (paused = withDialog (setIsPlaying false st) (stopAnimation p)) as Hpaused.
  { unfold paused, handlePlayPause. rewrite Hplaying.
    now rewrite stopAnimation_dialog. }
  assert (requested paused = []) as Hreq.
  { rewrite Hpaused. cbn. now apply stopAnimation_requested. }
  assert (isPlayingRef paused = false) as Hstopped.
  { rewrite Hpaused. unfold stopAnimation. now destruct (animFrameRef p). }
  assert (dialog paused = setIsPlaying false st) as Hdialog
    by now rewrite Hpaused.
  split.
  - split; [exact Hdialog|]. split; [exact Hstopped|]. split; [exact Hreq|].
    intros now. now apply animationFrame_idle.
  - assert (handlePlayPause b paused = startPlayback b (currentT st) paused) as Hresume.
    { unfold handlePlayPause. rewrite Hstopped, Hdialog. cbn.
      fold st.
      assert (Qle_bool (totalDuration (planRef st) - 0.05) (currentT st) = false)
        as -> by now apply Qle_bool_false.
      destruct (Qeq_bool (currentT st) 0) eqn:E; [|reflexivity].
      apply Qeq_bool_iff in E. contradiction. }
    unfold resumed. rewrite Hresume.
    pose proof (startPlayback_first_frame b (currentT st) b' paused
                  (onlyOwnFrame_idle paused Hreq)) as Hfirst.
    rewrite Hdialog in Hfirst. cbn in Hfirst.
    exact (proj1 (Hfirst Hspeed)).
Qed.

Lemma pause_then_resume_witness :
  let resumed :=
    animationFrame 9500 (handlePlayPause 9000 (handlePlayPause 500 samplePlayer)) in
  (isPlayingRef samplePlayer = true
   /\ onlyOwnFrame samplePlayer
   /\ ~ speed (dialog samplePlayer) == 0
   /\ ~ currentT (dialog samplePlayer) == 0
   /\ currentT (dialog samplePlayer)
      < totalDuration (planRef (dialog samplePlayer)) - 0.05)
  /\ requested (handlePlayPause 500 samplePlayer) = []
  /\ currentT (dialog resumed)
     == Math_min (0.2 + (9500 - 9000) / 1000 * 2)
          (totalDuration (planRef sampleDialog)).
Proof.
  cbv zeta.
  assert (~ speed (dialog samplePlayer) == 0) as Hspeed
    by (intros H; discriminate H).
  assert (~ currentT (dialog samplePlayer) == 0) as Hnonzero
    by (intros H; discriminate H).
  assert (currentT (dialog samplePlayer)
          < totalDuration (planRef (dialog samplePlayer)) - 0.05) as Hbefore
    by (vm_compute; reflexivity).
  split.
  { exact (conj eq_refl (conj samplePlayer_onlyOwnFrame
             (conj Hspeed (conj Hnonzero Hbefore)))). }
  pose proof (pause_then_resume 500 9000 9500 samplePlayer eq_refl
                samplePlayer_onlyOwnFrame Hspeed Hnonzero Hbefore)
    as ((_ & _ & Hreq & _) & Ht).
  exact (conj Hreq Ht).
Defined.

(** Two frames after a restart was requested playback starts from 0, and
    the frame after that shows the time since then. *)
Lemma restart_sequence now1 now2 now3 handle q :
  requested q = [(handle, startSoon)] ->
  let st := dialog q in
  let q1 := animationFrame now1 q in
  let q2 := animationFrame now2 q1 in
  let q3 := animationFrame now3 q2 in
  (dialog q1 = st /\ isPlayingRef q1 = isPlayingRef q)
  /\ (dialog q2 = setIsPlaying true st /\ isPlayingRef q2 = true)
  /\ currentT (dialog q3)
     == Math_min ((now3 - now2) / 1000 * speed st) (totalDuration (planRef st))
  /\ photoRefs (dialog q3)
     = applyStatesToDOM
         (interpolateFrame (planRef st) (photosRef st) (currentT (dialog q3))
            (selectedEffect st))
         (photoRefs st).
Proof.
  intros Hreq st q1 q2 q3.
  assert (q1 = snd (requestAnimationFrame startNow (cancelAnimationFrame handle q)))
    as Hq1 by (unfold q1; now rewrite (animationFrame_single _ _ _ _ Hreq)).
  assert (requested q1 = [(nextHandle q, startNow)]) as Hreq1.
  { rewrite Hq1. cbn. rewrite Hreq. simpl. now rewrite Pos.eqb_refl. }
  assert (dialog q1 = st /\ isPlayingRef q1 = isPlayingRef q) as [Hd1 Hp1]
    by now rewrite Hq1.
  assert (q2 = startPlayback now2 0 (cancelAnimationFrame (nextHandle q) q1))
    as Hq2 by (unfold q2; now rewrite (animationFrame_single _ _ _ _ Hreq1)).
  assert (requested (cancelAnimationFrame (nextHandle q) q1) = []) as Hreq2.
  { cbn. rewrite Hreq1. simpl. now rewrite Pos.eqb_refl. }
  pose proof (onlyOwnFrame_idle _ Hreq2) as Hown.
  rewrite (startPlayback_fields _ _ _ Hown) in Hq2.
  cbn [dialog cancelAnimationFrame nextHandle] in Hq2. rewrite Hd1 in Hq2.
  split; [now split|]. split; [now rewrite Hq2|].
  match type of Hq2 with
  | _ = ?started =>
      pose proof (animationFrame_tick now3 (nextHandle q1) started
                    eq_refl eq_refl) as (Ht & Hdom & _)
  end.
  cbn [dialog startTimeRef setIsPlaying speed planRef photosRef selectedEffect
       photoRefs] in Ht, Hdom.
  rewrite <- Hq2 in Ht, Hdom. fold q3 in Ht, Hdom. split.
  - rewrite Ht. apply Math_min_comp; [|reflexivity].
    set (k := 0 / speed st). assert (k == 0) as Hk by (unfold k, Qdiv; ring).
    rewrite Hk. field.
  - rewrite Ht. exact Hdom.
Qed.

(** Replay puts the elements at the start of their entrances at once, with
    the current time at 0 and nothing playing; playback starts from 0 in
    the second frame after that, and the third frame shows the plan at the
    time since the second. *)
Theorem handleReplay_restarts now1 now2 now3 p :
  onlyOwnFrame p ->
  let st := dialog p in
  let p0 := handleReplay p in
  let p1 := animationFrame now1 p0 in
  let p2 := animationFrame now2 p1 in
  let p3 := animationFrame now3 p2 in
  (photoRefs (dialog p0) = showFromState st (photoRefs st)
   /\ currentT (dialog p0) = 0
   /\ isPlaying (dialog p0) = false
   /\ isPlayingRef p0 = false)
  /\ (dialog p1 = dialog p0 /\ isPlayingRef p1 = false)
  /\ (photoRefs (dialog p2) = photoRefs (dialog p0) /\ isPlayingRef p2 = true)
  /\ currentT (dialog p3)
     == Math_min ((now3 - now2) / 1000 * speed st) (totalDuration (planRef st)).
Proof.
  intros Hown st p0 p1 p2 p3.
  pose proof (stopAnimation_requested p Hown) as Hreq.
  pose proof (stopAnimation_dialog p) as Hdialog.
  assert (isPlayingRef (stopAnimation p) = false) as Hstopped
    by (unfold stopAnimation; now destruct (animFrameRef p)).
  assert (requested p0 = [(nextHandle (stopAnimation p), startSoon)]) as Hreq0.
  { unfold p0, handleReplay. cbn -[stopAnimation]. now rewrite Hreq. }
  assert (dialog p0
          = setPhotoRefs (showFromState st (photoRefs st))
              (setIsPlaying false (setCurrentT 0 st))) as Hd0.
  { unfold p0, handleReplay. cbn -[stopAnimation]. rewrite Hdialog. reflexivity. }
  assert (isPlayingRef p0 = false) as Hp0.
  { unfold p0, handleReplay. cbn -[stopAnimation]. exact Hstopped. }
  destruct (restart_sequence now1 now2 now3 _ p0 Hreq0)
    as ((H1d & H1p) & (H2d & H2p) & Ht & _).
  subst p1 p2 p3.
  split; [rewrite Hd0; repeat split; exact Hp0|].
  split; [split; [exact H1d|now rewrite H1p]|].
  split; [split; [now rewrite H2d|exact H2p]|].
  rewrite Hd0 in Ht. exact Ht.
Qed.

Lemma handleReplay_restarts_witness :
  let p0 := handleReplay samplePlayer in
  let p3 := animationFrame 48 (animationFrame 32 (animationFrame 16 p0)) in
  onlyOwnFrame samplePlayer
  /\ currentT (dialog p0) = 0
  /\ currentT (dialog p3)
     == Math_min ((48 - 32) / 1000 * 2) (totalDuration (planRef sampleDialog)).
Proof.
  cbv zeta. split; [exact samplePlayer_onlyOwnFrame|].
  pose proof (handleReplay_restarts 16 32 48 samplePlayer
                samplePlayer_onlyOwnFrame) as ((_ & Hzero & _) & _ & _ & Ht).
  exact (conj Hzero Ht).
Defined.

(** Play, on a stopped dialog whose current time is within 0.05 s of the
    end of the plan, restarts from 0 in the same way, but leaves the
    current time where it was until the first tick. *)
Theorem handlePlayPause_restarts_at_end now0 now1 now2 now3 p :
  isPlayingRef p = false ->
  requested p = [] ->
  totalDuration (planRef (dialog p)) - 0.05 <= currentT (dialog p) ->
  let st := dialog p in
  let p0 := handlePlayPause now0 p in
  let p1 := animationFrame now1 p0 in
  let p2 := animationFrame now2 p1 in
  let p3 := animationFrame now3 p2 in
  (photoRefs (dialog p0) = showFromState st (photoRefs st)
   /\ currentT (dialog p0) = currentT st
   /\ isPlayingRef p0 = false)
  /\ (dialog p1 = dialog p0 /\ isPlayingRef p1 = false)
  /\ (photoRefs (dialog p2) = photoRefs (dialog p0) /\ isPlayingRef p2 = true)
  /\ currentT (dialog p3)
     == Math_min ((now3 - now2) / 1000 * speed st) (totalDuration (planRef st)).
Proof.
  intros Hstopped Hreq Hend st p0 p1 p2 p3.
  assert (p0 = snd (requestAnimationFrame startSoon
                      (withDialog (setPhotoRefs (showFromState st (photoRefs st)) st)
                         p))) as Hp0.
  { unfold p0, handlePlayPause. rewrite Hstopped. fold st.
    assert (Qle_bool (totalDuration (planRef st) - 0.05) (currentT st) = true)
      as -> by now apply Qle_bool_iff.
    reflexivity. }
  assert (requested p0 = [(nextHandle p, startSoon)]) as Hreq0
    by (rewrite Hp0; cbn; now rewrite Hreq).
  assert (dialog p0 = setPhotoRefs (showFromState st (photoRefs st)) st) as Hd0
    by now rewrite Hp0.
  assert (isPlayingRef p0 = false) as Hs0 by now rewrite Hp0.
  destruct (restart_sequence now1 now2 now3 _ p0 Hreq0)
    as ((H1d & H1p) & (H2d & H2p) & Ht & _).
  subst p1 p2 p3.
  split; [rewrite Hd0; repeat split; exact Hs0|].
  split; [split; [exact H1d|now rewrite H1p]|].
  split; [split; [now rewrite H2d|exact H2p]|].
  rewrite Hd0 in Ht. exact Ht.
Qed.

Lemma handlePlayPause_restarts_at_end_witness :
  let p := openPlayer (setCurrentT 1.5 sampleDialog) in
  let p0 := handlePlayPause 0 p in
  let p3 := animationFrame 48 (animationFrame 32 (animationFrame 16 p0)) in
  (isPlayingRef p = false
   /\ requested p = []
   /\ totalDuration (planRef (dialog p)) - 0.05 <= currentT (dialog p))
  /\ isPlayingRef p0 = false
  /\ currentT (dialog p3)
     == Math_min ((48 - 32) / 1000 * 2) (totalDuration (planRef sampleDialog)).
Proof.
  cbv zeta.
  assert (totalDuration (planRef (dialog (openPlayer (setCurrentT 1.5 sampleDialog))))
            - 0.05
          <= currentT (dialog (openPlayer (setCurrentT 1.5 sampleDialog)))) as Hend
    by (vm_compute; discriminate).
  split; [exact (conj eq_refl (conj eq_refl Hend))|].
  pose proof (handlePlayPause_restarts_at_end 0 16 32 48
                (openPlayer (setCurrentT 1.5 sampleDialog)) eq_refl eq_refl Hend)
    as ((_ & _ & Hstopped) & _ & _ & Ht).
  exact (conj Hstopped Ht).
Defined.

(** ** Persistence *)

Lemma saved_lookup photos (k : string) p :
  foldl (fun acc photo => put photo acc) ∅ photos !! k = Some p
  <-> exists i : nat, lastOfItsId photos i p /\ Photo.id p = k.
Proof.
  revert p. induction photos as [|x l IH] using rev_ind; intros p.
  - simpl. rewrite lookup_empty. split; [discriminate|].
    intros (i & [Hi _] & _). discriminate.
  - rewrite foldl_app. simpl. unfold put at 1.
    destruct (decide (Photo.id x = k)) as [Hx|Hx].
    + rewrite Hx, lookup_insert_eq. split.
      * intros [= <-]. exists (length l). split; [|exact Hx]. split.
        -- rewrite lookup_app_r by lia. now rewrite Nat.sub_diag.
        -- intros j q Hj Hq. apply lookup_lt_Some in Hq.
           rewrite length_app in Hq. simpl in Hq. lia.
      * intros (i & [Hi Hlast] & Hid).
        destruct (decide (i = length l)) as [->|Hne].
        -- rewrite lookup_app_r in Hi by lia. rewrite Nat.sub_diag in Hi.
           simpl in Hi. exact Hi.
        -- exfalso. assert (i < length l)%nat as Hlt.
           { apply lookup_lt_Some in Hi. rewrite length_app in Hi. simpl in Hi. lia. }
           apply (Hlast (length l) x Hlt); [|congruence].
           rewrite lookup_app_r by lia. now rewrite Nat.sub_diag.
    + rewrite lookup_insert_ne by exact Hx. rewrite IH. split.
      * intros (i & [Hi Hlast] & Hid). exists i. split; [|exact Hid]. split.
        -- rewrite lookup_app_l; [exact Hi|]. now apply lookup_lt_Some in Hi.
        -- intros j q Hj Hq.
           destruct (decide (j < length l)%nat) as [Hjl|Hjl].
           ++ rewrite lookup_app_l in Hq by exact Hjl. now apply (Hlast j).
           ++ rewrite lookup_app_r in Hq by lia.
              destruct (j - length l)%nat; [|destruct n; discriminate].
              simpl in Hq. injection Hq as <-. congruence.
      * intros (i & [Hi Hlast] & Hid).
        assert (i < length l)%nat as Hlt.
        { destruct (decide (i = length l)) as [->|Hne].
          - rewrite lookup_app_r in Hi by lia. rewrite Nat.sub_diag in Hi.
            simpl in Hi. injection Hi as <-. contradiction.
          - apply lookup_lt_Some in Hi. rewrite length_app in Hi. simpl in Hi. lia. }
        rewrite lookup_app_l in Hi by exact Hlt.
        exists i. split; [|exact Hid]. split; [exact Hi|].
        intros j q Hj Hq. apply (Hlast j); [exact Hj|].
        rewrite lookup_app_l; [exact Hq|]. now apply lookup_lt_Some in Hq.
Qed.

Lemma saved_key photos (k : string) p :
  foldl (fun acc photo => put photo acc) ∅ photos !! k = Some p -> Photo.id p = k.
Proof. intros H. apply saved_lookup in H as (i & _ & Hid). exact Hid. Qed.

Lemma getAll_In (store : ObjectStore) p :
  In p (getAll store) <-> exists k, store !! k = Some p.
Proof.
  unfold getAll. rewrite <- list_elem_of_In, merge_sort_Permutation.
  rewrite list_elem_of_In, in_map_iff. split.
  - intros ([k q] & <- & Hin). exists k.
    now apply list_elem_of_In, elem_of_map_to_list in Hin.
  - intros (k & Hk). exists (k, p). split; [reflexivity|].
    now apply list_elem_of_In, elem_of_map_to_list.
Qed.

#[global] Instance keyOrder_total : Total keyOrder.
Proof. intros a b. apply String.leb_total. Qed.

(** The photos that [loadPhotos] finds after [savePhotos]. *)
Lemma loaded_after_save photos (store : ObjectStore) :
  let loaded := loadPhotos true (savePhotos true photos store) in
  (forall p, In p loaded <-> exists i : nat, lastOfItsId photos i p)
  /\ NoDup (List.map Photo.id loaded)
  /\ Sorted keyOrder loaded.
Proof.
  cbv zeta. unfold loadPhotos, savePhotos.
  set (saved := foldl (fun acc photo => put photo acc) ∅ photos).
  split; [|split].
  - intros p. rewrite getAll_In. split.
    + intros (k & Hk). apply saved_lookup in Hk as (i & Hi & _). now exists i.
    + intros (i & Hi). exists (Photo.id p). apply saved_lookup. now exists i.
  - unfold getAll. change (NoDup (Photo.id <$> merge_sort keyOrder (map_to_list saved).*2)).
    rewrite merge_sort_Permutation.
    assert ((Photo.id <$> (map_to_list saved).*2) = (map_to_list saved).*1) as ->.
    { rewrite <- list_fmap_compose. apply list_fmap_ext.
      intros i [k p] Hin. simpl.
      apply list_elem_of_lookup_2, elem_of_map_to_list in Hin.
      now apply saved_key in Hin. }
    apply NoDup_fst_map_to_list.
  - apply Sorted_merge_sort. apply _.
Qed.

(** What comes back after a save: the photos that are the last of their
    identity in the saved array, whatever the store held before, each
    once, in the order of their identities. *)
Theorem savePhotos_then_loadPhotos photos (store : ObjectStore) :
  let loaded := loadPhotos true (savePhotos true photos store) in
  (forall p, In p loaded <-> exists i : nat, lastOfItsId photos i p)
  /\ NoDup (List.map Photo.id loaded)
  /\ Sorted keyOrder loaded.
Proof. exact (loaded_after_save photos store). Qed.

Lemma NoDup_lastOfItsId photos (i : nat) p :
  NoDup (List.map Photo.id photos) -> photos !! i = Some p -> lastOfItsId photos i p.
Proof.
  intros Hids Hi. split; [exact Hi|]. intros j q Hj Hq Heq.
  assert (i = j); [|lia].
  eapply NoDup_lookup; [exact Hids| |].
  - rewrite map_lookup, Hi. reflexivity.
  - rewrite map_lookup, Hq. simpl. now rewrite Heq.
Qed.

(** With unique identities, loading after a save gives the saved photos
    back, rearranged in the order of their identities; and when the
    database does not open, saving changes nothing and loading gives the
    empty array. *)
Theorem savePhotos_loadPhotos_roundtrip photos (store : ObjectStore) :
  NoDup (List.map Photo.id photos) ->
  loadPhotos true (savePhotos true photos store) ≡ₚ photos
  /\ savePhotos false photos store = store
  /\ loadPhotos false (savePhotos true photos store) = [].
Proof.
  intros Hids. split; [|split; reflexivity].
  destruct (loaded_after_save photos store) as (Hin & Hnodup & _).
  cbv zeta in Hin, Hnodup.
  apply NoDup_Permutation.
  - eapply NoDup_fmap_1. exact Hnodup.
  - eapply NoDup_fmap_1. exact Hids.
  - intros p. rewrite !list_elem_of_In, Hin. split.
    + intros (i & Hi & _). apply list_elem_of_In. eapply list_elem_of_lookup_2. exact Hi.
    + intros Hp. apply list_elem_of_In, list_elem_of_lookup in Hp as [i Hi].
      exists i. now apply NoDup_lastOfItsId.
Qed.

Lemma savePhotos_loadPhotos_roundtrip_witness :
  NoDup (List.map Photo.id threePhotos)
  /\ loadPhotos true (savePhotos true threePhotos ∅) ≡ₚ threePhotos.
Proof.
  assert (NoDup (List.map Photo.id threePhotos)) as Hids
    by (apply (bool_decide_unpack _); vm_compute; exact I).
  split; [exact Hids|].
  exact (proj1 (savePhotos_loadPhotos_roundtrip threePhotos ∅ Hids)).
Defined.

(** ** Rotation snapping *)

Lemma Math_round_unique (q : Q) (m : Z) :
  q - (1 # 2) < inject_Z m -> inject_Z m <= q + (1 # 2) -> Math_round q = m.
Proof.
  intros Hlow Hhigh. destruct (Math_round_bounds q) as [H1 H2].
  assert (m <= Math_round q)%Z by (apply inject_Z_lt_succ; lra).
  assert (Math_round q <= m)%Z by (apply inject_Z_lt_succ; lra).
  lia.
Qed.

(** Without the Alt key the rotation handed to [onRotate] is the multiple
    of 15 degrees nearest to the raw rotation, the upper one at a tie: it is
    a multiple of 15 within 7.5 degrees of the raw rotation, no other
    multiple of 15 is, and a further move at the same pointer angle keeps
    it.  With the Alt key it is the raw rotation. *)
Theorem handlePointerMove_snaps (startRotation startAngle currentAngle : Q) :
  let raw := startRotation + (currentAngle - startAngle) in
  let next := handlePointerMove startRotation startAngle currentAngle false in
  (exists k : Z, next = inject_Z k * 15)
  /\ raw - 7.5 < next <= raw + 7.5
  /\ (forall m : Z,
        raw - 7.5 < inject_Z m * 15 <= raw + 7.5 -> next = inject_Z m * 15)
  /\ handlePointerMove next currentAngle currentAngle false = next
  /\ handlePointerMove startRotation startAngle currentAngle true = raw.
Proof.
  intros raw next. unfold next, handlePointerMove. fold raw.
  destruct (Math_round_bounds (raw / 15)) as [H1 H2].
  assert (raw == 15 * (raw / 15)) as Hraw by (field; lra).
  set (r := raw / 15) in *. set (k := Math_round r) in *.
  split; [now exists k|]. split; [lra|]. split; [|split; [|reflexivity]].
  - intros m [Hm1 Hm2]. f_equal. f_equal. unfold k.
    apply Math_round_unique; lra.
  - f_equal. f_equal.
    assert ((inject_Z k * 15 + (currentAngle - currentAngle)) / 15 == inject_Z k)
      as Hk by field.
    unfold Math_round at 1. rewrite (Qfloor_comp _ (inject_Z k + (1 # 2))).
    + pose proof (Math_round_unique (inject_Z k) k) as Hu.
      unfold Math_round in Hu. apply Hu; lra.
    + rewrite Hk. reflexivity.
Qed.

(** ** Reshuffling *)

Section SortRelated.
Context {A : Type} (cmp : A -> A -> Q) (R : A -> A -> Prop).
Hypothesis cmp_related :
  forall a a' b b', R a a' -> R b b' -> cmp a b = cmp a' b'.

Lemma sort_insert_related x x' l l' :
  R x x' -> Forall2 R l l' ->
  Forall2 R (sort_insert cmp x l) (sort_insert cmp x' l').
Proof.
  intros Hx Hl. induction Hl as [|y y' l l' Hy Hl IH]; simpl.
  - now repeat constructor.
  - rewrite (cmp_related x x' y y' Hx Hy).
    destruct (Qle_bool (cmp x' y') 0); now repeat constructor.
Qed.

Lemma array_sort_related l l' :
  Forall2 R l l' -> Forall2 R (array_sort cmp l) (array_sort cmp l').
Proof.
  intros Hl. induction Hl as [|y y' l l' Hy Hl IH]; simpl; [constructor|].
  now apply sort_insert_related.
Qed.
End SortRelated.



(** ** Before the first entrance *)

Lemma lastWrite_In k v states :
  In k (List.map PhotoAnimState.id states) ->
  In (lastWrite k v states) states.
Proof.
  unfold lastWrite. revert v.
  induction states as [|state states IH]; intros v Hk; simpl; [destruct Hk|].
  destruct (in_dec string_dec k (List.map PhotoAnimState.id states)) as [Hin|Hout].
  - right. now apply IH.
  - fold (lastWrite k (if decide (PhotoAnimState.id state = k) then state else v) states).
    rewrite lastWrite_absent by assumption.
    destruct Hk as [Hk|Hk]; [|contradiction].
    destruct (decide (PhotoAnimState.id state = k)); [now left|contradiction].
Qed.

Lemma specFor_delay effect w h i photo :
  firstDelay effect <= delay (specFor effect w h i photo).
Proof. pose proof (num_nonneg i). destruct effect; cbn; lra. Qed.

(** For the plan of the dialog's own photos, every frame up to the first
    delay of the effect (0.5 s for shuffle, 0 otherwise) is the frame that
    replay shows before it starts: the [from] states of the plan, in which
    every photo of the plan is fully transparent. *)
Theorem frames_before_first_delay st (d : Dom) w h t :
  planRef st = buildEffectPlan (photosRef st) (selectedEffect st) w h ->
  t <= firstDelay (selectedEffect st) ->
  applyStatesToDOM
    (interpolateFrame (planRef st) (photosRef st) t (selectedEffect st)) d
  = showFromState st d
  /\ forall k state,
       present (photosRef st) k ->
       showFromState st d !! k = Some state ->
       PhotoAnimState.opacity state = 0.
Proof.
  intros Hplan Ht.
  assert (forall spec, In spec (specs (planRef st)) ->
            exists (i : nat) photo,
              array_sort byZIndex (photosRef st) !! i = Some photo
              /\ spec = specFor (selectedEffect st) w h i photo) as Hspecs.
  { intros spec Hin. rewrite Hplan in Hin.
    apply list_elem_of_In, list_elem_of_lookup in Hin as [i Hi].
    apply planOfSorted_lookup in Hi as (photo & Hphoto & ->). now exists i, photo. }
  split.
  - unfold showFromState, interpolateFrame. f_equal.
    apply List.map_ext_in. intros spec Hin.
    destruct (Hspecs spec Hin) as (i & photo & Hphoto & ->).
    destruct (specFor_shape (selectedEffect st) w h i photo)
      as (Hid & _ & _ & _ & _ & Hdur).
    apply interpolateSpec_before; [exact Hdur| |].
    + rewrite Hid. apply present_sorted. exists photo. split; [|reflexivity].
      apply list_elem_of_In. eapply list_elem_of_lookup_2. exact Hphoto.
    + eapply Qle_trans; [exact Ht|apply specFor_delay].
  - intros k state Hk Hstate. unfold showFromState in Hstate.
    rewrite applyStatesToDOM_lookup in Hstate.
    destruct (d !! k) as [v|]; [|discriminate]. injection Hstate as <-.
    set (states := List.map (fun s => withId (photoId s) (from_ s))
                     (specs (planRef st))).
    assert (In k (List.map PhotoAnimState.id states)) as Hin.
    { unfold states. rewrite List.map_map. cbn [PhotoAnimState.id withId].
      rewrite Hplan. unfold buildEffectPlan, buildEffectPlanWith.
      rewrite specs_ids. apply present_sorted in Hk as (photo & Hphoto & <-).
      now apply in_map. }
    pose proof (lastWrite_In k v states Hin) as Hlast.
    unfold states in Hlast at 2. apply in_map_iff in Hlast as (spec & <- & Hspec).
    destruct (Hspecs spec Hspec) as (i & photo & _ & ->).
    cbn [PhotoAnimState.opacity withId].
    now destruct (specFor_shape (selectedEffect st) w h i photo)
      as (_ & _ & Hfrom & _).
Qed.

Lemma frames_before_first_delay_witness :
  (planRef shuffleDialog
   = buildEffectPlan (photosRef shuffleDialog) (selectedEffect shuffleDialog)
       1280 720
   /\ 0.5 <= firstDelay (selectedEffect shuffleDialog))
  /\ applyStatesToDOM
       (interpolateFrame (planRef shuffleDialog) (photosRef shuffleDialog) 0.5
          (selectedEffect shuffleDialog))
       (photoRefs shuffleDialog)
     = showFromState shuffleDialog (photoRefs shuffleDialog).
Proof.
  assert (0.5 <= firstDelay (selectedEffect shuffleDialog)) as Ht
    by (vm_compute; discriminate).
  split; [exact (conj eq_refl Ht)|].
  exact (proj1 (frames_before_first_delay shuffleDialog (photoRefs shuffleDialog)
                  1280 720 0.5 eq_refl Ht)).
Defined.
